(** * Transcript acquisition and normalisation: a shallow embedding

    The development follows the TypeScript sources of the repository:

    - [lib/utils.ts]              : [extractVideoId], [isValidYouTubeUrl]
    - [app/api/transcript/route.ts] : the library-backed handler [GET] with its
      retry loop, the direct-page fallback [fetchTranscriptDirectly] and the
      cue-XML parser [parseTranscriptXml]
    - the yt-dlp backed handler ([GET], [parseVttTime]) with the
      segment-JSON and VTT-like parsers
    - [lib/format.ts]             : [formatAsText].

    Conventions of the embedding.

    - A JavaScript string is the list of its UTF-16 code units ([list N]).
      [toLowerCase] is modelled on the ASCII letters only.
    - A JavaScript number is an exact rational extended with [NaN] and the two
      infinities; rounding of IEEE doubles is not modelled.  Every concrete
      value computed below is a small dyadic number on which both agree.
    - The outside world (the transcript library, the network, the platform's
      JSON and URL parsers, the yt-dlp tool) is a parameter of the handlers;
      every suspension ([setTimeout]) and every outgoing call is recorded in
      a trace, in program order. *)

From Stdlib Require Import String Ascii.
From Stdlib Require Import List NArith ZArith QArith Qreduction Lia Bool.
Import ListNotations.

Local Open Scope N_scope.

(* ================================================================== *)
(** * JavaScript strings *)
(* ================================================================== *)

Module JsString.

Definition char := N.
Definition jsstring := list char.

(** [u "abc"] is the JavaScript literal ['abc'] (for ASCII text). *)
Definition u (s : string) : jsstring :=
  map N_of_ascii (list_ascii_of_string s).

Fixpoint eqb (a b : jsstring) : bool :=
  match a, b with
  | [], [] => true
  | x :: a', y :: b' => N.eqb x y && eqb a' b'
  | _, _ => false
  end.

(** [String.prototype.startsWith]; [strip_prefix] also returns what follows. *)
Fixpoint strip_prefix (p s : jsstring) : option jsstring :=
  match p with
  | [] => Some s
  | x :: p' =>
      match s with
      | [] => None
      | y :: s' => if N.eqb x y then strip_prefix p' s' else None
      end
  end.

Definition startsWith (s p : jsstring) : bool :=
  match strip_prefix p s with Some _ => true | None => false end.

(** [String.prototype.includes] *)
Fixpoint includes (s p : jsstring) : bool :=
  startsWith s p ||
  match s with
  | [] => false
  | _ :: s' => includes s' p
  end.

(** [String.prototype.toLowerCase], ASCII letters. *)
Definition lower_char (c : char) : char :=
  if (65 <=? c) && (c <=? 90) then c + 32 else c.

Definition toLowerCase (s : jsstring) : jsstring := map lower_char s.

(** ECMAScript WhiteSpace and LineTerminator code units, as used by [trim],
    by the regular expression class [\s] and by [parseFloat]. *)
Definition is_space (c : char) : bool :=
  ((9 <=? c) && (c <=? 13)) || (c =? 32) || (c =? 160) || (c =? 5760)
  || ((8192 <=? c) && (c <=? 8202)) || (c =? 8232) || (c =? 8233)
  || (c =? 8239) || (c =? 8287) || (c =? 12288) || (c =? 65279).

Fixpoint dropWhile (p : char -> bool) (s : jsstring) : jsstring :=
  match s with
  | [] => []
  | c :: s' => if p c then dropWhile p s' else s
  end.

Definition trimStart (s : jsstring) : jsstring := dropWhile is_space s.
Definition trimEnd (s : jsstring) : jsstring := rev (dropWhile is_space (rev s)).
Definition trim (s : jsstring) : jsstring := trimEnd (trimStart s).

(** [s.split(sep)] for a non-empty separator: [split_go] carries the piece
    being read (reversed) and a fuel bounded by the length of the input. *)
Fixpoint split_go (fuel : nat) (sep : jsstring) (cur : jsstring) (s : jsstring)
  : list jsstring :=
  match fuel with
  | O => [rev cur ++ s]
  | S fuel' =>
      match s with
      | [] => [rev cur]
      | c :: s' =>
          match strip_prefix sep s with
          | Some rest => rev cur :: split_go fuel' sep [] rest
          | None => split_go fuel' sep (c :: cur) s'
          end
      end
  end.

Definition split (s sep : jsstring) : list jsstring :=
  split_go (S (length s)) sep [] s.

(** [arr.join(sep)] *)
Fixpoint join (sep : jsstring) (l : list jsstring) : jsstring :=
  match l with
  | [] => []
  | [x] => x
  | x :: l' => x ++ sep ++ join sep l'
  end.

(** [s.replace(/pat/g, rep)] for a literal pattern: one left-to-right pass,
    the scan resuming after each replaced occurrence. *)
Fixpoint replaceAll_go (fuel : nat) (pat rep s : jsstring) : jsstring :=
  match fuel with
  | O => s
  | S fuel' =>
      match s with
      | [] => []
      | c :: s' =>
          match strip_prefix pat s with
          | Some rest => rep ++ replaceAll_go fuel' pat rep rest
          | None => c :: replaceAll_go fuel' pat rep s'
          end
      end
  end.

Definition replaceAll (pat rep s : jsstring) : jsstring :=
  replaceAll_go (length s) pat rep s.

(** [occurs p s]: the text [p] appears somewhere in [s]. *)
Definition occurs (p s : jsstring) : Prop :=
  exists a b, s = a ++ p ++ b.

End JsString.
Import JsString.

(* ================================================================== *)
(** * JavaScript numbers *)
(* ================================================================== *)

Module JsNum.

Inductive num :=
| NaN
| Inf (negative : bool)
| Fin (q : Q).

Definition zero : num := Fin 0.
Definition of_Z (z : Z) : num := Fin (inject_Z z).

Definition is_neg (q : Q) : bool := (Qnum q <? 0)%Z.
Definition is_zero (q : Q) : bool := (Qnum q =? 0)%Z.

Definition neg (a : num) : num :=
  match a with
  | NaN => NaN
  | Inf s => Inf (negb s)
  | Fin q => Fin (Qred (- q))
  end.

Definition add (a b : num) : num :=
  match a, b with
  | NaN, _ | _, NaN => NaN
  | Inf s, Inf t => if Bool.eqb s t then Inf s else NaN
  | Inf s, Fin _ | Fin _, Inf s => Inf s
  | Fin x, Fin y => Fin (Qred (x + y))
  end.

Definition sub (a b : num) : num := add a (neg b).

Definition mul (a b : num) : num :=
  match a, b with
  | NaN, _ | _, NaN => NaN
  | Inf s, Inf t => Inf (xorb s t)
  | Inf s, Fin q | Fin q, Inf s =>
      if is_zero q then NaN else Inf (xorb s (is_neg q))
  | Fin x, Fin y => Fin (Qred (x * y))
  end.

Definition div (a b : num) : num :=
  match a, b with
  | NaN, _ | _, NaN => NaN
  | Inf _, Inf _ => NaN
  | Inf s, Fin q => Inf (xorb s (is_neg q))
  | Fin _, Inf _ => Fin 0
  | Fin x, Fin y =>
      if is_zero y then (if is_zero x then NaN else Inf (is_neg x))
      else Fin (Qred (x / y))
  end.

(** ToBoolean on a number: [NaN] and zero are falsy. *)
Definition truthy (a : num) : bool :=
  match a with
  | NaN => false
  | Inf _ => true
  | Fin q => negb (is_zero q)
  end.

(** [a || b] on numbers. *)
Definition or_else (a b : num) : num := if truthy a then a else b.

(** [a < b]; comparisons with [NaN] are false. *)
Definition ltb (a b : num) : bool :=
  match a, b with
  | NaN, _ | _, NaN => false
  | Inf s, Inf t => s && negb t
  | Inf s, Fin _ => s
  | Fin _, Inf t => negb t
  | Fin x, Fin y =>
      match Qcompare x y with Lt => true | _ => false end
  end.

Definition is_digit (c : char) : bool := (48 <=? c) && (c <=? 57).

Fixpoint span (p : char -> bool) (s : jsstring) : jsstring * jsstring :=
  match s with
  | [] => ([], [])
  | c :: s' =>
      if p c then let (a, b) := span p s' in (c :: a, b) else ([], s)
  end.

(** Value of a run of decimal digits. *)
Definition digits_value (ds : jsstring) : N :=
  fold_left (fun acc c => 10 * acc + (c - 48)) ds 0.

(** [parseFloat]: leading white space is skipped, then the longest prefix
    that is a decimal literal (sign, digits, fraction, exponent) or
    [Infinity] is read; [NaN] when there is none. *)
Definition parseFloat (s : jsstring) : num :=
  let s0 := trimStart s in
  let '(negative, s1) :=
    match s0 with
    | 45 :: t => (true, t)
    | 43 :: t => (false, t)
    | _ => (false, s0)
    end in
  if startsWith s1 (u "Infinity") then Inf negative else
  let (ip, r1) := span is_digit s1 in
  let (fp, r2) :=
    match r1 with
    | 46 :: t => span is_digit t
    | _ => ([], r1)
    end in
  match ip ++ fp with
  | [] => NaN
  | ds =>
      let ex : Z :=
        match r2 with
        | c :: t =>
            if (c =? 101) || (c =? 69) then
              let '(eneg, t') :=
                match t with
                | 45 :: t' => (true, t')
                | 43 :: t' => (false, t')
                | _ => (false, t)
                end in
              match fst (span is_digit t') with
              | [] => 0%Z
              | ed => let v := Z.of_N (digits_value ed) in
                      if eneg then (- v)%Z else v
              end
            else 0%Z
        | [] => 0%Z
        end in
      let mant := inject_Z (Z.of_N (digits_value ds)) in
      let scale := Qpower (10 # 1) (ex - Z.of_nat (length fp)) in
      let v := (mant * scale)%Q in
      Fin (Qred (if negative then - v else v))
  end.

(** [parseInt(ds, 10)] on a run of digits, then [String.fromCharCode]:
    the code unit is the value modulo 2^16 (the value is exact here; a
    double is, up to 2^53). *)
Definition fromCharCode (n : N) : char := n mod 65536.

End JsNum.
Import JsNum.

(* ================================================================== *)
(** * Regular expressions: a backtracking matcher *)
(* ================================================================== *)

(** The patterns of the sources use literals, character classes, bounded or
    unbounded repetitions of a class (greedy or lazy), sequence, alternation
    and capture groups.  [rmatch r s] lists, in the priority order of a
    backtracking engine, every way [r] matches a prefix of [s]: captured
    groups, the matched text and the remaining input.  The engine's answer
    is the head of that list. *)
Module Regex.

Inductive re :=
| RLit (l : jsstring)
| RRep (p : char -> bool) (lo : nat) (hi : option nat) (greedy : bool)
| RSeq (a b : re)
| RAlt (a b : re)
| RGrp (a : re).

Definition result := (list jsstring * jsstring * jsstring)%type.

(** Length of the longest prefix of [s] in class [p], at most [hi]. *)
Fixpoint run_length (p : char -> bool) (hi : option nat) (s : jsstring) : nat :=
  match hi with
  | Some O => O
  | _ =>
      match s with
      | [] => O
      | c :: s' =>
          if p c then S (run_length p (option_map Nat.pred hi) s') else O
      end
  end.

Definition rep_lengths (lo kmax : nat) (greedy : bool) : list nat :=
  let ks := seq lo (S kmax - lo) in
  if greedy then rev ks else ks.

Fixpoint rmatch (r : re) (s : jsstring) : list result :=
  match r with
  | RLit l =>
      match strip_prefix l s with
      | Some rest => [([], l, rest)]
      | None => []
      end
  | RRep p lo hi greedy =>
      map (fun k => ([], firstn k s, skipn k s))
          (rep_lengths lo (run_length p hi s) greedy)
  | RSeq a b =>
      flat_map (fun '(c1, m1, r1) =>
                  map (fun '(c2, m2, r2) => (c1 ++ c2, m1 ++ m2, r2))
                      (rmatch b r1))
               (rmatch a s)
  | RAlt a b => rmatch a s ++ rmatch b s
  | RGrp a => map (fun '(c, m, rest) => (m :: c, m, rest)) (rmatch a s)
  end.

(** One step of [RegExp.prototype.exec]: the leftmost position at which
    the pattern matches; returns the skipped text, the captures, the
    matched text and the rest. *)
Record found := mkFound {
  before : jsstring;
  groups : list jsstring;
  matched : jsstring;
  after : jsstring
}.

Fixpoint search (r : re) (s : jsstring) : option found :=
  match rmatch r s with
  | (c, m, rest) :: _ => Some (mkFound [] c m rest)
  | [] =>
      match s with
      | [] => None
      | x :: s' =>
          match search r s' with
          | Some f => Some (mkFound (x :: before f) (groups f) (matched f) (after f))
          | None => None
          end
      end
  end.

(** The loop [while ((match = pattern.exec(s)) !== null)] of a global
    pattern: all successive matches.  Every pattern used below consumes at
    least one code unit, so [length s] steps are enough. *)
Fixpoint matchAll_go (fuel : nat) (r : re) (s : jsstring) : list found :=
  match fuel with
  | O => []
  | S fuel' =>
      match search r s with
      | Some f => f :: matchAll_go fuel' r (after f)
      | None => []
      end
  end.

Definition matchAll (r : re) (s : jsstring) : list found :=
  matchAll_go (length s) r s.

(** [s.replace(/r/g, f)] where [f] computes the replacement from a match. *)
Fixpoint replace_go (fuel : nat) (r : re) (f : found -> jsstring) (s : jsstring)
  : jsstring :=
  match fuel with
  | O => s
  | S fuel' =>
      match search r s with
      | Some m => before m ++ f m ++ replace_go fuel' r f (after m)
      | None => s
      end
  end.

Definition replace (r : re) (f : found -> jsstring) (s : jsstring) : jsstring :=
  replace_go (length s) r f s.

Definition any_char (_ : char) : bool := true.
Definition not_char (x : char) (c : char) : bool := negb (c =? x).
(** [.] : anything but a line terminator *)
Definition dot (c : char) : bool :=
  negb ((c =? 10) || (c =? 13) || (c =? 8232) || (c =? 8233)).

Definition plus (p : char -> bool) : re := RRep p 1 None true.
Definition star (p : char -> bool) : re := RRep p 0 None true.
Definition lazy_star (p : char -> bool) : re := RRep p 0 None false.

Fixpoint seqs (l : list re) : re :=
  match l with
  | [] => RLit []
  | [r] => r
  | r :: l' => RSeq r (seqs l')
  end.

End Regex.
Import Regex.

(* ================================================================== *)
(** * lib/utils.ts *)
(* ================================================================== *)

Module Utils.

(** The class [[a-zA-Z0-9_-]] *)
Definition id_char (c : char) : bool :=
  ((97 <=? c) && (c <=? 122)) || ((65 <=? c) && (c <=? 90))
  || ((48 <=? c) && (c <=? 57)) || (c =? 95) || (c =? 45).

Definition id11 : re := RGrp (RRep id_char 11%nat (Some 11%nat) true).

(** [/(?:youtube\.com\/watch\?v=|youtu\.be\/|youtube\.com\/embed\/)([a-zA-Z0-9_-]{11})/] *)
Definition watchPattern : re :=
  RSeq (RAlt (RLit (u "youtube.com/watch?v="))
             (RAlt (RLit (u "youtu.be/")) (RLit (u "youtube.com/embed/"))))
       id11.

(** [/youtu\.be\/([a-zA-Z0-9_-]{11})/] *)
Definition shortPattern : re := RSeq (RLit (u "youtu.be/")) id11.

(** [/youtube\.com\/embed\/([a-zA-Z0-9_-]{11})/] *)
Definition embedPattern : re := RSeq (RLit (u "youtube.com/embed/")) id11.

(** [m && m[1]]: the first capture of a successful match, when it is a
    non-empty string. *)
Definition first_group (m : option found) : option jsstring :=
  match m with
  | Some f =>
      match groups f with
      | ((_ :: _) as g) :: _ => Some g
      | _ => None
      end
  | None => None
  end.

Definition extractVideoId (url : jsstring) : option jsstring :=
  match url with
  | [] => None
  | _ =>
      let url := trim url in
      match first_group (search watchPattern url) with
      | Some id => Some id
      | None =>
          match first_group (search shortPattern url) with
          | Some id => Some id
          | None =>
              match first_group (search embedPattern url) with
              | Some id => Some id
              | None => None
              end
          end
      end
  end.

Definition isValidYouTubeUrl (url : jsstring) : bool :=
  match extractVideoId url with
  | Some _ => true
  | None => false
  end.

End Utils.


(* ================================================================== *)
(** * Shared data model (lib/types.ts) and the outside world *)
(* ================================================================== *)

Module Model.

(** [TranscriptItem] *)
Record TranscriptItem := mkItem {
  text : jsstring;
  duration : num;
  offset : num
}.

(** A thrown value, as far as the handlers inspect it. *)
Record jsError := mkError {
  message : jsstring;
  name : jsstring;
  stack : jsstring;
  status : option Z
}.

(** An element of the array returned by a strategy, typed [any] in the
    source: the handler reads six properties of it, each possibly absent. *)
Record rawItem := mkRaw {
  r_text : option jsstring;
  r_duration : option num;
  r_dur : option num;
  r_offset : option num;
  r_start : option num;
  r_startTime : option num
}.

(** What one call of [YoutubeTranscript.fetchTranscript] does. *)
Inductive libOutcome :=
| LibArray (items : list rawItem)
| LibOther (typeof : jsstring) (err_stack : jsstring)
| LibThrow (e : jsError).

(** What one call of [fetch] does. *)
Inductive fetchResult :=
| NetworkError (e : jsError)
| Response (status : Z) (body : jsstring).

Definition response_ok (status : Z) : bool :=
  ((200 <=? status) && (status <=? 299))%Z.

(** An element of the embedded [captionTracks] array. *)
Record captionTrack := mkTrack {
  languageCode : option jsstring;
  baseUrl : option jsstring
}.

(** One subtitle format offered by yt-dlp for a language. *)
Record subTrack := mkSub {
  ext : option jsstring;
  url : option jsstring
}.

(** The part of yt-dlp's JSON dump that the handler reads.  The two objects
    are association lists in key order. *)
Record toolOutput := mkOutput {
  subtitles : option (list (jsstring * list subTrack));
  automatic_captions : option (list (jsstring * list subTrack))
}.

Inductive toolResult :=
| ToolThrow (e : jsError)
| ToolOutput (o : toolOutput).

(** The [json3] document. *)
Record json3Seg := mkSeg { utf8 : option jsstring }.
Record json3Event := mkEvent {
  segs : option (list json3Seg);
  tStartMs : option Q;
  dDurationMs : option Q
}.
Record json3 := mkJson3 { events : option (list json3Event) }.

(** The outside world of one request. *)
Record World := mkWorld {
  (** [YoutubeTranscript.fetchTranscript] at the n-th attempt (from 1) *)
  library : nat -> libOutcome;
  fetch : jsstring -> fetchResult;
  (** [JSON.parse] of a caption track list; [None] when it throws *)
  JSON_parse_tracks : jsstring -> option (list captionTrack);
  (** the platform's [URL] class *)
  URL : Type;
  new_URL : jsstring -> option URL;
  searchParams_has : URL -> jsstring -> bool;
  searchParams_set : URL -> jsstring -> jsstring -> URL;
  URL_toString : URL -> jsstring;
  (** the yt-dlp executable *)
  youtubedl : jsstring -> toolResult;
  (** [Response.json()] of a subtitle file; [None] when it throws *)
  parse_json3 : jsstring -> option json3
}.

(** Observable actions of a handler, in program order. *)
Inductive event :=
| Sleep (ms : Z)
| CallLibrary (videoId lang : jsstring)
| Fetch (target : jsstring)
| CallTool (target : jsstring).

Definition trace := list event.

Definition sleeps (tr : trace) : list Z :=
  flat_map (fun e => match e with Sleep d => [d] | _ => [] end) tr.

Definition is_outgoing (e : event) : bool :=
  match e with Sleep _ => false | _ => true end.

Definition library_calls (tr : trace) : nat :=
  length (filter (fun e => match e with CallLibrary _ _ => true | _ => false end) tr).

Definition fetches (tr : trace) : list jsstring :=
  flat_map (fun e => match e with Fetch t => [t] | _ => [] end) tr.

(** The bodies of the error responses, named after their message. *)
Inductive errorBody :=
| VideoIdRequired            (* 'Video ID is required' *)
| InvalidVideoId             (* 'Invalid YouTube video ID' *)
| NoTranscriptInLanguage     (* 'No transcript available for this video in language ...' *)
| NoTranscriptAvailable      (* 'No transcript available for this video in the selected language' *)
| InvalidIdOrNotFound        (* 'Invalid YouTube video ID or video not found' *)
| RateLimited                (* the rate limiting explanation *)
| GenericFailure             (* 'An error occurred while fetching the transcript...' *)
| NoSubtitlesForLanguage     (* 'No transcript available for language ...' *)
| NoSubtitleUrl              (* 'Failed to find subtitle track URL' *)
| ToolFailure.               (* 'Failed to fetch transcript: ...' *)

Inductive response :=
| Json200 (videoId : jsstring) (transcript : list TranscriptItem)
| JsonError (http_status : Z) (body : errorBody).

Definition dq : char := 34.   (* the double quote *)

(** [searchParams.get('lang') || 'en'] *)
Definition lang_or_default (lang : option jsstring) : jsstring :=
  match lang with
  | Some ((_ :: _) as l) => l
  | _ => u "en"
  end.

End Model.
Import Model.

(* ================================================================== *)
(** * app/api/transcript/route.ts : the cue-XML parser *)
(* ================================================================== *)

Module CueXml.

Definition attr (nm : string) : list re :=
  [RLit (u nm ++ [61; dq]); RGrp (plus (not_char dq)); RLit [dq]].

(** pattern1, with Q for the double quote:
    [/<text\s+start=Q([^Q]+)Q\s+dur=Q([^Q]+)Q[^>]*>([^<]* )<\/text>/g] *)
Definition pattern1 : re :=
  seqs ([RLit (u "<text"); plus is_space] ++ attr "start"
        ++ [plus is_space] ++ attr "dur"
        ++ [star (not_char 62); RLit (u ">");
            RGrp (star (not_char 60)); RLit (u "</text>")]).

(** pattern2:
    [/<text\s+start=Q([^Q]+)Q\s+dur=Q([^Q]+)Q[^>]*><!\[CDATA\[([\s\S]*?)\]\]><\/text>/g] *)
Definition pattern2 : re :=
  seqs ([RLit (u "<text"); plus is_space] ++ attr "start"
        ++ [plus is_space] ++ attr "dur"
        ++ [star (not_char 62); RLit (u "><![CDATA[");
            RGrp (lazy_star any_char); RLit (u "]]></text>")]).

(** pattern3:
    [/<text[^>]*start=Q([^Q]+)Q[^>]*dur=Q([^Q]+)Q[^>]*>([\s\S]*?)<\/text>/g] *)
Definition pattern3 : re :=
  seqs ([RLit (u "<text"); star (not_char 62)] ++ attr "start"
        ++ [star (not_char 62)] ++ attr "dur"
        ++ [star (not_char 62); RLit (u ">");
            RGrp (lazy_star any_char); RLit (u "</text>")]).

(** The three patterns in precedence order, stopping at the first that
    yields a match. *)
Definition textMatches (xml : jsstring) : list found :=
  match matchAll pattern1 xml with
  | [] =>
      match matchAll pattern2 xml with
      | [] => matchAll pattern3 xml
      | ms => ms
      end
  | ms => ms
  end.

(** [/<!\[CDATA\[([\s\S]*?)\]\]>/g] replaced by ['$1'] *)
Definition cdata : re :=
  seqs [RLit (u "<![CDATA["); RGrp (lazy_star any_char); RLit (u "]]>")].

Definition group (i : nat) (m : found) : jsstring :=
  nth (i - 1) (groups m) [].

Definition unwrapCdata (t : jsstring) : jsstring :=
  replace cdata (group 1) t.

(** The six named replacements, in source order. *)
Definition decodeNamed (t : jsstring) : jsstring :=
  replaceAll (u "&nbsp;") (u " ")
   (replaceAll (u "&#39;") (u "'")
    (replaceAll (u "&quot;") [dq]
     (replaceAll (u "&gt;") (u ">")
      (replaceAll (u "&lt;") (u "<")
       (replaceAll (u "&amp;") (u "&") t))))).

(** [/&#(\d+);/g] replaced by [String.fromCharCode(parseInt(code, 10))] *)
Definition numericRef : re :=
  seqs [RLit (u "&#"); RGrp (plus is_digit); RLit (u ";")].

Definition decodeNumeric (t : jsstring) : jsstring :=
  replace numericRef (fun m => [fromCharCode (digits_value (group 1 m))]) t.

(** The whole chain applied to [match[3]]. *)
Definition decodeText (t : jsstring) : jsstring :=
  trim (decodeNumeric (decodeNamed (unwrapCdata t))).

Definition segmentOf (m : found) : option TranscriptItem :=
  let start := parseFloat (group 1 m) in
  let dur := parseFloat (group 2 m) in
  match decodeText (group 3 m) with
  | [] => None
  | t => Some (mkItem t dur start)
  end.

Fixpoint collect (ms : list found) : list TranscriptItem :=
  match ms with
  | [] => []
  | m :: ms' =>
      match segmentOf m with
      | Some it => it :: collect ms'
      | None => collect ms'
      end
  end.

Definition parseTranscriptXml (xml : jsstring) : list TranscriptItem :=
  collect (textMatches xml).

End CueXml.

(* ================================================================== *)
(** * app/api/transcript/route.ts : the direct-page strategy *)
(* ================================================================== *)

Module DirectPage.
Import CueXml.

(** The failures of [fetchTranscriptDirectly], named after their message. *)
Inductive directError :=
| PageFetchFailed (status : Z)        (* 'Failed to fetch YouTube page: ...' *)
| NoCaptionTracks                     (* 'Could not find captionTracks in YouTube page' *)
| TracksNotJson                       (* JSON.parse threw twice *)
| NoTrackForLanguage (lang : jsstring)(* 'No caption track found for language ...' *)
| NoBaseUrl                           (* 'Caption track has no baseUrl' *)
| TranscriptFetchFailed (status : Z)  (* 'Failed to fetch transcript: ...' *)
| EmptyXml                            (* 'Transcript XML response is empty ...' *)
| Network (e : jsError).              (* fetch itself threw *)

Definition captionTracksKey : jsstring := [dq] ++ u "captionTracks" ++ [dq] ++ u ":".

(** [/Q captionTracks Q:(\[[^\]]*\])/] *)
Definition tracksPattern1 : re :=
  RSeq (RLit captionTracksKey)
       (RGrp (seqs [RLit (u "["); star (not_char 93); RLit (u "]")])).

(** [/Q captionTracks Q:(\[.*?\])/] *)
Definition tracksPattern2 : re :=
  RSeq (RLit captionTracksKey)
       (RGrp (seqs [RLit (u "["); lazy_star dot; RLit (u "]")])).

Definition bs : char := 92.   (* the backslash *)

(** [captionTracks.find(track => track.languageCode === lang)] *)
Definition is_language (lang : jsstring) (t : captionTrack) : bool :=
  match languageCode t with
  | Some l => JsString.eqb l lang
  | None => false
  end.

(** The four replacements applied to [baseUrl]. *)
Definition unescapeUrl (b : jsstring) : jsstring :=
  replaceAll [bs; bs] [bs]
   (replaceAll [bs; dq] [dq]
    (replaceAll (bs :: u "u003D") (u "=")
     (replaceAll (bs :: u "u0026") (u "&") b))).

Definition watchUrl (videoId : jsstring) : jsstring :=
  u "https://www.youtube.com/watch?v=" ++ videoId.

Section WithWorld.
Variable w : World.

(** Lines 414-423: make sure the [fmt] parameter is set; the address is
    used as it is when the [URL] constructor throws. *)
Definition ensureFmt (b : jsstring) : jsstring :=
  match new_URL w b with
  | Some urlObj =>
      let urlObj :=
        if searchParams_has w urlObj (u "fmt") then urlObj
        else searchParams_set w urlObj (u "fmt") (u "3") in
      URL_toString w urlObj
  | None => b
  end.

(** Lines 380-387: parse the captured list, unescaping it after a first
    failure. *)
Definition parseTracks (captured : jsstring) : option (list captionTrack) :=
  match JSON_parse_tracks w captured with
  | Some ts => Some ts
  | None =>
      JSON_parse_tracks w
        (replaceAll [bs; dq] [dq] (replaceAll (bs :: u "u0026") (u "&") captured))
  end.

Definition fetchTranscriptDirectly (videoId lang : jsstring) (tr : trace)
  : (directError + list TranscriptItem) * trace :=
  let tr := tr ++ [Fetch (watchUrl videoId)] in
  match fetch w (watchUrl videoId) with
  | NetworkError e => (inl (Network e), tr)
  | Response st html =>
      if negb (response_ok st) then (inl (PageFetchFailed st), tr) else
      let captionTracksMatch :=
        match search tracksPattern1 html with
        | Some m => Some m
        | None => search tracksPattern2 html
        end in
      match captionTracksMatch with
      | None => (inl NoCaptionTracks, tr)
      | Some m =>
          match parseTracks (group 1 m) with
          | None => (inl TracksNotJson, tr)
          | Some captionTracks =>
              match find (is_language lang) captionTracks with
              | None => (inl (NoTrackForLanguage lang), tr)
              | Some matchingTrack =>
                  match baseUrl matchingTrack with
                  | None | Some [] => (inl NoBaseUrl, tr)
                  | Some b =>
                      let b := ensureFmt (unescapeUrl b) in
                      let tr := tr ++ [Fetch b] in
                      match fetch w b with
                      | NetworkError e => (inl (Network e), tr)
                      | Response st xml =>
                          if negb (response_ok st)
                          then (inl (TranscriptFetchFailed st), tr)
                          else
                            match trim xml with
                            | [] => (inl EmptyXml, tr)
                            | _ => (inr (parseTranscriptXml xml), tr)
                            end
                      end
                  end
              end
          end
      end
  end.

End WithWorld.
End DirectPage.

(* ================================================================== *)
(** * app/api/transcript/route.ts : the handler and its retry loop *)
(* ================================================================== *)

Module Route.
Import DirectPage.

Definition maxRetries : nat := 5.

(** Line 47: the delay before every attempt but the first. *)
Definition progressive_delay (attempt : nat) : Z :=
  Z.min (2000 * (Z.of_nat attempt - 1)) 10000.

(** Line 130: after a blocking or rate-limit error. *)
Definition blocking_delay (attempt : nat) : Z :=
  Z.min (3000 * 2 ^ (Z.of_nat attempt - 1)) 15000.

(** Line 138: after any other error. *)
Definition generic_delay (attempt : nat) : Z :=
  Z.min (1000 * 2 ^ (Z.of_nat attempt - 1)) 5000.

Definition status_is (e : jsError) (n : Z) : bool :=
  match status e with
  | Some s => (s =? n)%Z
  | None => false
  end.

(** Lines 115-126 *)
Definition isBlockingError (e : jsError) : bool :=
  let errorMsg := toLowerCase (message e) in
  let errorStack := toLowerCase (stack e) in
  includes errorMsg (u "429")
  || includes errorMsg (u "rate limit")
  || includes errorMsg (u "too many requests")
  || includes errorMsg (u "blocked")
  || includes errorMsg (u "forbidden")
  || includes errorStack (u "429")
  || includes errorStack (u "too many requests")
  || status_is e 429
  || status_is e 403.

(** Line 103: [new Error(`Invalid transcript data format: ${typeof ...}`)] *)
Definition invalidFormatError (typeof err_stack : jsstring) : jsError :=
  mkError (u "Invalid transcript data format: " ++ typeof) (u "Error") err_stack None.

(** Line 151 *)
Definition retriesFailedError : jsError :=
  mkError (u "Failed to fetch transcript after retries") (u "Error") [] None.

(** How the [for] loop of lines 43-148 is left. *)
Inductive loopExit :=
| Broke (transcriptData : list rawItem)
| Threw (e : jsError)
| Finished (lastError : option jsError).

(** The police-light emoji U+1F6A8 as two code units. *)
Definition siren : jsstring := [55357; 57000].

Definition any_includes (s : jsstring) (l : list string) : bool :=
  existsb (fun p => includes s (u p)) l.

(** Lines 247-333: the response for an error thrown by the strategy. *)
Definition errorResponse (e : jsError) : response :=
  let errorMessage := message e in
  let errorMessageLower := toLowerCase errorMessage in
  let errorName := toLowerCase (name e) in
  if any_includes errorMessageLower
       ["transcript is disabled"; "could not retrieve a transcript";
        "no transcript found"; "transcript not available";
        "unable to retrieve transcript"; "no transcripts are available"]%string
     || includes errorMessage siren
     || includes errorMessage (u "No transcripts are available")
  then JsonError 404 NoTranscriptAvailable
  else if any_includes errorMessage
       ["invalid video id"; "video not found"; "video does not exist"]%string
  then JsonError 400 InvalidIdOrNotFound
  else if any_includes errorMessage
       ["rate limit"; "too many requests"; "429"; "403"; "forbidden";
        "blocked"; "access denied"]%string
     || includes errorName (u "fetch")
     || status_is e 429 || status_is e 403
  then JsonError 429 RateLimited
  else JsonError 500 GenericFailure.

(** [a || b] on optional numbers, and the final [|| 0]. *)
Definition opt_truthy (a : option num) : option num :=
  match a with
  | Some v => if truthy v then Some v else None
  | None => None
  end.

Definition first_truthy (l : list (option num)) : num :=
  match flat_map (fun a => match opt_truthy a with Some v => [v] | None => [] end) l with
  | v :: _ => v
  | [] => zero
  end.

(** Lines 214-232: the transformation of a strategy's items. *)
Definition transform (item : rawItem) : TranscriptItem :=
  mkItem (match r_text item with Some t => t | None => [] end)
         (first_truthy [r_duration item; r_dur item])
         (first_truthy [r_offset item; r_start item; r_startTime item]).

(** The objects pushed by [parseTranscriptXml], seen as [any]. *)
Definition asRaw (it : TranscriptItem) : rawItem :=
  mkRaw (Some (text it)) (Some (duration it)) None (Some (offset it)) None None.

Section WithWorld.
Variable w : World.
Variables videoId lang : jsstring.

(** The loop [for (attempt = 1; attempt <= maxRetries; attempt++)];
    [remaining] is the number of iterations left. *)
Fixpoint retryLoop (remaining attempt : nat) (lastError : option jsError)
  (tr : trace) : loopExit * trace :=
  match remaining with
  | O => (Finished lastError, tr)
  | S remaining' =>
      let tr := if (1 <? attempt)%nat then tr ++ [Sleep (progressive_delay attempt)]
                else tr in
      let tr := tr ++ [CallLibrary videoId lang] in
      let catch (error : jsError) :=
        if (attempt <? maxRetries)%nat then
          if isBlockingError error
          then retryLoop remaining' (S attempt) (Some error)
                 (tr ++ [Sleep (blocking_delay attempt)])
          else retryLoop remaining' (S attempt) (Some error)
                 (tr ++ [Sleep (generic_delay attempt)])
        else (Threw error, tr) in
      match library w attempt with
      | LibArray items => (Broke items, tr)
      | LibOther typeof err_stack => catch (invalidFormatError typeof err_stack)
      | LibThrow e => catch e
      end
  end.

(** Lines 28-246: the body of the handler once [videoId] has passed the
    validation. *)
Definition GET_valid : response * trace :=
  match retryLoop maxRetries 1 None [] with
  | (Threw e, tr) => (errorResponse e, tr)
  | (Finished lastError, tr) =>
      (errorResponse (match lastError with Some e => e | None => retriesFailedError end), tr)
  | (Broke [], tr) =>
      match fetchTranscriptDirectly w videoId lang tr with
      | (inr ((_ :: _) as fallbackTranscript), tr') =>
          (Json200 videoId (map transform (map asRaw fallbackTranscript)), tr')
      | (_, tr') => (JsonError 404 NoTranscriptInLanguage, tr')
      end
  | (Broke transcriptData, tr) =>
      (Json200 videoId (map transform transcriptData), tr)
  end.

End WithWorld.

(** The handler: [videoId] and [lang] are the query parameters, [None]
    when absent. *)
Definition GET (w : World) (videoId lang : option jsstring) : response * trace :=
  match videoId with
  | None | Some [] => (JsonError 400 VideoIdRequired, [])
  | Some v =>
      if negb (length v =? 11)%nat then (JsonError 400 InvalidVideoId, [])
      else GET_valid w v (lang_or_default lang)
  end.

End Route.

(* ================================================================== *)
(** * The yt-dlp backed handler: segment-JSON and VTT-like parsers *)
(* ================================================================== *)

Module YtDlp.

(** ** Segment-JSON (lines 95-105) *)

(** [e.segs && e.segs.length > 0] *)
Definition hasSegs (e : json3Event) : bool :=
  match segs e with
  | Some (_ :: _) => true
  | _ => false
  end.

(** A property that is a number or absent, read as a number. *)
Definition toNumber (a : option Q) : num :=
  match a with
  | Some q => Fin q
  | None => NaN
  end.

(** [e.segs.map(s => s.utf8).join('')]; [join] writes nothing for an
    absent element. *)
Definition segText (e : json3Event) : jsstring :=
  join [] (map (fun s => match utf8 s with Some t => t | None => [] end)
               (match segs e with Some l => l | None => [] end)).

Definition eventItem (e : json3Event) : TranscriptItem :=
  mkItem (segText e)
         (or_else (div (toNumber (dDurationMs e)) (of_Z 1000)) zero)
         (or_else (div (toNumber (tStartMs e)) (of_Z 1000)) zero).

Definition parseJson3 (json : json3) : list TranscriptItem :=
  match events json with
  | Some evs => map eventItem (filter hasSegs evs)
  | None => []
  end.

(** ** VTT-like cue text (lines 110-127 and [parseVttTime]) *)

(** [timeStr] is [None] for [undefined]. *)
Definition parseVttTime (timeStr : option jsstring) : num :=
  match timeStr with
  | None | Some [] => zero
  | Some t =>
      match split (trim t) (u ":") with
      | [p0; p1; p2] =>
          add (add (add zero (mul (parseFloat p0) (of_Z 3600)))
                   (mul (parseFloat p1) (of_Z 60)))
              (parseFloat p2)
      | [p0; p1] =>
          add (add zero (mul (parseFloat p0) (of_Z 60))) (parseFloat p1)
      | _ => zero
      end
  end.

(** The loop state: the array [transcript] and [currentSegment], which is
    either [null] or an alias of one element of the array, kept as its
    index. *)
Record vttState := mkVtt {
  transcript : list TranscriptItem;
  currentSegment : option nat
}.

Fixpoint update_at (i : nat) (f : TranscriptItem -> TranscriptItem)
  (l : list TranscriptItem) : list TranscriptItem :=
  match l, i with
  | [], _ => []
  | x :: l', O => f x :: l'
  | x :: l', S i' => x :: update_at i' f l'
  end.

Definition isCueLine (line : jsstring) : bool := includes line (u "-->").

(** [const [start, end] = line.split(' --> ')] *)
Definition cueTimes (line : jsstring) : option jsstring * option jsstring :=
  let parts := split line (u " --> ") in
  (nth_error parts 0, nth_error parts 1).

Definition newCue (line : jsstring) : TranscriptItem :=
  let (start, end_) := cueTimes line in
  mkItem [] (sub (parseVttTime end_) (parseVttTime start)) (parseVttTime start).

(** [currentSegment.text += (currentSegment.text ? ' ' : '') + line.trim()] *)
Definition appendText (line : jsstring) (seg : TranscriptItem) : TranscriptItem :=
  mkItem (text seg ++ (match text seg with [] => [] | _ => u " " end) ++ trim line)
         (duration seg) (offset seg).

Definition vttStep (st : vttState) (line : jsstring) : vttState :=
  if isCueLine line then
    mkVtt (transcript st ++ [newCue line]) (Some (length (transcript st)))
  else
    match currentSegment st with
    | Some i =>
        match trim line with
        | [] => st
        | _ =>
            if negb (startsWith line (u "NOTE")) && negb (startsWith line (u "WEBVTT"))
            then mkVtt (update_at i (appendText line) (transcript st)) (Some i)
            else st
        end
    | None => st
    end.

Definition parseVtt (text : jsstring) : list TranscriptItem :=
  transcript (fold_left vttStep (split text (u (String "010"%char EmptyString))) (mkVtt [] None)).

(** ** The handler *)

(** [obj?.[key]] on an object given by its entries *)
Fixpoint lookup {A} (key : jsstring) (o : list (jsstring * A)) : option A :=
  match o with
  | [] => None
  | (k, v) :: o' => if JsString.eqb k key then Some v else lookup key o'
  end.

Definition entries {A} (o : option (list (jsstring * A))) : list (jsstring * A) :=
  match o with Some l => l | None => [] end.

Fixpoint set_key {A} (key : jsstring) (v : A) (o : list (jsstring * A))
  : list (jsstring * A) :=
  match o with
  | [] => [(key, v)]
  | (k, x) :: o' =>
      if JsString.eqb k key then (k, v) :: o' else (k, x) :: set_key key v o'
  end.

(** [{ ...a, ...b }]: the keys of [a] keep their place, those of [b]
    overwrite or are added at the end. *)
Definition spread {A} (a b : list (jsstring * A)) : list (jsstring * A) :=
  fold_left (fun acc kv => set_key (fst kv) (snd kv) acc) b a.

(** Lines 52-63: the formats for the requested language, or for the first
    language whose code starts with it. *)
Definition selectSubtitles (output : toolOutput) (lang : jsstring)
  : option (list subTrack) :=
  match lookup lang (entries (subtitles output)) with
  | Some s => Some s
  | None =>
      match lookup lang (entries (automatic_captions output)) with
      | Some s => Some s
      | None =>
          let allSubs := spread (entries (subtitles output))
                                (entries (automatic_captions output)) in
          match find (fun l => startsWith l lang) (map fst allSubs) with
          | Some ((_ :: _) as m) => lookup m allSubs
          | _ => None
          end
      end
  end.

Definition ext_is (e : string) (s : subTrack) : bool :=
  match ext s with
  | Some x => JsString.eqb x (u e)
  | None => false
  end.

(** Line 77 *)
Definition selectTrack (subs : list subTrack) : option subTrack :=
  match find (ext_is "json3") subs with
  | Some s => Some s
  | None =>
      match find (ext_is "vtt") subs with
      | Some s => Some s
      | None => nth_error subs 0
      end
  end.

Definition GET (w : World) (videoId lang : option jsstring) : response * trace :=
  let lang := lang_or_default lang in
  match videoId with
  | None | Some [] => (JsonError 400 VideoIdRequired, [])
  | Some v =>
      if negb (length v =? 11)%nat then (JsonError 400 InvalidVideoId, []) else
      let target := DirectPage.watchUrl v in
      let tr := [CallTool target] in
      match youtubedl w target with
      | ToolThrow _ => (JsonError 500 ToolFailure, tr)
      | ToolOutput output =>
          match selectSubtitles output lang with
          | None => (JsonError 404 NoSubtitlesForLanguage, tr)
          | Some subs =>
              match selectTrack subs with
              | None => (JsonError 500 NoSubtitleUrl, tr)
              | Some subTrack =>
                  match url subTrack with
                  | None | Some [] => (JsonError 500 NoSubtitleUrl, tr)
                  | Some target =>
                      let tr := tr ++ [Fetch target] in
                      match fetch w target with
                      | NetworkError _ => (JsonError 500 ToolFailure, tr)
                      | Response st body =>
                          if negb (response_ok st) then (JsonError 500 ToolFailure, tr)
                          else if ext_is "json3" subTrack then
                            match parse_json3 w body with
                            | Some json => (Json200 v (parseJson3 json), tr)
                            | None => (JsonError 500 ToolFailure, tr)
                            end
                          else (Json200 v (parseVtt body), tr)
                      end
                  end
              end
          end
      end
  end.

End YtDlp.

(* ================================================================== *)
(** * lib/format.ts *)
(* ================================================================== *)

Module Format.

(** [transcript.map(item => item.text).join(' ')] *)
Definition formatAsText (transcript : list TranscriptItem) : jsstring :=
  join (u " ") (map text transcript).

End Format.

(* ================================================================== *)
(** * Vocabulary of the statements *)
(* ================================================================== *)

Module Spec.
Import Utils CueXml DirectPage Route YtDlp.

(** A well-formed video identifier. *)
Definition well_formed_id (id : jsstring) : Prop :=
  length id = 11%nat /\ forallb id_char id = true.

(** The text fragments of an event, none when [segs] is absent. *)
Definition fragments (e : json3Event) : list jsstring :=
  match segs e with
  | Some l => map (fun s => match utf8 s with Some t => t | None => [] end) l
  | None => []
  end.

Definition has_fragments (e : json3Event) : bool :=
  match fragments e with [] => false | _ => true end.

Definition all_events (json : json3) : list json3Event :=
  match events json with Some evs => evs | None => [] end.

(** What the specification asks of the segment emitted for an event. *)
Definition segment_for (e : json3Event) (it : TranscriptItem) : Prop :=
  text it = concat (fragments e)
  /\ (forall t, tStartMs e = Some t -> offset it = Fin (Qred (t / 1000)))
  /\ (forall d, dDurationMs e = Some d -> duration it = Fin (Qred (d / 1000)))
  /\ (dDurationMs e = None -> duration it = Fin 0).


Definition cueTiming (line : jsstring) : num * num :=
  let (start, end_) := cueTimes line in
  (parseVttTime start, sub (parseVttTime end_) (parseVttTime start)).

Definition lines (text : jsstring) : list jsstring := split text [10].

(** A cue text as the upstream writes it: plain characters, the six named
    entities and numeric character references [&#NNN;]; what is written
    for each and the character it stands for. *)
Inductive entity := EAmp | ELt | EGt | EQuot | EApos | ENbsp.

Definition entity_text (e : entity) : jsstring :=
  match e with
  | EAmp => u "&amp;"
  | ELt => u "&lt;"
  | EGt => u "&gt;"
  | EQuot => u "&quot;"
  | EApos => u "&#39;"
  | ENbsp => u "&nbsp;"
  end.

Definition entity_char (e : entity) : char :=
  match e with
  | EAmp => 38
  | ELt => 60
  | EGt => 62
  | EQuot => dq
  | EApos => 39
  | ENbsp => 32
  end.

Inductive piece :=
| Chr (c : char)
| Ent (e : entity)
| Ref (digits : jsstring).

Definition written (p : piece) : jsstring :=
  match p with
  | Chr c => [c]
  | Ent e => entity_text e
  | Ref ds => u "&#" ++ ds ++ u ";"
  end.

Definition decoded (p : piece) : char :=
  match p with
  | Chr c => c
  | Ent e => entity_char e
  | Ref ds => fromCharCode (digits_value ds)
  end.

Definition render (ps : list piece) : jsstring := flat_map written ps.

Definition plain (s : string) : list piece := map Chr (u s).

(** The text [ Q&amp;A: 1 &lt; 2 &gt; 0, it&#39;s&nbsp;&#8364;5 &amp;&amp; &amp;amp; ]
    and what it stands for once trimmed. *)
Definition sampleText : list piece :=
  plain " Q" ++ [Ent EAmp] ++ plain "A: 1 " ++ [Ent ELt] ++ plain " 2 "
  ++ [Ent EGt] ++ plain " 0, it" ++ [Ref (u "39")] ++ plain "s"
  ++ [Ent ENbsp; Ref (u "8364")] ++ plain "5 " ++ [Ent EAmp; Ent EAmp]
  ++ plain " " ++ [Ent EAmp] ++ plain "amp; ".

Definition sampleDecoded : jsstring :=
  u "Q&A: 1 < 2 > 0, it's " ++ [8364] ++ u "5 && &amp;".

(** A plain character is neither [&] nor [<]; a numeric reference has one
    to fifteen decimal digits (a value that a double holds exactly). *)
Definition well_written (p : piece) : bool :=
  match p with
  | Chr c => negb (c =? 38) && negb (c =? 60)
  | Ent _ => true
  | Ref ds =>
      match ds with
      | [] => false
      | _ => forallb is_digit ds && (length ds <=? 15)%nat
      end
  end.

(** The text [s] completes an entity when it follows an [&]: it starts
    with the rest of a named entity, or with [#], digits and [;]. *)
Definition numeric_tail (s : jsstring) : bool :=
  match s with
  | c :: d :: s' =>
      (c =? 35) && is_digit d && startsWith (dropWhile is_digit s') (u ";")
  | _ => false
  end.

Definition completes_entity (s : jsstring) : bool :=
  existsb (startsWith s) [u "lt;"; u "gt;"; u "quot;"; u "#39;"; u "nbsp;"]
  || numeric_tail s.

(** No [&amp;] of the text is followed by what completes an entity. *)
Fixpoint decoded_once (ps : list piece) : bool :=
  match ps with
  | [] => true
  | p :: ps' =>
      match p with
      | Ent EAmp => negb (completes_entity (render ps'))
      | _ => true
      end && decoded_once ps'
  end.

(** What follows the [&] in the pattern of each named pass, in code
    units, and what the six named passes leave of a piece: the reference
    [&#39;] is decoded by them, every other reference is left to the
    numeric pass. *)
Definition amp_tail : jsstring := [97; 109; 112; 59].
Definition lt_tail : jsstring := [108; 116; 59].
Definition gt_tail : jsstring := [103; 116; 59].
Definition quot_tail : jsstring := [113; 117; 111; 116; 59].
Definition apos_tail : jsstring := [35; 51; 57; 59].
Definition nbsp_tail : jsstring := [110; 98; 115; 112; 59].

Definition after_named (p : piece) : jsstring :=
  match p with
  | Chr c => [c]
  | Ent e => [entity_char e]
  | Ref ds => if JsString.eqb ds (u "39") then [39] else written (Ref ds)
  end.

(** A cue element [<text start=Q s Q dur=Q d Q>body</text>]. *)
Definition cue (s d : string) (body : jsstring) : jsstring :=
  u "<text start=" ++ [dq] ++ u s ++ [dq] ++ u " dur=" ++ [dq] ++ u d ++ [dq]
  ++ u ">" ++ body ++ u "</text>".

(** The error caught at an attempt of the retry loop, when it fails. *)
Definition failure_at (w : World) (k : nat) : option jsError :=
  match library w k with
  | LibArray _ => None
  | LibOther typeof err_stack => Some (invalidFormatError typeof err_stack)
  | LibThrow e => Some e
  end.

(** The delay that follows an error at an attempt that is not the last. *)
Definition backoff (e : jsError) (attempt : nat) : Z :=
  if isBlockingError e then blocking_delay attempt else generic_delay attempt.

(** What an attempt does before its outcome is known, and what a failed
    attempt that is retried does in all. *)
Definition attempt_events (videoId lang : jsstring) (k : nat) : trace :=
  (if (1 <? k)%nat then [Sleep (progressive_delay k)] else [])
  ++ [CallLibrary videoId lang].

Definition failed_attempt_events (w : World) (videoId lang : jsstring) (k : nat)
  : trace :=
  attempt_events videoId lang k
  ++ match failure_at w k with
     | Some e => [Sleep (backoff e k)]
     | None => []
     end.

(** The handler's transformation on a segment of the fallback: a field
    that is [NaN] becomes 0. *)
Definition settle (it : TranscriptItem) : TranscriptItem :=
  mkItem (text it) (or_else (duration it) zero) (or_else (offset it) zero).

(** Sample worlds: no yt-dlp, a [URL] class that leaves addresses alone. *)
Definition toolMissing : jsError := mkError (u "spawn yt-dlp ENOENT") (u "Error") [] None.

Definition sampleWorld (lib : nat -> libOutcome) (net : jsstring -> fetchResult)
  (tracks : jsstring -> option (list captionTrack)) : World :=
  mkWorld lib net tracks jsstring (fun s => Some s) (fun _ _ => true)
          (fun x _ _ => x) (fun x => x) (fun _ => ToolThrow toolMissing)
          (fun _ => None).

Definition offline : jsstring -> fetchResult :=
  fun _ => NetworkError (mkError (u "fetch failed") (u "TypeError") [] None).

Definition tooManyRequests : jsError :=
  mkError (u "Request failed with status code 429") (u "Error") [] (Some 429%Z).

Definition captionsDisabled : jsError :=
  mkError (u "Transcript is disabled on this video") (u "Error") [] None.

Definition hello : rawItem :=
  mkRaw (Some (u "hello")) (Some (Fin 2)) None (Some (Fin (1 # 2))) None None.

(** Rate limited twice, then served. *)
Definition rateLimitedTwice : World :=
  sampleWorld (fun k => match k with
                        | 1%nat | 2%nat => LibThrow tooManyRequests
                        | _ => LibArray [hello]
                        end) offline (fun _ => None).

(** Captions disabled: the library throws the same error at every attempt. *)
Definition disabledWorld : World :=
  sampleWorld (fun _ => LibThrow captionsDisabled) offline (fun _ => None).

(** The library answers at once. *)
Definition servedWorld : World :=
  sampleWorld (fun _ => LibArray [hello]) offline (fun _ => None).

(** A page that offers one caption track, in American English, and the
    document behind it. *)
Definition zooId : jsstring := u "jNQXAC9IVRw".

Definition timedtextUrl : jsstring :=
  u "https://www.youtube.com/api/timedtext?v=jNQXAC9IVRw&lang=en-US&fmt=3".

Definition enUSTracksJson : jsstring :=
  u "[{" ++ [dq] ++ u "baseUrl" ++ [dq] ++ u ":" ++ [dq] ++ timedtextUrl ++ [dq]
  ++ u "," ++ [dq] ++ u "languageCode" ++ [dq] ++ u ":" ++ [dq] ++ u "en-US" ++ [dq]
  ++ u "}]".

Definition enUSPage : jsstring :=
  u "<html>var ytInitialPlayerResponse = {" ++ captionTracksKey ++ enUSTracksJson
  ++ u "};</html>".

Definition enUSTracks : list captionTrack :=
  [mkTrack (Some (u "en-US")) (Some timedtextUrl)].

Definition enUSNet (target : jsstring) : fetchResult :=
  if JsString.eqb target (watchUrl zooId) then Response 200 enUSPage
  else if JsString.eqb target timedtextUrl
       then Response 200 (cue "0" "1.5" (u "All right, so here we are"))
       else offline target.

(** The library silently returns nothing; the page offers [en-US] only. *)
Definition enUSWorld : World :=
  sampleWorld (fun _ => LibArray []) enUSNet
    (fun s => if JsString.eqb s enUSTracksJson then Some enUSTracks else None).

(** The same page, behind which the document has a cue whose [start] is
    not a number. *)
Definition nanNet (target : jsstring) : fetchResult :=
  if JsString.eqb target (watchUrl zooId) then Response 200 enUSPage
  else if JsString.eqb target timedtextUrl
       then Response 200 (cue "abc" "1.5" (u "All right, so here we are"))
       else offline target.

Definition nanWorld : World :=
  sampleWorld (fun _ => LibArray []) nanNet
    (fun s => if JsString.eqb s enUSTracksJson then Some enUSTracks else None).

(** yt-dlp's listing for the same video. *)
Definition enUSListing : toolOutput :=
  mkOutput (Some [(u "en-US", [mkSub (Some (u "vtt")) (Some timedtextUrl)])]) None.

(** yt-dlp offers a [json3] file for [en]; the file has no events. *)
Definition json3Url : jsstring :=
  u "https://www.youtube.com/api/timedtext?v=jNQXAC9IVRw&lang=en&fmt=json3".

Definition noEventsWorld : World :=
  mkWorld (fun _ => LibArray []) (fun _ => Response 200 (u "{}")) (fun _ => None)
          jsstring (fun s => Some s) (fun _ _ => true) (fun x _ _ => x) (fun x => x)
          (fun _ => ToolOutput
                      (mkOutput (Some [(u "en", [mkSub (Some (u "json3")) (Some json3Url)])])
                                None))
          (fun _ => Some (mkJson3 None)).

(** Sample documents. *)
Definition xml1 : jsstring :=
  u "<transcript><text start=" ++ [dq] ++ u "0.5" ++ [dq] ++ u " dur=" ++ [dq]
  ++ u "2" ++ [dq] ++ u ">Tom &amp; Jerry &#65;</text><text start=" ++ [dq] ++ u "3" ++ [dq]
  ++ u " dur=" ++ [dq] ++ u "1.25" ++ [dq] ++ u ">  </text></transcript>".

Definition xml3 : jsstring :=
  u "<text dur=" ++ [dq] ++ u "9" ++ [dq] ++ u " start=" ++ [dq] ++ u "1" ++ [dq] ++ u " dur=" ++ [dq]
  ++ u "2" ++ [dq] ++ u "><![CDATA[a<b]]></text>".

Definition nl : jsstring := [10].

(** [res] is the first alternative of the matcher, the one the engine
    takes. *)
Definition first_match (r : re) (s : jsstring) (res : Regex.result) : Prop :=
  exists l, rmatch r s = res :: l.

(** A sequence of patterns matched one after the other, each by its first
    alternative. *)
Inductive chain : list re -> jsstring -> list jsstring -> jsstring -> jsstring -> Prop :=
| chain_one r s c m t :
    first_match r s (c, m, t) -> chain [r] s c m t
| chain_cons r l s c1 m1 r1 c2 m2 t :
    first_match r s (c1, m1, r1) -> chain l r1 c2 m2 t ->
    chain (r :: l) s (c1 ++ c2) (m1 ++ m2) t.

(** A cue element as the upstream writes it, with the attributes [start]
    and [dur] in this order. *)
Record cueElement := mkCue {
  cueStart : jsstring;
  cueDur : jsstring;
  cueBody : jsstring
}.

Definition renderCue (c : cueElement) : jsstring :=
  u "<text start=" ++ [dq] ++ cueStart c ++ [dq] ++ u " dur=" ++ [dq]
  ++ cueDur c ++ [dq] ++ u ">" ++ cueBody c ++ u "</text>".

End Spec.
Import Spec.

(* ================================================================== *)
(** * Vocabulary of the further statements *)
(* ================================================================== *)

Module SpecMore.
Import Utils CueXml DirectPage Route YtDlp.

(** The three address shapes that [extractVideoId] recognises. *)
Definition watchAddress (id rest : jsstring) : jsstring :=
  u "https://www.youtube.com/watch?v=" ++ id ++ rest.
Definition shortAddress (id rest : jsstring) : jsstring :=
  u "https://youtu.be/" ++ id ++ rest.
Definition embedAddress (id rest : jsstring) : jsstring :=
  u "https://www.youtube.com/embed/" ++ id ++ rest.

Definition all_space (s : jsstring) : bool := forallb is_space s.

(** The escape sequence backslash-u0026 that stands for [&] in an embedded
    address. *)
Definition escapedAmp : jsstring := bs :: u "u0026".

(** The time spent suspended along a trace, in milliseconds. *)
Definition total_sleep (tr : trace) : Z := fold_right Z.add 0%Z (sleeps tr).

(** The trace of a run of the retry loop with [n] retried failures. *)
Definition loop_trace (w : World) (videoId lang : jsstring) (n : nat) : trace :=
  flat_map (failed_attempt_events w videoId lang) (seq 1 n)
  ++ attempt_events videoId lang (S n).

Definition http_status (r : response) : Z :=
  match r with
  | Json200 _ _ => 200
  | JsonError st _ => st
  end.

(** A VTT-like document seen as blocks: a cue line and the lines that
    follow it up to the next cue line.  A line of a block counts as text
    when it is not blank and starts with neither [NOTE] nor [WEBVTT]. *)
Definition isTextLine (line : jsstring) : bool :=
  match trim line with
  | [] => false
  | _ => negb (startsWith line (u "NOTE")) && negb (startsWith line (u "WEBVTT"))
  end.

Definition blockLines (b : jsstring * list jsstring) : list jsstring :=
  fst b :: snd b.

Definition blockItem (b : jsstring * list jsstring) : TranscriptItem :=
  mkItem (join (u " ") (map trim (filter isTextLine (snd b))))
         (snd (cueTiming (fst b))) (fst (cueTiming (fst b))).

Definition wellFormedBlock (b : jsstring * list jsstring) : Prop :=
  isCueLine (fst b) = true /\ Forall (fun l => isCueLine l = false) (snd b).

(** What one more line of a block does to the segment of the block, and
    the text accumulated from a list of trimmed lines. *)
Definition addLine (it : TranscriptItem) (line : jsstring) : TranscriptItem :=
  if isTextLine line then appendText line it else it.

Fixpoint glue (t : jsstring) (xs : list jsstring) : jsstring :=
  match xs with
  | [] => t
  | x :: xs' => glue (t ++ (match t with [] => [] | _ => u " " end) ++ x) xs'
  end.


(** A cue element in the standard format: attribute values that are not
    empty and have no double quote, a body without [<].  The segments that
    it yields: one with the decoded body, none when that text is empty. *)
Definition wellFormedCue (c : cueElement) : Prop :=
  cueStart c <> [] /\ ~ In dq (cueStart c)
  /\ cueDur c <> [] /\ ~ In dq (cueDur c)
  /\ ~ In 60 (cueBody c).

Definition cueSegments (c : cueElement) : list TranscriptItem :=
  match decodeText (cueBody c) with
  | [] => []
  | t => [mkItem t (parseFloat (cueDur c)) (parseFloat (cueStart c))]
  end.

(** A plain cue element has a body that is not empty, has no [&] and no
    white space around it; it stands for the segment with that text. *)
Definition plainCue (c : cueElement) : Prop :=
  wellFormedCue c
  /\ cueBody c <> [] /\ ~ In 38 (cueBody c) /\ trim (cueBody c) = cueBody c.

Definition cueSegment (c : cueElement) : TranscriptItem :=
  mkItem (cueBody c) (parseFloat (cueDur c)) (parseFloat (cueStart c)).

(** A document: cue elements, each preceded by a gap in which no cue
    element starts, and a tail. *)
Definition renderDocument (cues : list (jsstring * cueElement)) (tail : jsstring)
  : jsstring :=
  concat (map (fun gc => fst gc ++ renderCue (snd gc)) cues) ++ tail.

Definition gapped (gc : jsstring * cueElement) : Prop :=
  includes (fst gc) (u "<text") = false.

(** A document with a header, two cue elements and a closing tag. *)
Definition sampleDocument : list (jsstring * cueElement) :=
  [(u "<?xml version='1.0'?><transcript>",
    mkCue (u "0.5") (u "2") (u "Tom &amp; Jerry"));
   (u "<", mkCue (u "3") (u "1.25") (u "  "));
   ([10], mkCue (u "4.25") (u "1") (u "Hello"))].

(** A document of two plain cue elements. *)
Definition plainDocument : list (jsstring * cueElement) :=
  [(u "<?xml version='1.0'?><transcript>",
    mkCue (u "0.5") (u "2") (u "Tom and Jerry"));
   ([10], mkCue (u "4.25") (u "1") (u "Hello"))].


End SpecMore.
Import SpecMore.

(* ================================================================== *)
(** * Sanity checks of the embedding on concrete inputs *)
(* ================================================================== *)

Module UtilsTests.
Import Utils.
Example extract_watch :
  extractVideoId (u "  https://www.youtube.com/watch?v=jNQXAC9IVRw&t=3 ")
  = Some (u "jNQXAC9IVRw").
Proof. vm_compute. reflexivity. Qed.
Example extract_short :
  extractVideoId (u "https://youtu.be/dQw4w9WgXcQ") = Some (u "dQw4w9WgXcQ").
Proof. vm_compute. reflexivity. Qed.
Example extract_too_short :
  extractVideoId (u "https://youtu.be/dQw4w9WgXc") = None.
Proof. vm_compute. reflexivity. Qed.
Example parseFloat_ex1 : parseFloat (u " 03.500xyz") = Fin (7 # 2).
Proof. vm_compute. reflexivity. Qed.
Example parseFloat_ex2 : parseFloat (u "-1.5e2") = Fin (-150 # 1).
Proof. vm_compute. reflexivity. Qed.
Example parseFloat_ex3 : parseFloat (u "abc") = NaN.
Proof. vm_compute. reflexivity. Qed.
Example parseFloat_ex4 : parseFloat (u ".5") = Fin (1 # 2).
Proof. vm_compute. reflexivity. Qed.
Example parseFloat_ex5 : parseFloat (u "1e") = Fin 1.
Proof. vm_compute. reflexivity. Qed.
Example split_ex : split (u "a --> b --> c") (u " --> ") = [u "a"; u "b"; u "c"].
Proof. vm_compute. reflexivity. Qed.
Example trim_ex : trim (u "  a b  ") = u "a b".
Proof. vm_compute. reflexivity. Qed.
Example replaceAll_ex : replaceAll (u "&amp;") (u "&") (u "a&amp;amp;b&amp;") = u "a&amp;b&".
Proof. vm_compute. reflexivity. Qed.
End UtilsTests.

Module CueXmlTests.
Import CueXml.
Example xml1_parsed :
  parseTranscriptXml xml1 = [mkItem (u "Tom & Jerry A") (Fin 2) (Fin (1 # 2))].
Proof. vm_compute. reflexivity. Qed.
Example xml3_parsed :
  parseTranscriptXml xml3 = [mkItem (u "a<b") (Fin 2) (Fin 1)].
Proof. vm_compute. reflexivity. Qed.
End CueXmlTests.

Module YtDlpTests.
Import YtDlp.
Example vtt_basic :
  parseVtt (u "WEBVTT" ++ nl ++ nl ++ u "00:01.000 --> 00:03.500" ++ nl
            ++ u "Hello" ++ nl ++ u " world " ++ nl ++ nl
            ++ u "01:00:02.000 --> 01:00:04.000" ++ nl ++ u "again")
  = [mkItem (u "Hello world") (Fin (5 # 2)) (Fin 1);
     mkItem (u "again") (Fin 2) (Fin 3602)].
Proof. vm_compute. reflexivity. Qed.
Example json3_basic :
  parseJson3 (mkJson3 (Some [mkEvent None (Some 0%Q) None;
                             mkEvent (Some [mkSeg (Some (u "ab")); mkSeg (Some (u "cd"))])
                                     (Some (1500 # 1)) (Some (250 # 1));
                             mkEvent (Some []) (Some 3%Q) (Some 4%Q);
                             mkEvent (Some [mkSeg None]) None None]))
  = [mkItem (u "abcd") (Fin (1 # 4)) (Fin (3 # 2)); mkItem [] (Fin 0) (Fin 0)].
Proof. vm_compute. reflexivity. Qed.
End YtDlpTests.

(* ================================================================== *)
(** * Facts about strings *)
(* ================================================================== *)

Module StringFacts.

Lemma strip_prefix_spec p : forall s rest,
  strip_prefix p s = Some rest <-> s = p ++ rest.
Proof.
  induction p as [|x p IH]; intros s rest; simpl.
  - split; [now intros [= ->] | now intros ->].
  - destruct s as [|y s]; [split; discriminate|].
    destruct (N.eqb_spec x y) as [->|Hne].
    + rewrite IH. split; [now intros -> | now intros [= ->]].
    + split; [discriminate | intros [= -> _]; now elim Hne].
Qed.

Lemma strip_prefix_length p s rest :
  strip_prefix p s = Some rest -> length s = (length p + length rest)%nat.
Proof. intros H. apply strip_prefix_spec in H. subst. apply length_app. Qed.

Lemma includes_unfold s p :
  includes s p = startsWith s p || match s with [] => false | _ :: s' => includes s' p end.
Proof. destruct s; reflexivity. Qed.

(** [includes] decides [occurs]. *)
Lemma includes_occurs s p : includes s p = true <-> occurs p s.
Proof.
  split.
  - induction s as [|c s IH]; rewrite includes_unfold; unfold startsWith;
      intros H; apply orb_true_iff in H; destruct H as [H|H].
    + destruct (strip_prefix p []) as [r|] eqn:E; [|discriminate].
      apply strip_prefix_spec in E. now exists [], r.
    + discriminate.
    + destruct (strip_prefix p (c :: s)) as [r|] eqn:E; [|discriminate].
      apply strip_prefix_spec in E. now exists [], r.
    + destruct (IH H) as (a & b & ->). now exists (c :: a), b.
  - intros (a & b & ->). induction a as [|c a IH].
    + rewrite includes_unfold. unfold startsWith. simpl.
      destruct (strip_prefix p (p ++ b)) eqn:E; [reflexivity|].
      assert (H : strip_prefix p (p ++ b) = Some b) by now apply strip_prefix_spec.
      congruence.
    + rewrite includes_unfold. simpl. rewrite IH. apply orb_true_r.
Qed.

Lemma occurs_infix p a s b : occurs p s -> occurs p (a ++ s ++ b).
Proof.
  intros (x & y & ->). exists (a ++ x), (y ++ b).
  now rewrite <- !app_assoc.
Qed.

Lemma excludes_infix p a s b :
  includes (a ++ s ++ b) p = false -> includes s p = false.
Proof.
  intros H. destruct (includes s p) eqn:E; [|reflexivity].
  apply includes_occurs in E. apply (occurs_infix p a s b) in E.
  apply includes_occurs in E. congruence.
Qed.

Lemma excludes_suffix p a s : includes (a ++ s) p = false -> includes s p = false.
Proof. intros H. apply (excludes_infix p a s []). now rewrite app_nil_r. Qed.

Lemma excludes_prefix p s b : includes (s ++ b) p = false -> includes s p = false.
Proof. apply (excludes_infix p [] s b). Qed.

(** ** [trim] *)

Lemma dropWhile_suffix f s : exists a, s = a ++ dropWhile f s.
Proof.
  induction s as [|c s [a IH]]; simpl; [now exists []|].
  destruct (f c); [|now exists []].
  exists (c :: a). simpl. now f_equal.
Qed.

Lemma dropWhile_idem f s : dropWhile f (dropWhile f s) = dropWhile f s.
Proof.
  induction s as [|c s IH]; simpl; [reflexivity|].
  destruct (f c) eqn:E; [exact IH|]. simpl. now rewrite E.
Qed.

Lemma dropWhile_snoc f s c :
  f c = false -> dropWhile f (s ++ [c]) = dropWhile f s ++ [c].
Proof.
  intros Hc. induction s as [|x s IH]; simpl; [now rewrite Hc|].
  destruct (f x); [exact IH|reflexivity].
Qed.

Lemma trimEnd_cons c s :
  is_space c = false -> trimEnd (c :: s) = c :: trimEnd s.
Proof.
  intros Hc. unfold trimEnd. simpl.
  rewrite dropWhile_snoc by exact Hc. rewrite rev_app_distr. reflexivity.
Qed.

Lemma trimEnd_idem s : trimEnd (trimEnd s) = trimEnd s.
Proof. unfold trimEnd. now rewrite rev_involutive, dropWhile_idem. Qed.

Lemma trimStart_head s :
  trimStart s = [] \/ exists c t, trimStart s = c :: t /\ is_space c = false.
Proof.
  unfold trimStart. induction s as [|c s IH]; simpl; [now left|].
  destruct (is_space c) eqn:E; [exact IH|]. right. now exists c, s.
Qed.

Theorem trim_idempotent s : trim (trim s) = trim s.
Proof.
  unfold trim. destruct (trimStart_head s) as [->|(c & t & -> & Hc)].
  - reflexivity.
  - rewrite (trimEnd_cons c t Hc). unfold trimStart at 1. simpl. rewrite Hc.
    rewrite <- (trimEnd_cons c t Hc). apply trimEnd_idem.
Qed.

Lemma trim_infix s : exists a b, s = a ++ trim s ++ b.
Proof.
  unfold trim, trimStart.
  destruct (dropWhile_suffix is_space s) as [a Ha].
  set (t := dropWhile is_space s) in *.
  destruct (dropWhile_suffix is_space (rev t)) as [b Hb].
  exists a, (rev b). rewrite Ha at 1. f_equal.
  unfold trimEnd. rewrite <- rev_app_distr, <- Hb. now rewrite rev_involutive.
Qed.

Lemma trim_excludes p s : includes s p = false -> includes (trim s) p = false.
Proof.
  intros H. destruct (trim_infix s) as (a & b & E). rewrite E in H.
  now apply excludes_infix in H.
Qed.

(** ** [replaceAll] *)

Lemma startsWith_cons_neq r x e s :
  negb (existsb (N.eqb r) (x :: e)) = true -> startsWith (r :: s) (x :: e) = false.
Proof.
  unfold startsWith. simpl. destruct (N.eqb_spec r x) as [->|Hne]; [discriminate|].
  intros _. destruct (N.eqb_spec x r) as [->|_]; [now elim Hne|reflexivity].
Qed.

(** A pass whose replacement starts with a character foreign to [e] does
    not make [e] a prefix of its output unless it was one of its input. *)
Lemma replaceAll_go_prefix pat r rep e :
  negb (existsb (N.eqb r) e) = true ->
  forall n s, startsWith (replaceAll_go n pat (r :: rep) s) e = true ->
              startsWith s e = true.
Proof.
  intros Hr. induction e as [|x e IH]; intros n s; [reflexivity|].
  destruct n as [|n]; [now simpl|]. simpl.
  destruct s as [|c s]; [now simpl|].
  destruct (strip_prefix pat (c :: s)) as [rest|].
  - change ((r :: rep) ++ ?t) with (r :: (rep ++ t)).
    now rewrite startsWith_cons_neq.
  - unfold startsWith. simpl. destruct (N.eqb x c); [|discriminate].
    assert (Hr' : negb (existsb (N.eqb r) e) = true).
    { simpl in Hr. apply negb_true_iff in Hr. apply orb_false_iff in Hr.
      apply negb_true_iff. tauto. }
    specialize (IH Hr' n s). unfold startsWith in IH. exact IH.
Qed.

(** ** [split] at a one-character separator *)






Lemma eqb_eq (a : jsstring) : forall b, JsString.eqb a b = true <-> a = b.
Proof.
  induction a as [|x a IH]; intros [|y b]; simpl; try (split; congruence).
  rewrite andb_true_iff, N.eqb_eq, IH. split; [intros [-> ->]|intros [= -> ->]]; auto.
Qed.

(** ** Passes of [replaceAll] *)

Lemma strip_prefix_app (a b : jsstring) : forall t,
  strip_prefix (a ++ b) t
  = match strip_prefix a t with
    | Some r => strip_prefix b r
    | None => None
    end.
Proof.
  induction a as [|x a IH]; intros t; simpl; [reflexivity|].
  destruct t as [|y t]; [reflexivity|]. destruct (N.eqb x y); [apply IH|reflexivity].
Qed.

Lemma strip_prefix_absent (c : char) (p s : jsstring) :
  ~ In c s -> strip_prefix (c :: p) s = None.
Proof.
  destruct s as [|y s]; [reflexivity|]. simpl. intros H.
  destruct (N.eqb_spec c y) as [->|_]; [elim H; now left|reflexivity].
Qed.

Lemma replaceAll_go_absent (c : char) (p rep : jsstring) : forall n s,
  ~ In c s -> replaceAll_go n (c :: p) rep s = s.
Proof.
  induction n as [|n IH]; intros s H; [reflexivity|].
  destruct s as [|y s]; [reflexivity|]. cbn [replaceAll_go].
  rewrite (strip_prefix_absent c p (y :: s) H). f_equal. apply IH.
  intros Hin. apply H. now right.
Qed.

Lemma replaceAll_go_fuel (pat rep : jsstring) :
  pat <> [] ->
  forall n s, (length s <= n)%nat ->
  forall m, (length s <= m)%nat ->
  replaceAll_go n pat rep s = replaceAll_go m pat rep s.
Proof.
  intros Hp. induction n as [|n IH]; intros s Hn m Hm.
  - destruct s; [|simpl in Hn; lia]. destruct m; reflexivity.
  - destruct s as [|c s]; [destruct m; reflexivity|].
    destruct m as [|m]; [simpl in Hm; lia|]. cbn [replaceAll_go].
    destruct (strip_prefix pat (c :: s)) as [rest|] eqn:E.
    + f_equal. apply strip_prefix_length in E.
      destruct pat; [now elim Hp|]. cbn [length] in *. apply IH; lia.
    + f_equal. cbn [length] in *. apply IH; lia.
Qed.

Lemma replaceAll_hit (pat rep s : jsstring) :
  pat <> [] -> replaceAll pat rep (pat ++ s) = rep ++ replaceAll pat rep s.
Proof.
  intros Hp. unfold replaceAll.
  destruct pat as [|c p]; [now elim Hp|]. cbn [app length replaceAll_go].
  assert (E : strip_prefix (c :: p) (c :: p ++ s) = Some s)
    by (now apply (strip_prefix_spec (c :: p))).
  rewrite E. f_equal. apply replaceAll_go_fuel; [discriminate| |lia].
  rewrite length_app. lia.
Qed.

Lemma replaceAll_past (c : char) (p rep a s : jsstring) :
  ~ In c a ->
  replaceAll (c :: p) rep (a ++ s) = a ++ replaceAll (c :: p) rep s.
Proof.
  intros H. induction a as [|x a IH]; [reflexivity|].
  unfold replaceAll in *. cbn [app length replaceAll_go].
  assert (E : strip_prefix (c :: p) (x :: a ++ s) = None).
  { simpl. destruct (N.eqb_spec c x) as [->|_]; [elim H; now left|reflexivity]. }
  rewrite E. f_equal. apply IH. intros Hin. apply H. now right.
Qed.

(** Each pass, seen from the front of the text. *)
Lemma replaceAll_cons (pat rep : jsstring) (c : char) (s : jsstring) :
  pat <> [] ->
  replaceAll pat rep (c :: s)
  = match strip_prefix pat (c :: s) with
    | Some rest => rep ++ replaceAll pat rep rest
    | None => c :: replaceAll pat rep s
    end.
Proof.
  intros Hp. unfold replaceAll. cbn [length replaceAll_go].
  destruct (strip_prefix pat (c :: s)) as [rest|] eqn:E; [|reflexivity].
  f_equal. apply replaceAll_go_fuel; [exact Hp| |lia].
  apply strip_prefix_length in E. destruct pat; [now elim Hp|].
  cbn [length] in E. lia.
Qed.

Lemma replaceAll_skip (pat rep : jsstring) (c : char) (s : jsstring) :
  pat <> [] -> strip_prefix pat (c :: s) = None ->
  replaceAll pat rep (c :: s) = c :: replaceAll pat rep s.
Proof. intros Hp E. now rewrite replaceAll_cons, E. Qed.

(** A pass does not make [e] a prefix of the text. *)
Lemma replaceAll_prefix pat r rep e s :
  negb (existsb (N.eqb r) e) = true ->
  startsWith s e = false -> startsWith (replaceAll pat (r :: rep) s) e = false.
Proof.
  intros Hr Hs. destruct (startsWith (replaceAll pat (r :: rep) s) e) eqn:E; [|reflexivity].
  apply replaceAll_go_prefix in E; [congruence|exact Hr].
Qed.

Lemma replaceAll_char (p rep : jsstring) (c : char) (s : jsstring) :
  c <> 38 -> replaceAll (38 :: p) rep (c :: s) = c :: replaceAll (38 :: p) rep s.
Proof.
  intros Hc. apply replaceAll_skip; [discriminate|]. cbn [strip_prefix].
  destruct (N.eqb_spec 38 c) as [E|_]; [now elim Hc|reflexivity].
Qed.

(** An entity that is not the one of the pass is left as it is. *)
Lemma replaceAll_other (p rep w s : jsstring) :
  strip_prefix p (w ++ s) = None -> ~ In 38 w ->
  replaceAll (38 :: p) rep (38 :: w ++ s) = 38 :: w ++ replaceAll (38 :: p) rep s.
Proof.
  intros E Hw. rewrite replaceAll_skip; [|discriminate|exact E].
  now rewrite replaceAll_past.
Qed.

End StringFacts.

(* ================================================================== *)
(** * Facts about the regular expression matcher *)
(* ================================================================== *)

Module RegexFacts.
Import StringFacts.

Lemma run_length_le (p : char -> bool) (s : jsstring) :
  forall hi, (run_length p hi s <= length s)%nat.
Proof.
  induction s as [|c s IH]; intros hi.
  - destruct hi as [[|h]|]; simpl; lia.
  - destruct hi as [[|h]|]; simpl; try lia.
    + destruct (p c); [specialize (IH (Some h)); simpl in IH |]; lia.
    + destruct (p c); [specialize (IH None); simpl in IH |]; lia.
Qed.

Lemma run_length_bound (p : char -> bool) (s : jsstring) :
  forall h, (run_length p (Some h) s <= h)%nat.
Proof.
  induction s as [|c s IH]; intros [|h]; simpl; try lia.
  destruct (p c); [specialize (IH h) |]; lia.
Qed.

Lemma run_length_forallb (p : char -> bool) (s : jsstring) :
  forall hi k, (k <= run_length p hi s)%nat -> forallb p (firstn k s) = true.
Proof.
  induction s as [|c s IH]; intros hi k Hk.
  - now rewrite firstn_nil.
  - destruct k as [|k]; [reflexivity|].
    assert (Hc : p c = true /\ (k <= run_length p (option_map Nat.pred hi) s)%nat).
    { destruct hi as [[|h]|]; simpl in Hk; try lia;
        destruct (p c); simpl in *; (split; [reflexivity|lia]) || lia. }
    destruct Hc as [Hc Hk']. simpl. rewrite Hc. simpl. eauto.
Qed.

(** Every way a class repetition matches: no capture, a run of the class
    whose length is within the bounds. *)
Lemma rmatch_rep p lo hi g s c m rest :
  In (c, m, rest) (rmatch (RRep p lo hi g) s) ->
  c = [] /\ (lo <= length m)%nat /\ forallb p m = true
  /\ (forall h, hi = Some h -> (length m <= h)%nat).
Proof.
  simpl. rewrite in_map_iff. intros (k & E & Hk).
  injection E as <- <- <-.
  assert (Hr : (lo <= k <= run_length p hi s)%nat).
  { unfold rep_lengths in Hk. destruct g; [apply In_rev in Hk|];
      apply in_seq in Hk; lia. }
  pose proof (run_length_le p s hi) as Hle.
  rewrite length_firstn, Nat.min_l by lia.
  repeat split; try lia.
  - eapply run_length_forallb. apply Hr.
  - intros h ->. pose proof (run_length_bound p s h). lia.
Qed.

Lemma rmatch_lit l s c m rest :
  In (c, m, rest) (rmatch (RLit l) s) -> c = [] /\ m = l.
Proof.
  simpl. destruct (strip_prefix l s); simpl; [|tauto].
  intros [E|[]]. now injection E as <- <- <-.
Qed.

Lemma rmatch_seq a b s c m rest :
  In (c, m, rest) (rmatch (RSeq a b) s) ->
  exists c1 m1 r1 c2 m2,
    In (c1, m1, r1) (rmatch a s) /\ In (c2, m2, rest) (rmatch b r1)
    /\ c = c1 ++ c2 /\ m = m1 ++ m2.
Proof.
  simpl. rewrite in_flat_map. intros ([[c1 m1] r1] & Ha & Hb).
  rewrite in_map_iff in Hb. destruct Hb as ([[c2 m2] r2] & E & Hb).
  injection E as <- <- <-. now exists c1, m1, r1, c2, m2.
Qed.

Lemma rmatch_grp a s c m rest :
  In (c, m, rest) (rmatch (RGrp a) s) ->
  exists c', c = m :: c' /\ In (c', m, rest) (rmatch a s).
Proof.
  simpl. rewrite in_map_iff. intros ([[c' m'] r'] & E & H).
  injection E as <- <- <-. now exists c'.
Qed.

(** [search] answers with the first alternative of the matcher at some
    position of the input. *)
Lemma search_sound r s f :
  search r s = Some f ->
  exists s', In (groups f, matched f, after f) (rmatch r s').
Proof.
  revert f. induction s as [|x s IH]; intros f; simpl.
  - destruct (rmatch r []) as [|[[c m] rest] l] eqn:E; [discriminate|].
    intros [= <-]. exists []. rewrite E. now left.
  - destruct (rmatch r (x :: s)) as [|[[c m] rest] l] eqn:E.
    + destruct (search r s) as [g|]; [|discriminate].
      intros [= <-]. simpl. now apply IH.
    + intros [= <-]. exists (x :: s). rewrite E. now left.
Qed.

(** ** The first alternative of the matcher *)

Lemma search_skip (r : re) (c : char) (s : jsstring) :
  rmatch r (c :: s) = [] ->
  search r (c :: s)
  = match search r s with
    | Some f => Some (mkFound (c :: before f) (groups f) (matched f) (after f))
    | None => None
    end.
Proof. intros H. simpl. now rewrite H. Qed.

Lemma search_hit (r : re) (s : jsstring) c m rest l :
  rmatch r s = (c, m, rest) :: l -> search r s = Some (mkFound [] c m rest).
Proof. intros H. destruct s; simpl; now rewrite H. Qed.

Lemma rmatch_lit_hit (l t : jsstring) : rmatch (RLit l) (l ++ t) = [([], l, t)].
Proof.
  cbn [rmatch].
  assert (E : strip_prefix l (l ++ t) = Some t) by now apply strip_prefix_spec.
  now rewrite E.
Qed.

Lemma matchAll_none (r : re) (s : jsstring) : search r s = None -> matchAll r s = [].
Proof. intros H. unfold matchAll. destruct (length s); simpl; [reflexivity|now rewrite H]. Qed.

Lemma first_lit (l t : jsstring) : first_match (RLit l) (l ++ t) ([], l, t).
Proof. exists []. apply rmatch_lit_hit. Qed.

Lemma first_seq (a b : re) (s : jsstring) c1 m1 r1 c2 m2 r2 :
  first_match a s (c1, m1, r1) -> first_match b r1 (c2, m2, r2) ->
  first_match (RSeq a b) s (c1 ++ c2, m1 ++ m2, r2).
Proof.
  intros [la Ea] [lb Eb]. unfold first_match. cbn [rmatch]. rewrite Ea. cbn [flat_map].
  rewrite Eb. cbn [map app]. eexists. reflexivity.
Qed.

Lemma first_grp (a : re) (s : jsstring) c m r :
  first_match a s (c, m, r) -> first_match (RGrp a) s (m :: c, m, r).
Proof.
  intros [l E]. unfold first_match. cbn [rmatch]. rewrite E. cbn [map].
  eexists. reflexivity.
Qed.

Lemma run_length_run (p : char -> bool) (a : jsstring) (c : char) (t : jsstring) :
  forallb p a = true -> p c = false ->
  run_length p None (a ++ c :: t) = length a.
Proof.
  intros Ha Hc. induction a as [|x a IH]; cbn [app run_length option_map length].
  - now rewrite Hc.
  - simpl in Ha. apply andb_true_iff in Ha. destruct Ha as [Hx Ha].
    rewrite Hx. f_equal. now apply IH.
Qed.

Lemma rep_lengths_greedy (lo k : nat) :
  (lo <= k)%nat -> exists l, rep_lengths lo k true = k :: l.
Proof.
  intros H. unfold rep_lengths.
  replace (S k - lo)%nat with (S (k - lo)) by lia.
  rewrite seq_S, rev_app_distr. cbn [rev app].
  replace (lo + (k - lo))%nat with k by lia. eexists. reflexivity.
Qed.

(** A greedy repetition first takes the whole run of its class. *)
Lemma first_rep (p : char -> bool) (lo : nat) (a : jsstring) (c : char) (t : jsstring) :
  forallb p a = true -> p c = false -> (lo <= length a)%nat ->
  first_match (RRep p lo None true) (a ++ c :: t) ([], a, c :: t).
Proof.
  intros Ha Hc Hlo. unfold first_match. cbn [rmatch].
  rewrite (run_length_run p a c t Ha Hc).
  destruct (rep_lengths_greedy lo (length a) Hlo) as [l ->]. cbn [map].
  rewrite firstn_app, skipn_app, Nat.sub_diag, firstn_all, skipn_all.
  cbn [firstn skipn app]. rewrite app_nil_r. eexists. reflexivity.
Qed.

Lemma not_char_all (x : char) (a : jsstring) :
  ~ In x a -> forallb (not_char x) a = true.
Proof.
  intros H. apply forallb_forall. intros y Hy. unfold not_char.
  destruct (N.eqb_spec y x) as [->|_]; [now elim H|reflexivity].
Qed.

Lemma chain_nonempty l s c m t : chain l s c m t -> l <> [].
Proof. intros H. destruct H; discriminate. Qed.

Lemma chain_first l s c m t : chain l s c m t -> first_match (seqs l) s (c, m, t).
Proof.
  induction 1 as [r s c m t H | r l s c1 m1 r1 c2 m2 t H Hc IH]; [exact H|].
  pose proof (chain_nonempty _ _ _ _ _ Hc) as Hl.
  destruct l as [|r' l]; [now elim Hl|].
  change (seqs (r :: r' :: l)) with (RSeq r (seqs (r' :: l))).
  now apply first_seq with (r1 := r1).
Qed.

Lemma chain_app l1 l2 s c1 m1 r1 c2 m2 t :
  chain l1 s c1 m1 r1 -> chain l2 r1 c2 m2 t ->
  chain (l1 ++ l2) s (c1 ++ c2) (m1 ++ m2) t.
Proof.
  intros H1 H2. induction H1 as [r s c m u0 H | r l s a1 b1 u1 a2 b2 u2 H Hc IH].
  - now apply chain_cons with (r1 := u0).
  - cbn [app]. rewrite <- !app_assoc. apply chain_cons with (r1 := u1); [exact H|].
    now apply IH.
Qed.

(** ** Matches consume what they match *)

Lemma rmatch_split (r : re) : forall s c m rest,
  In (c, m, rest) (rmatch r s) -> s = m ++ rest.
Proof.
  induction r as [l|p lo hi g|a IHa b IHb|a IHa b IHb|a IHa]; intros s c m rest H.
  - simpl in H. destruct (strip_prefix l s) as [t|] eqn:E; [|contradiction].
    destruct H as [H|[]]. injection H as <- <- <-. now apply strip_prefix_spec.
  - simpl in H. apply in_map_iff in H. destruct H as (k & E & _).
    injection E as <- <- <-. symmetry. apply firstn_skipn.
  - apply rmatch_seq in H. destruct H as (c1 & m1 & r1 & c2 & m2 & Ha & Hb & -> & ->).
    rewrite (IHa _ _ _ _ Ha), (IHb _ _ _ _ Hb). now rewrite app_assoc.
  - simpl in H. apply in_app_or in H. destruct H as [H|H]; eauto.
  - apply rmatch_grp in H. destruct H as (c' & -> & H). eauto.
Qed.

(** [search] answers with the first alternative of the matcher at the
    place where the text it skipped ends. *)
Lemma search_spec (r : re) (s : jsstring) : forall f,
  search r s = Some f ->
  s = before f ++ matched f ++ after f
  /\ first_match r (matched f ++ after f) (groups f, matched f, after f).
Proof.
  induction s as [|x s IH]; intros f; simpl.
  - destruct (rmatch r []) as [|[[c m] rest] l] eqn:E; [discriminate|].
    intros [= <-]. cbn [before matched after groups app].
    assert (Hs : [] = m ++ rest) by (apply (rmatch_split r [] c); rewrite E; now left).
    split; [exact Hs|]. rewrite <- Hs. now exists l.
  - destruct (rmatch r (x :: s)) as [|[[c m] rest] l] eqn:E.
    + destruct (search r s) as [g|]; [|discriminate].
      intros [= <-]. cbn [before matched after groups].
      destruct (IH g eq_refl) as [Hs Hm]. split; [|exact Hm].
      cbn [app]. now rewrite <- Hs.
    + intros [= <-]. cbn [before matched after groups app].
      assert (Hs : x :: s = m ++ rest)
        by (apply (rmatch_split r (x :: s) c); rewrite E; now left).
      split; [exact Hs|]. rewrite <- Hs. now exists l.
Qed.

Section Consuming.
Variable r : re.
Hypothesis consuming : forall s c m rest, In (c, m, rest) (rmatch r s) -> m <> [].

Lemma search_shrinks (s : jsstring) (f : found) :
  search r s = Some f -> (length (after f) < length s)%nat.
Proof.
  intros H. destruct (search_spec r s f H) as [Hs [l Hm]].
  assert (Hne : matched f <> []) by (eapply consuming; rewrite Hm; now left).
  rewrite Hs, !length_app. destruct (matched f); [now elim Hne|]. cbn [length]. lia.
Qed.

Lemma search_nil : search r [] = None.
Proof.
  destruct (search r []) as [f|] eqn:E; [|reflexivity].
  apply search_shrinks in E. cbn [length] in E. lia.
Qed.

Variable f : found -> jsstring.

Lemma replace_go_fuel : forall n s, (length s <= n)%nat ->
  forall m, (length s <= m)%nat -> replace_go n r f s = replace_go m r f s.
Proof.
  induction n as [|n IH]; intros s Hn m Hm.
  - destruct s; [|cbn [length] in Hn; lia].
    destruct m; [reflexivity|]. cbn [replace_go]. now rewrite search_nil.
  - destruct m as [|m].
    + destruct s; [|cbn [length] in Hm; lia]. cbn [replace_go]. now rewrite search_nil.
    + cbn [replace_go]. destruct (search r s) as [g|] eqn:E; [|reflexivity].
      apply search_shrinks in E. do 2 f_equal. apply IH; lia.
Qed.

Lemma matchAll_go_fuel : forall n s, (length s <= n)%nat ->
  forall m, (length s <= m)%nat -> matchAll_go n r s = matchAll_go m r s.
Proof.
  induction n as [|n IH]; intros s Hn m Hm.
  - destruct s; [|cbn [length] in Hn; lia].
    destruct m; [reflexivity|]. cbn [matchAll_go]. now rewrite search_nil.
  - destruct m as [|m].
    + destruct s; [|cbn [length] in Hm; lia]. cbn [matchAll_go]. now rewrite search_nil.
    + cbn [matchAll_go]. destruct (search r s) as [g|] eqn:E; [|reflexivity].
      apply search_shrinks in E. f_equal. apply IH; lia.
Qed.

Lemma matchAll_step (s : jsstring) (g : found) :
  search r s = Some g -> matchAll r s = g :: matchAll r (after g).
Proof.
  intros E. unfold matchAll. pose proof (search_shrinks s g E) as Hl.
  destruct (length s) as [|k] eqn:L; [lia|]. cbn [matchAll_go]. rewrite E.
  f_equal. apply matchAll_go_fuel; lia.
Qed.

(** The replacement reads the captures only. *)
Hypothesis f_groups : forall b b' c m a, f (mkFound b c m a) = f (mkFound b' c m a).

Lemma replace_skip (c : char) (s : jsstring) :
  rmatch r (c :: s) = [] -> replace r f (c :: s) = c :: replace r f s.
Proof.
  intros H. unfold replace. cbn [length replace_go]. rewrite (search_skip r c s H).
  destruct (search r s) as [g|] eqn:E.
  - cbn [before after app]. f_equal.
    pose proof (search_shrinks s g E) as Hl.
    destruct (length s) as [|k] eqn:L; [lia|].
    rewrite (replace_go_fuel (S k) (after g) ltac:(lia) k ltac:(lia)).
    cbn [replace_go]. rewrite E.
    destruct g as [b c' m a]. cbn [before groups matched after] in *.
    now rewrite (f_groups (c :: b) b).
  - destruct (length s); cbn [replace_go]; [reflexivity|]. now rewrite E.
Qed.

Lemma replace_hit (s : jsstring) c m rest :
  first_match r s (c, m, rest) ->
  replace r f s = f (mkFound [] c m rest) ++ replace r f rest.
Proof.
  intros [l H]. unfold replace. pose proof (search_hit r s c m rest l H) as E.
  pose proof (search_shrinks s _ E) as Hl. cbn [after] in Hl.
  destruct (length s) as [|k] eqn:L; [lia|]. cbn [replace_go]. rewrite E.
  cbn [before after app]. f_equal. apply replace_go_fuel; lia.
Qed.

End Consuming.

Lemma search_after (r : re) (pre s : jsstring) c m rest l :
  (forall a b, pre = a ++ b -> b <> [] -> rmatch r (b ++ s) = []) ->
  rmatch r s = (c, m, rest) :: l ->
  search r (pre ++ s) = Some (mkFound pre c m rest).
Proof.
  intros Hpre Hs. induction pre as [|x pre IH].
  - now apply search_hit with (l := l).
  - cbn [app]. rewrite search_skip.
    + rewrite IH; [reflexivity|]. intros a b E Hb. apply (Hpre (x :: a) b); [|exact Hb].
      now rewrite E.
    + apply (Hpre [] (x :: pre)); [reflexivity|discriminate].
Qed.

Lemma literal_head_consuming (x : char) (l : jsstring) (b : re) :
  forall s c m rest, In (c, m, rest) (rmatch (RSeq (RLit (x :: l)) b) s) -> m <> [].
Proof.
  intros s c m rest H. apply rmatch_seq in H.
  destruct H as (c1 & m1 & r1 & c2 & m2 & Ha & _ & _ & ->).
  apply rmatch_lit in Ha. destruct Ha as [_ ->]. discriminate.
Qed.

Lemma literal_head_miss (l : jsstring) (b : re) (s : jsstring) :
  strip_prefix l s = None -> rmatch (RSeq (RLit l) b) s = [].
Proof. intros H. cbn [rmatch]. now rewrite H. Qed.

End RegexFacts.

(* ================================================================== *)
(** * lib/utils.ts : video identifier extraction *)
(* ================================================================== *)

Module UtilsFacts.
Import Utils RegexFacts.

Lemma id11_groups s c m rest :
  In (c, m, rest) (rmatch id11 s) -> c = [m] /\ well_formed_id m.
Proof.
  intros H. apply rmatch_grp in H. destruct H as (c' & -> & H).
  apply rmatch_rep in H. destruct H as (-> & Hlo & Hall & Hhi).
  specialize (Hhi _ eq_refl). split; [reflexivity|]. split; [lia|assumption].
Qed.

Lemma literal_then_id11 a s c m rest :
  (forall s c m rest, In (c, m, rest) (rmatch a s) -> c = []) ->
  In (c, m, rest) (rmatch (RSeq a id11) s) ->
  exists id, c = [id] /\ well_formed_id id.
Proof.
  intros Ha H. apply rmatch_seq in H.
  destruct H as (c1 & m1 & r1 & c2 & m2 & H1 & H2 & -> & ->).
  apply Ha in H1. subst c1. apply id11_groups in H2. destruct H2 as [-> Hw].
  now exists m2.
Qed.

Lemma first_group_ok a s id :
  (forall s c m rest, In (c, m, rest) (rmatch a s) -> c = []) ->
  first_group (search (RSeq a id11) s) = Some id -> well_formed_id id.
Proof.
  intros Ha. unfold first_group.
  destruct (search (RSeq a id11) s) as [f|] eqn:E; [|discriminate].
  apply search_sound in E. destruct E as (s' & E).
  eapply literal_then_id11 in E; [|exact Ha].
  destruct E as (g & -> & Hw). destruct g; [discriminate|].
  now intros [= <-].
Qed.

Lemma lit_no_group l s c m rest :
  In (c, m, rest) (rmatch (RLit l) s) -> c = [].
Proof. intros H. now apply rmatch_lit in H. Qed.

Lemma alt_no_group a b :
  (forall s c m rest, In (c, m, rest) (rmatch a s) -> c = []) ->
  (forall s c m rest, In (c, m, rest) (rmatch b s) -> c = []) ->
  forall s c m rest, In (c, m, rest) (rmatch (RAlt a b) s) -> c = [].
Proof.
  intros Ha Hb s c m rest. simpl. rewrite in_app_iff. intros [H|H]; eauto.
Qed.

(** C10. For every input string, [extractVideoId] returns either null or a
    string of exactly 11 characters drawn from [A-Za-z0-9_-], and
    [isValidYouTubeUrl] is true exactly when [extractVideoId] is not null. *)
Theorem C10_extractVideoId_shape (url : jsstring) :
  (extractVideoId url = None
   \/ exists id, extractVideoId url = Some id
                 /\ length id = 11%nat /\ forallb id_char id = true)
  /\ (isValidYouTubeUrl url = true <-> extractVideoId url <> None).
Proof.
  split.
  - destruct (extractVideoId url) as [id|] eqn:E; [right|now left].
    exists id. split; [reflexivity|].
    unfold extractVideoId in E. destruct url as [|c0 url0]; [discriminate|].
    set (t := trim (c0 :: url0)) in E.
    destruct (first_group (search watchPattern t)) as [i1|] eqn:E1.
    { injection E as <-. eapply first_group_ok; [|exact E1].
      apply alt_no_group; [apply lit_no_group|].
      apply alt_no_group; apply lit_no_group. }
    destruct (first_group (search shortPattern t)) as [i2|] eqn:E2.
    { injection E as <-. eapply first_group_ok; [|exact E2]. apply lit_no_group. }
    destruct (first_group (search embedPattern t)) as [i3|] eqn:E3; [|discriminate].
    injection E as <-. eapply first_group_ok; [|exact E3]. apply lit_no_group.
  - unfold isValidYouTubeUrl. destruct (extractVideoId url); split;
      congruence || discriminate || (intros _; discriminate) || tauto.
Qed.

End UtilsFacts.

(* ================================================================== *)
(** * The segment-JSON parser *)
(* ================================================================== *)

Module Json3Facts.
Import YtDlp.

Lemma Qred_num_zero (x : Q) : Qnum (Qred x) = 0%Z -> Qred x = 0%Q.
Proof.
  intros H. change 0%Q with (Qred 0). apply Qred_complete.
  rewrite <- (Qred_correct x). unfold Qeq. rewrite H. reflexivity.
Qed.

(** [x / 1000 || 0] is [x / 1000] for every finite [x]. *)
Lemma ms_to_seconds (x : Q) :
  or_else (div (Fin x) (of_Z 1000)) zero = Fin (Qred (x / 1000)).
Proof.
  assert (D : div (Fin x) (of_Z 1000) = Fin (Qred (x / 1000))) by reflexivity.
  unfold or_else. rewrite D. unfold truthy, is_zero.
  destruct (Qnum (Qred (x / 1000)) =? 0)%Z eqn:E; cbn [negb]; [|reflexivity].
  apply Z.eqb_eq in E. rewrite (Qred_num_zero _ E). reflexivity.
Qed.

Lemma join_empty_sep (l : list jsstring) : join [] l = concat l.
Proof.
  induction l as [|x [|y l] IH]; simpl in *; [reflexivity| now rewrite app_nil_r |].
  now rewrite IH.
Qed.

Lemma hasSegs_fragments (e : json3Event) : hasSegs e = has_fragments e.
Proof.
  unfold hasSegs, has_fragments, fragments.
  destruct (segs e) as [[|s l]|]; reflexivity.
Qed.

Lemma eventItem_segment (e : json3Event) : segment_for e (eventItem e).
Proof.
  unfold segment_for, eventItem; simpl. repeat split.
  - unfold segText, fragments. rewrite join_empty_sep.
    destruct (segs e); reflexivity.
  - intros t ->. apply ms_to_seconds.
  - intros d ->. apply ms_to_seconds.
  - intros ->. reflexivity.
Qed.

(** C4. For every segment-JSON input, events without text fragments are
    skipped and each event with a non-empty fragment list yields exactly one
    segment, in the original order: its text is the concatenation of the
    fragments with no separator, its offset is the start in milliseconds
    divided by 1000, its duration is the duration in milliseconds divided by
    1000, and a missing duration gives 0. *)
Theorem C4_segment_json_parser (json : json3) :
  Forall2 segment_for (filter has_fragments (all_events json)) (parseJson3 json)
  /\ length (parseJson3 json)
     = length (filter has_fragments (all_events json)).
Proof.
  unfold parseJson3, all_events.
  destruct (events json) as [evs|]; [|split; [constructor|reflexivity]].
  rewrite (filter_ext _ _ hasSegs_fragments).
  split; [|apply length_map].
  induction (filter has_fragments evs) as [|e l IH]; simpl; constructor.
  - apply eventItem_segment.
  - exact IH.
Qed.

End Json3Facts.

(* ================================================================== *)
(** * The VTT-like parser *)
(* ================================================================== *)

Module VttFacts.
Import YtDlp.


Lemma update_at_length i f l : length (update_at i f l) = length l.
Proof.
  revert i. induction l as [|x l IH]; intros [|i]; simpl; auto.
Qed.











End VttFacts.

(* ================================================================== *)
(** * The cue-XML parser *)
(* ================================================================== *)

Module CueXmlFacts.
Import CueXml StringFacts RegexFacts.

Lemma search_literal_head l b s :
  includes s l = false -> search (RSeq (RLit l) b) s = None.
Proof.
  induction s as [|c s IH]; rewrite includes_unfold; unfold startsWith;
    intros H; apply orb_false_iff in H; destruct H as [H1 H2]; simpl.
  - destruct (strip_prefix l []); [discriminate|reflexivity].
  - destruct (strip_prefix l (c :: s)); [discriminate|]. simpl.
    fold (search (RSeq (RLit l) b) s). now rewrite (IH H2).
Qed.

(** ** Cue elements in the standard format *)

Lemma chain_attr (nm : string) (v t : jsstring) :
  v <> [] -> ~ In dq v ->
  chain (attr nm) (u nm ++ [61; dq] ++ v ++ dq :: t) [v]
        ((u nm ++ [61; dq]) ++ v ++ [dq]) t.
Proof.
  intros Hv Hq. unfold attr.
  replace (u nm ++ [61; dq] ++ v ++ dq :: t)
    with ((u nm ++ [61; dq]) ++ v ++ dq :: t) by now rewrite <- app_assoc.
  apply (chain_cons _ _ _ [] (u nm ++ [61; dq]) (v ++ dq :: t) [v] (v ++ [dq]) t);
    [apply first_lit|].
  apply (chain_cons _ _ (v ++ dq :: t) [v] v (dq :: t) [] [dq] t).
  - apply first_grp, first_rep.
    + now apply not_char_all.
    + unfold not_char. now rewrite N.eqb_refl.
    + destruct v; [now elim Hv|simpl; lia].
  - apply chain_one. apply (first_lit [dq] t).
Qed.

Lemma chain_space (c : char) (t : jsstring) :
  is_space c = false -> chain [plus is_space] (32 :: c :: t) [] [32] (c :: t).
Proof.
  intros Hc. apply chain_one. apply (first_rep is_space 1 [32] c t);
    [reflexivity|exact Hc|simpl; lia].
Qed.

Lemma chain_body (body rest : jsstring) :
  ~ In 60 body ->
  chain [star (not_char 62); RLit (u ">"); RGrp (star (not_char 60)); RLit (u "</text>")]
        (62 :: body ++ 60 :: u "/text>" ++ rest)
        [body] ([] ++ u ">" ++ body ++ u "</text>") rest.
Proof.
  intros Hb.
  apply (chain_cons _ _ _ [] [] (62 :: body ++ 60 :: u "/text>" ++ rest)
                    [body] (u ">" ++ body ++ u "</text>") rest).
  { apply (first_rep (not_char 62) 0 [] 62 _); [reflexivity|reflexivity|simpl; lia]. }
  apply (chain_cons _ _ _ [] (u ">") (body ++ 60 :: u "/text>" ++ rest)
                    [body] (body ++ u "</text>") rest).
  { apply (first_lit (u ">")). }
  apply (chain_cons _ _ _ [body] body (60 :: u "/text>" ++ rest) [] (u "</text>") rest).
  { apply first_grp, first_rep; [now apply not_char_all|reflexivity|lia]. }
  apply chain_one. apply (first_lit (u "</text>") rest).
Qed.

Lemma renderCue_app (c : cueElement) (rest : jsstring) :
  renderCue c ++ rest
  = u "<text" ++ 32 :: (u "start" ++ [61; dq] ++ cueStart c
      ++ dq :: 32 :: (u "dur" ++ [61; dq] ++ cueDur c
      ++ dq :: 62 :: cueBody c ++ 60 :: u "/text>" ++ rest)).
Proof. unfold renderCue. now rewrite <- !app_assoc. Qed.

(** The first pattern matches a cue element where it starts, and captures
    its two attribute values and its body. *)
Lemma pattern1_cue (c : cueElement) (rest : jsstring) :
  cueStart c <> [] -> ~ In dq (cueStart c) ->
  cueDur c <> [] -> ~ In dq (cueDur c) -> ~ In 60 (cueBody c) ->
  exists m l, rmatch pattern1 (renderCue c ++ rest)
              = ([cueStart c; cueDur c; cueBody c], m, rest) :: l.
Proof.
  intros Hs Hsq Hd Hdq Hlt.
  rewrite renderCue_app. unfold pattern1.
  assert (C1 : chain [RLit (u "<text"); plus is_space]
                 (u "<text" ++ 32 :: (u "start" ++ [61; dq] ++ cueStart c
                    ++ dq :: 32 :: (u "dur" ++ [61; dq] ++ cueDur c
                    ++ dq :: 62 :: cueBody c ++ 60 :: u "/text>" ++ rest)))
                 ([] ++ []) (u "<text" ++ [32])
                 (u "start" ++ [61; dq] ++ cueStart c
                    ++ dq :: 32 :: (u "dur" ++ [61; dq] ++ cueDur c
                    ++ dq :: 62 :: cueBody c ++ 60 :: u "/text>" ++ rest))).
  { apply chain_cons with (r1 := 32 :: (u "start" ++ [61; dq] ++ cueStart c
                    ++ dq :: 32 :: (u "dur" ++ [61; dq] ++ cueDur c
                    ++ dq :: 62 :: cueBody c ++ 60 :: u "/text>" ++ rest)));
      [apply first_lit|].
    apply (chain_space 115). reflexivity. }
  pose proof (chain_attr "start" (cueStart c)
                (32 :: (u "dur" ++ [61; dq] ++ cueDur c
                    ++ dq :: 62 :: cueBody c ++ 60 :: u "/text>" ++ rest)) Hs Hsq) as C2.
  pose proof (chain_space 100 (u "ur" ++ [61; dq] ++ cueDur c
                    ++ dq :: 62 :: cueBody c ++ 60 :: u "/text>" ++ rest) eq_refl) as C3.
  pose proof (chain_attr "dur" (cueDur c)
                (62 :: cueBody c ++ 60 :: u "/text>" ++ rest) Hd Hdq) as C4.
  pose proof (chain_body (cueBody c) rest Hlt) as C5.
  pose proof (chain_app _ _ _ _ _ _ _ _ _ C1
               (chain_app _ _ _ _ _ _ _ _ _ C2
                 (chain_app _ _ _ _ _ _ _ _ _ C3
                   (chain_app _ _ _ _ _ _ _ _ _ C4 C5)))) as C.
  apply chain_first in C. destruct C as [l E]. eexists. exists l. exact E.
Qed.

(** ** The decoding of a text written with entities *)

Lemma decodeNamed_passes (t : jsstring) :
  decodeNamed t
  = replaceAll (38 :: nbsp_tail) [32]
     (replaceAll (38 :: apos_tail) [39]
      (replaceAll (38 :: quot_tail) [dq]
       (replaceAll (38 :: gt_tail) [62]
        (replaceAll (38 :: lt_tail) [60]
         (replaceAll (38 :: amp_tail) [38] t))))).
Proof. reflexivity. Qed.

Lemma decodeNamed_chr (c : char) (s : jsstring) :
  c <> 38 -> decodeNamed (c :: s) = c :: decodeNamed s.
Proof.
  intros Hc. rewrite !decodeNamed_passes.
  do 6 (rewrite replaceAll_char by exact Hc). reflexivity.
Qed.

Lemma replaceAll_entity (p rep s : jsstring) :
  replaceAll (38 :: p) rep (38 :: p ++ s) = rep ++ replaceAll (38 :: p) rep s.
Proof. apply (replaceAll_hit (38 :: p)). discriminate. Qed.

Ltac pass_other w :=
  rewrite (replaceAll_other _ _ w)
    by first [reflexivity | (vm_compute; intuition discriminate)].
Ltac pass_hit := rewrite replaceAll_entity; cbn [app].
Ltac pass_char := rewrite replaceAll_char by discriminate.

Lemma decodeNamed_entity (e : entity) (s : jsstring) :
  e <> EAmp -> decodeNamed (entity_text e ++ s) = entity_char e :: decodeNamed s.
Proof.
  intros He. rewrite !decodeNamed_passes. destruct e; [now elim He| | | | |].
  - change (entity_text ELt ++ s) with (38 :: lt_tail ++ s).
    pass_other lt_tail. pass_hit. do 4 pass_char. reflexivity.
  - change (entity_text EGt ++ s) with (38 :: gt_tail ++ s).
    do 2 pass_other gt_tail. pass_hit. do 3 pass_char. reflexivity.
  - change (entity_text EQuot ++ s) with (38 :: quot_tail ++ s).
    do 3 pass_other quot_tail. pass_hit. do 2 pass_char. reflexivity.
  - change (entity_text EApos ++ s) with (38 :: apos_tail ++ s).
    do 4 pass_other apos_tail. pass_hit. pass_char. reflexivity.
  - change (entity_text ENbsp ++ s) with (38 :: nbsp_tail ++ s).
    do 5 pass_other nbsp_tail. pass_hit. reflexivity.
Qed.

Lemma replaceAll_amp (p rep x : jsstring) :
  startsWith x p = false ->
  replaceAll (38 :: p) rep (38 :: x) = 38 :: replaceAll (38 :: p) rep x.
Proof.
  intros H. apply replaceAll_skip; [discriminate|]. cbn [strip_prefix].
  rewrite N.eqb_refl. unfold startsWith in H.
  destruct (strip_prefix p x); [discriminate|reflexivity].
Qed.

Lemma completes_entity_false (s : jsstring) :
  completes_entity s = false ->
  startsWith s lt_tail = false /\ startsWith s gt_tail = false
  /\ startsWith s quot_tail = false /\ startsWith s apos_tail = false
  /\ startsWith s nbsp_tail = false /\ numeric_tail s = false.
Proof.
  unfold completes_entity. cbn [existsb]. intros H.
  apply orb_false_iff in H. destruct H as [H Hn].
  apply orb_false_iff in H. destruct H as [H1 H].
  apply orb_false_iff in H. destruct H as [H2 H].
  apply orb_false_iff in H. destruct H as [H3 H].
  apply orb_false_iff in H. destruct H as [H4 H].
  apply orb_false_iff in H. destruct H as [H5 _].
  repeat split; assumption.
Qed.

(** An [&amp;] that nothing after it completes is decoded once. *)
Lemma decodeNamed_amp (s : jsstring) :
  completes_entity s = false ->
  decodeNamed (entity_text EAmp ++ s) = 38 :: decodeNamed s.
Proof.
  intros H. apply completes_entity_false in H.
  destruct H as (Hlt & Hgt & Hquot & Hapos & Hnbsp & _).
  rewrite !decodeNamed_passes.
  change (entity_text EAmp ++ s) with (38 :: amp_tail ++ s). pass_hit.
  rewrite replaceAll_amp
    by (apply replaceAll_prefix; [reflexivity|exact Hlt]).
  rewrite replaceAll_amp
    by (do 2 (apply replaceAll_prefix; [reflexivity|]); exact Hgt).
  rewrite replaceAll_amp
    by (do 3 (apply replaceAll_prefix; [reflexivity|]); exact Hquot).
  rewrite replaceAll_amp
    by (do 4 (apply replaceAll_prefix; [reflexivity|]); exact Hapos).
  rewrite replaceAll_amp
    by (do 5 (apply replaceAll_prefix; [reflexivity|]); exact Hnbsp).
  reflexivity.
Qed.

Lemma digit_not_amp (d : char) : is_digit d = true -> d <> 38.
Proof.
  unfold is_digit. rewrite andb_true_iff, !N.leb_le. lia.
Qed.

Lemma reference_no_amp (ds : jsstring) :
  forallb is_digit ds = true -> ~ In 38 (35 :: ds ++ [59]).
Proof.
  intros Hd [H|H]; [discriminate H|]. apply in_app_or in H.
  destruct H as [H|[H|[]]]; [|discriminate H].
  rewrite forallb_forall in Hd. now apply (digit_not_amp 38 (Hd 38 H)).
Qed.

Lemma apos_miss (ds s : jsstring) :
  forallb is_digit ds = true -> JsString.eqb ds (u "39") = false ->
  strip_prefix apos_tail ((35 :: ds ++ [59]) ++ s) = None.
Proof.
  intros Hd Hne.
  destruct (strip_prefix apos_tail ((35 :: ds ++ [59]) ++ s)) as [rest|] eqn:E;
    [|reflexivity].
  apply strip_prefix_spec in E. unfold apos_tail in E. exfalso.
  destruct ds as [|a [|b [|c ds]]]; cbn [app] in E; try discriminate E.
  - injection E as -> ->. discriminate Hne.
  - injection E as -> -> -> _. discriminate Hd.
Qed.

Lemma decodeNamed_ref (ds s : jsstring) :
  forallb is_digit ds = true ->
  decodeNamed (written (Ref ds) ++ s) = after_named (Ref ds) ++ decodeNamed s.
Proof.
  intros Hd. cbn [after_named].
  destruct (JsString.eqb ds (u "39")) eqn:E.
  - apply eqb_eq in E. subst ds.
    apply (decodeNamed_entity EApos s). discriminate.
  - pose proof (reference_no_amp ds Hd) as Hw.
    rewrite !decodeNamed_passes.
    change (written (Ref ds) ++ s) with (38 :: (35 :: ds ++ [59]) ++ s).
    do 4 (rewrite (replaceAll_other _ _ (35 :: ds ++ [59]));
          [|reflexivity|exact Hw]).
    rewrite (replaceAll_other _ _ (35 :: ds ++ [59]));
      [|now apply apos_miss|exact Hw].
    rewrite (replaceAll_other _ _ (35 :: ds ++ [59]));
      [|reflexivity|exact Hw].
    reflexivity.
Qed.

(** The named passes on a whole text. *)
Lemma decodeNamed_step (p : piece) (s : jsstring) :
  well_written p = true ->
  (p = Ent EAmp -> completes_entity s = false) ->
  decodeNamed (written p ++ s) = after_named p ++ decodeNamed s.
Proof.
  intros Hw Ha. destruct p as [c|e|ds].
  - cbn [well_written] in Hw. apply andb_true_iff in Hw. destruct Hw as [Hc _].
    apply negb_true_iff, N.eqb_neq in Hc. now apply decodeNamed_chr.
  - destruct e; try (apply decodeNamed_entity; discriminate).
    apply decodeNamed_amp. now apply Ha.
  - apply decodeNamed_ref. destruct ds as [|d ds]; [discriminate Hw|].
    cbn [well_written] in Hw. apply andb_true_iff in Hw. tauto.
Qed.

Lemma decoded_once_cons (p : piece) (ps : list piece) :
  decoded_once (p :: ps) = true ->
  (p = Ent EAmp -> completes_entity (render ps) = false) /\ decoded_once ps = true.
Proof.
  cbn [decoded_once]. intros H. apply andb_true_iff in H. destruct H as [H1 H2].
  split; [|exact H2]. intros ->. now apply negb_true_iff in H1.
Qed.

Lemma decodeNamed_render (ps : list piece) :
  forallb well_written ps = true -> decoded_once ps = true ->
  decodeNamed (render ps) = flat_map after_named ps.
Proof.
  induction ps as [|p ps IH]; intros Hw Ho; [reflexivity|].
  cbn [forallb] in Hw. apply andb_true_iff in Hw. destruct Hw as [Hp Hw].
  apply decoded_once_cons in Ho. destruct Ho as [Ha Ho].
  unfold render. cbn [flat_map]. fold (render ps).
  rewrite (decodeNamed_step p (render ps) Hp Ha). now rewrite (IH Hw Ho).
Qed.

(** ** The numeric pass *)

Lemma numericRef_consuming :
  forall s c m rest, In (c, m, rest) (rmatch numericRef s) -> m <> [].
Proof. apply (literal_head_consuming 38 [35]). Qed.

Lemma fromCode_groups (b b' : jsstring) (c : list jsstring) (m a : jsstring) :
  (fun f => [fromCharCode (digits_value (group 1 f))]) (mkFound b c m a)
  = (fun f => [fromCharCode (digits_value (group 1 f))]) (mkFound b' c m a).
Proof. reflexivity. Qed.

Lemma decodeNumeric_skip (c : char) (s : jsstring) :
  rmatch numericRef (c :: s) = [] -> decodeNumeric (c :: s) = c :: decodeNumeric s.
Proof.
  intros H. unfold decodeNumeric.
  apply (replace_skip numericRef numericRef_consuming _ fromCode_groups c s H).
Qed.

Lemma decodeNumeric_chr (c : char) (s : jsstring) :
  c <> 38 -> decodeNumeric (c :: s) = c :: decodeNumeric s.
Proof.
  intros Hc. apply decodeNumeric_skip.
  apply (literal_head_miss [38; 35]). cbn [strip_prefix].
  destruct (N.eqb_spec 38 c) as [E|_]; [now elim Hc|reflexivity].
Qed.

Lemma dropWhile_run (p : char -> bool) (a : jsstring) (c : char) (t : jsstring) :
  forallb p a = true -> p c = false -> dropWhile p (a ++ c :: t) = c :: t.
Proof.
  intros Ha Hc. induction a as [|x a IH]; cbn [app dropWhile].
  - now rewrite Hc.
  - cbn [forallb] in Ha. apply andb_true_iff in Ha. destruct Ha as [-> Ha]. now apply IH.
Qed.

(** The pattern of the numeric pass matches nowhere but at a reference. *)
Lemma numericRef_needs_tail (x : jsstring) :
  numeric_tail x = false -> rmatch numericRef (38 :: x) = [].
Proof.
  intros H. destruct (rmatch numericRef (38 :: x)) as [|[[c m] rest] l] eqn:E;
    [reflexivity|exfalso].
  assert (Hin : In (c, m, rest) (rmatch numericRef (38 :: x))) by (rewrite E; now left).
  unfold numericRef in Hin. cbn [seqs] in Hin.
  apply rmatch_seq in Hin.
  destruct Hin as (c1 & m1 & r1 & c2 & m2 & Ha & Hb & _ & _).
  pose proof (rmatch_split _ _ _ _ _ Ha) as S1.
  apply rmatch_lit in Ha. destruct Ha as [_ ->].
  apply rmatch_seq in Hb.
  destruct Hb as (c3 & m3 & r3 & c4 & m4 & Hg & Hs & _ & _).
  pose proof (rmatch_split _ _ _ _ _ Hg) as S2.
  apply rmatch_grp in Hg. destruct Hg as (c' & _ & Hg).
  apply rmatch_rep in Hg. destruct Hg as (_ & Hlen & Hd & _).
  pose proof (rmatch_split _ _ _ _ _ Hs) as S3.
  apply rmatch_lit in Hs. destruct Hs as [_ ->].
  subst r3 r1. injection S1 as ->.
  destruct m3 as [|d ds]; [cbn [length] in Hlen; lia|].
  cbn [forallb] in Hd. apply andb_true_iff in Hd. destruct Hd as [Hd Hds].
  cbn [app numeric_tail] in H. rewrite Hd in H.
  rewrite (dropWhile_run is_digit ds 59 rest Hds eq_refl) in H. discriminate H.
Qed.

Lemma decodeNumeric_amp (x : jsstring) :
  numeric_tail x = false -> decodeNumeric (38 :: x) = 38 :: decodeNumeric x.
Proof. intros H. now apply decodeNumeric_skip, numericRef_needs_tail. Qed.

(** A reference is replaced by the code unit of its value. *)
Lemma decodeNumeric_ref (ds s : jsstring) :
  ds <> [] -> forallb is_digit ds = true ->
  decodeNumeric (written (Ref ds) ++ s)
  = fromCharCode (digits_value ds) :: decodeNumeric s.
Proof.
  intros Hne Hd. unfold decodeNumeric.
  assert (M : first_match numericRef (written (Ref ds) ++ s)
                ([] ++ [ds] ++ [], [38; 35] ++ ds ++ [59], s)).
  { replace (written (Ref ds) ++ s) with ([38; 35] ++ ds ++ 59 :: s)
      by (cbn [written]; now rewrite <- !app_assoc).
    unfold numericRef. cbn [seqs].
    apply (first_seq _ _ _ [] [38; 35] (ds ++ 59 :: s) ([ds] ++ []) (ds ++ [59]) s);
      [apply first_lit|].
    apply (first_seq _ _ _ [ds] ds (59 :: s) [] [59] s).
    - apply first_grp, first_rep; [exact Hd|reflexivity|].
      destruct ds; [now elim Hne|cbn [length]; lia].
    - apply (first_lit [59] s). }
  rewrite (replace_hit numericRef numericRef_consuming _ _ _ _ _ M). reflexivity.
Qed.

(** A named pass does not complete a numeric reference. *)
Lemma replaceAll_head (pat : jsstring) (r c : char) (s : jsstring) :
  pat <> [] ->
  replaceAll pat [r] (c :: s) = c :: replaceAll pat [r] s
  \/ exists x, replaceAll pat [r] (c :: s) = r :: x.
Proof.
  intros Hp. rewrite replaceAll_cons by exact Hp.
  destruct (strip_prefix pat (c :: s)); [right; eexists|left]; reflexivity.
Qed.

Lemma semicolon_after_digits (pat : jsstring) (r : char) :
  pat <> [] -> is_digit r = false -> r <> 59 ->
  forall s, startsWith (dropWhile is_digit (replaceAll pat [r] s)) [59] = true ->
            startsWith (dropWhile is_digit s) [59] = true.
Proof.
  intros Hp Hr Hr'. induction s as [|c s IH]; [intros H; discriminate H|].
  destruct (replaceAll_head pat r c s Hp) as [->|[x ->]]; cbn [dropWhile].
  - destruct (is_digit c); [exact IH|].
    unfold startsWith. cbn [strip_prefix]. now destruct (59 =? c).
  - rewrite Hr. unfold startsWith. cbn [strip_prefix].
    destruct (N.eqb_spec 59 r) as [E|_]; [now elim Hr'|discriminate].
Qed.

Lemma numeric_tail_pass (pat : jsstring) (r : char) (s : jsstring) :
  pat <> [] -> is_digit r = false -> r <> 59 -> r <> 35 ->
  numeric_tail s = false -> numeric_tail (replaceAll pat [r] s) = false.
Proof.
  intros Hp Hr H59 H35 H.
  destruct (numeric_tail (replaceAll pat [r] s)) eqn:E; [exfalso|reflexivity].
  destruct s as [|c s]; [discriminate E|].
  destruct (replaceAll_head pat r c s Hp) as [Ec|[x Ec]]; rewrite Ec in E.
  - destruct s as [|d s]; [discriminate E|].
    destruct (replaceAll_head pat r d s Hp) as [Ed|[y Ed]]; rewrite Ed in E;
      cbn [numeric_tail] in E, H.
    + apply andb_true_iff in E. destruct E as [E E3].
      apply andb_true_iff in E. destruct E as [E1 E2].
      rewrite E1, E2 in H. cbn [andb] in H.
      pose proof (semicolon_after_digits pat r Hp Hr H59 s E3) as E4.
      change (startsWith (dropWhile is_digit s) [59] = false) in H. congruence.
    + rewrite Hr, andb_false_r in E. discriminate E.
  - destruct x as [|d x]; [discriminate E|]. cbn [numeric_tail] in E.
    destruct (N.eqb_spec r 35) as [E35|_]; [now elim H35|discriminate E].
Qed.

Lemma numeric_tail_named (s : jsstring) :
  numeric_tail s = false -> numeric_tail (decodeNamed s) = false.
Proof.
  intros H. rewrite decodeNamed_passes.
  do 6 (apply numeric_tail_pass;
        [discriminate|reflexivity|discriminate|discriminate|]).
  exact H.
Qed.

Lemma decodeNumeric_images (ps : list piece) :
  forallb well_written ps = true -> decoded_once ps = true ->
  decodeNumeric (flat_map after_named ps) = map decoded ps.
Proof.
  induction ps as [|p ps IH]; intros Hw Ho; [reflexivity|].
  cbn [forallb] in Hw. apply andb_true_iff in Hw. destruct Hw as [Hp Hw].
  apply decoded_once_cons in Ho. destruct Ho as [Ha Ho].
  cbn [flat_map map]. rewrite <- (IH Hw Ho). destruct p as [c|e|ds].
  - cbn [well_written] in Hp. apply andb_true_iff in Hp. destruct Hp as [Hc _].
    apply negb_true_iff, N.eqb_neq in Hc. now apply decodeNumeric_chr.
  - destruct e; try (apply decodeNumeric_chr; discriminate).
    apply decodeNumeric_amp. rewrite <- (decodeNamed_render ps Hw Ho).
    apply numeric_tail_named.
    now destruct (completes_entity_false _ (Ha eq_refl)) as (_ & _ & _ & _ & _ & H).
  - assert (Hd : ds <> [] /\ forallb is_digit ds = true).
    { destruct ds as [|d ds]; [discriminate Hp|]. cbn [well_written] in Hp.
      apply andb_true_iff in Hp. split; [discriminate|tauto]. }
    destruct Hd as [Hne Hd]. cbn [after_named decoded].
    destruct (JsString.eqb ds (u "39")) eqn:E.
    + apply eqb_eq in E. subst ds. apply (decodeNumeric_chr 39). discriminate.
    + now apply decodeNumeric_ref.
Qed.

(** ** The whole chain *)

Lemma includes_absent (c : char) (p s : jsstring) :
  ~ In c s -> includes s (c :: p) = false.
Proof.
  induction s as [|x s IH]; intros H; rewrite includes_unfold; unfold startsWith.
  - reflexivity.
  - rewrite (strip_prefix_absent c p (x :: s) H). cbn [orb]. apply IH.
    intros Hin. apply H. now right.
Qed.

Lemma unwrapCdata_id (t : jsstring) : ~ In 60 t -> unwrapCdata t = t.
Proof.
  intros H. unfold unwrapCdata, replace.
  assert (E : search cdata t = None).
  { apply search_literal_head. now apply (includes_absent 60). }
  destruct (length t); cbn [replace_go]; [reflexivity|]. now rewrite E.
Qed.

Lemma written_no_lt (p : piece) : well_written p = true -> ~ In 60 (written p).
Proof.
  destruct p as [c|e|ds]; cbn [well_written written].
  - intros H [E|[]]. apply andb_true_iff in H. destruct H as [_ H].
    apply negb_true_iff, N.eqb_neq in H. congruence.
  - intros _. destruct e; vm_compute; intuition discriminate.
  - intros H Hin. destruct ds as [|d ds]; [discriminate H|].
    apply andb_true_iff in H. destruct H as [H _]. rewrite forallb_forall in H.
    apply in_app_or in Hin. destruct Hin as [Hin|Hin].
    + vm_compute in Hin. intuition discriminate.
    + apply in_app_or in Hin. destruct Hin as [Hin|Hin].
      * specialize (H 60 Hin). discriminate H.
      * vm_compute in Hin. intuition discriminate.
Qed.

Lemma render_no_lt (ps : list piece) :
  forallb well_written ps = true -> ~ In 60 (render ps).
Proof.
  induction ps as [|p ps IH]; intros Hw; [intros []|].
  cbn [forallb] in Hw. apply andb_true_iff in Hw. destruct Hw as [Hp Hw].
  unfold render. cbn [flat_map]. intros Hin. apply in_app_or in Hin.
  destruct Hin as [Hin|Hin]; [now apply (written_no_lt p Hp)|now apply IH].
Qed.

Lemma decodeText_render (ps : list piece) :
  forallb well_written ps = true -> decoded_once ps = true ->
  decodeText (render ps) = trim (map decoded ps).
Proof.
  intros Hw Ho. unfold decodeText.
  rewrite (unwrapCdata_id _ (render_no_lt ps Hw)).
  rewrite (decodeNamed_render ps Hw Ho). now rewrite (decodeNumeric_images ps Hw Ho).
Qed.

(** ** A document of one cue element *)

Lemma matchAll_single (r : re) (s : jsstring) c m l :
  rmatch r s = (c, m, []) :: l -> search r [] = None ->
  matchAll r s = [mkFound [] c m []].
Proof.
  intros E Hn. unfold matchAll. pose proof (search_hit r s c m [] l E) as Hs.
  destruct s as [|x s]; [congruence|]. cbn [length matchAll_go]. rewrite Hs.
  cbn [after]. f_equal. destruct (length s); [reflexivity|].
  cbn [matchAll_go]. now rewrite Hn.
Qed.

Lemma parseTranscriptXml_single (c : cueElement) :
  cueStart c <> [] -> ~ In dq (cueStart c) ->
  cueDur c <> [] -> ~ In dq (cueDur c) -> ~ In 60 (cueBody c) ->
  parseTranscriptXml (renderCue c)
  = match decodeText (cueBody c) with
    | [] => []
    | t => [mkItem t (parseFloat (cueDur c)) (parseFloat (cueStart c))]
    end.
Proof.
  intros Hs Hsq Hd Hdq Hb.
  destruct (pattern1_cue c [] Hs Hsq Hd Hdq Hb) as (m & l & E).
  rewrite app_nil_r in E.
  unfold parseTranscriptXml, textMatches.
  rewrite (matchAll_single pattern1 _ _ _ _ E eq_refl).
  cbn [collect]. unfold segmentOf, group. cbn [groups Nat.sub nth].
  destruct (decodeText (cueBody c)); reflexivity.
Qed.

(** C6, counterexample.  The cue text [&amp;amp;] is emitted as [&amp;],
    and [&#38;lt;] as [&lt;]: the output does contain raw entity
    sequences. *)
Lemma C6_counterexample :
  parseTranscriptXml (cue "0" "1" (u "&amp;amp;")) = [mkItem (u "&amp;") (Fin 1) (Fin 0)]
  /\ includes (u "&amp;") (u "&amp;") = true
  /\ parseTranscriptXml (cue "0" "1" (u "&#38;lt;")) = [mkItem (u "&lt;") (Fin 1) (Fin 0)]
  /\ includes (u "&lt;") (u "&lt;") = true.
Proof. vm_compute. repeat split. Qed.

(** The texts that the statement below leaves out: the pass for [&amp;]
    comes first, so that an [&amp;] followed by what completes an entity
    is decoded twice. *)
Example decoded_twice :
  decoded_once [Ent EAmp; Chr 108; Chr 116; Chr 59] = false
  /\ decodeText (render [Ent EAmp; Chr 108; Chr 116; Chr 59]) = u "<".
Proof. vm_compute. split; reflexivity. Qed.

(** C6, amended.  For every cue text written with plain characters (any
    code unit but [&] and [<]), the six named entities and numeric
    references of one to fifteen digits, in which no [&amp;] is directly
    followed by text that completes an entity ([lt;], [gt;], [quot;],
    [#39;], [nbsp;] or [#], digits and [;]), the parser decodes every
    occurrence of every entity to its character ([&], [<], [>], the double
    quote, ['], a space) and every numeric reference to the code unit of
    its value modulo 2^16, then trims.  Each entity is decoded once: what
    the decoding writes is not decoded again, so the output can contain an
    entity sequence.  A document made of one cue element in the standard
    format with this text yields the segment with the decoded text, or no
    segment when that text is empty. *)
Theorem C6_entity_decoding (ps : list piece) :
  forallb well_written ps = true -> decoded_once ps = true ->
  decodeText (render ps) = trim (map decoded ps)
  /\ forall start dur : jsstring,
       start <> [] -> ~ In dq start -> dur <> [] -> ~ In dq dur ->
       parseTranscriptXml (renderCue (mkCue start dur (render ps)))
       = match trim (map decoded ps) with
         | [] => []
         | t => [mkItem t (parseFloat dur) (parseFloat start)]
         end.
Proof.
  intros Hw Ho. pose proof (decodeText_render ps Hw Ho) as E.
  split; [exact E|]. intros start dur Hs Hsq Hd Hdq.
  rewrite <- E.
  apply (parseTranscriptXml_single (mkCue start dur (render ps)));
    cbn [cueStart cueDur cueBody]; try assumption.
  now apply render_no_lt.
Qed.

Lemma C6_entity_decoding_witness :
  decodeText (render sampleText) = sampleDecoded
  /\ parseTranscriptXml (renderCue (mkCue (u "0.5") (u "2") (render sampleText)))
     = [mkItem sampleDecoded (Fin 2) (Fin (1 # 2))].
Proof.
  destruct (C6_entity_decoding sampleText eq_refl eq_refl) as [A B].
  split; [exact A|].
  apply (B (u "0.5") (u "2")); vm_compute; intuition discriminate.
Defined.

(** Every segment the cue-XML parser emits has a text that is not empty
    and has no white space left to trim. *)
Lemma collect_In ms it :
  In it (collect ms) -> exists m, In m ms /\ segmentOf m = Some it.
Proof.
  induction ms as [|m ms IH]; simpl; [tauto|].
  destruct (segmentOf m) as [x|] eqn:E.
  - intros [<-|H]; [exists m; auto|].
    destruct (IH H) as (m' & ? & ?). exists m'; auto.
  - intros H. destruct (IH H) as (m' & ? & ?). exists m'; auto.
Qed.

Lemma segmentOf_text m it :
  segmentOf m = Some it -> text it = decodeText (group 3 m) /\ text it <> [].
Proof.
  unfold segmentOf. destruct (decodeText (group 3 m)) as [|c t] eqn:E; [discriminate|].
  intros [= <-]. simpl. split; [reflexivity|discriminate].
Qed.

Theorem parseTranscriptXml_text xml it :
  In it (parseTranscriptXml xml) -> text it <> [] /\ trim (text it) = text it.
Proof.
  intros H. apply collect_In in H. destruct H as (m & _ & H).
  apply segmentOf_text in H. destruct H as [E Hne]. split; [exact Hne|].
  rewrite E. unfold decodeText. apply trim_idempotent.
Qed.

End CueXmlFacts.

(* ================================================================== *)
(** * Empty texts in the three parsers *)
(* ================================================================== *)

Module EmptyTextFacts.
Import YtDlp CueXml.

(** C7.  The segment-JSON parser emits the event whose only fragment is a
    line break as a segment whose text is empty after trimming, and the
    VTT-like parser emits a cue that has no text line with the empty text;
    the cue-XML parser drops the corresponding cue. *)
Theorem C7_blank_segments_emitted :
  parseJson3 (mkJson3 (Some [mkEvent (Some [mkSeg (Some nl)])
                                     (Some (1000 # 1)) (Some (500 # 1))]))
    = [mkItem nl (Fin (1 # 2)) (Fin 1)]
  /\ trim nl = []
  /\ parseVtt (u "WEBVTT" ++ nl ++ nl ++ u "00:01.000 --> 00:02.000" ++ nl)
    = [mkItem [] (Fin 1) (Fin 1)]
  /\ parseTranscriptXml (cue "1" "0.5" nl) = [].
Proof. vm_compute. repeat split. Qed.

End EmptyTextFacts.

(* ================================================================== *)
(** * The retry loop *)
(* ================================================================== *)

Module RetryFacts.
Import Route DirectPage.

Section Loop.
Variable w : World.
Variables videoId lang : jsstring.

Local Abbreviation loop := (retryLoop w videoId lang).
Local Abbreviation before_outcome := (attempt_events videoId lang).
Local Abbreviation failed := (failed_attempt_events w videoId lang).

Lemma attempt_trace (attempt : nat) (tr : trace) :
  (if (1 <? attempt)%nat then tr ++ [Sleep (progressive_delay attempt)] else tr)
    ++ [CallLibrary videoId lang]
  = tr ++ before_outcome attempt.
Proof.
  unfold attempt_events. destruct (1 <? attempt)%nat.
  - now rewrite <- app_assoc.
  - reflexivity.
Qed.

(** An attempt that returns an array leaves the loop. *)
Lemma loop_break rem attempt le tr items :
  library w attempt = LibArray items ->
  loop (S rem) attempt le tr = (Broke items, tr ++ before_outcome attempt).
Proof. intros H. cbn [retryLoop]. rewrite H, attempt_trace. reflexivity. Qed.

(** A failure at the last attempt is thrown. *)
Lemma loop_throw rem attempt le tr e :
  (maxRetries <= attempt)%nat -> failure_at w attempt = Some e ->
  loop (S rem) attempt le tr = (Threw e, tr ++ before_outcome attempt).
Proof.
  intros Ha H. cbn [retryLoop]. unfold failure_at in H.
  assert (L : (attempt <? maxRetries)%nat = false) by (apply Nat.ltb_ge; exact Ha).
  rewrite L, attempt_trace.
  destruct (library w attempt); try discriminate; injection H as <-; reflexivity.
Qed.

(** A failure at an earlier attempt is followed by its backoff delay and by
    the next attempt, whatever the error is. *)
Lemma loop_retry rem attempt le tr e :
  (attempt < maxRetries)%nat -> failure_at w attempt = Some e ->
  loop (S rem) attempt le tr = loop rem (S attempt) (Some e) (tr ++ failed attempt).
Proof.
  intros Ha H. cbn [retryLoop]. unfold failed_attempt_events. rewrite H.
  unfold failure_at in H.
  assert (L : (attempt <? maxRetries)%nat = true) by (apply Nat.ltb_lt; exact Ha).
  rewrite L, attempt_trace. unfold backoff.
  destruct (library w attempt); try discriminate; injection H as <-;
    destruct (isBlockingError _); rewrite !app_assoc; reflexivity.
Qed.

(** [n] failed attempts in a row. *)
Lemma loop_failures n : forall attempt rem le tr,
  (attempt + n <= maxRetries)%nat -> (n <= rem)%nat ->
  (forall k, (attempt <= k < attempt + n)%nat -> failure_at w k <> None) ->
  exists le',
    loop rem attempt le tr
    = loop (rem - n) (attempt + n) le' (tr ++ flat_map failed (seq attempt n)).
Proof.
  induction n as [|n IH]; intros attempt rem le tr Ha Hr Hf.
  - exists le. now rewrite Nat.sub_0_r, Nat.add_0_r, app_nil_r.
  - destruct rem as [|rem]; [lia|].
    destruct (failure_at w attempt) as [e|] eqn:E; [|elim (Hf attempt); [lia|exact E]].
    rewrite (loop_retry rem attempt le tr e) by (lia || exact E).
    destruct (IH (S attempt) rem (Some e) (tr ++ failed attempt)) as [le' IH'];
      [lia | lia | intros k Hk; apply Hf; lia |].
    exists le'. rewrite IH'. cbn [seq flat_map].
    rewrite <- app_assoc, Nat.add_succ_r. reflexivity.
Qed.

(** The loop only adds to the trace, and starts with an attempt. *)
Lemma loop_extends rem : forall attempt le tr,
  exists d, snd (loop (S rem) attempt le tr) = tr ++ before_outcome attempt ++ d.
Proof.
  induction rem as [|rem IH]; intros attempt le tr;
    destruct (failure_at w attempt) as [e|] eqn:E.
  - destruct (Nat.ltb_spec attempt maxRetries) as [Ha|Ha].
    + rewrite (loop_retry 0 attempt le tr e Ha E). cbn [retryLoop snd].
      unfold failed_attempt_events. rewrite E. eexists. reflexivity.
    + rewrite (loop_throw 0 attempt le tr e Ha E). exists []. cbn [snd].
      now rewrite app_nil_r.
  - unfold failure_at in E. destruct (library w attempt) as [items| |] eqn:L;
      try discriminate.
    rewrite (loop_break 0 attempt le tr items L). exists []. cbn [snd].
    now rewrite app_nil_r.
  - destruct (Nat.ltb_spec attempt maxRetries) as [Ha|Ha].
    + rewrite (loop_retry (S rem) attempt le tr e Ha E).
      destruct (IH (S attempt) (Some e) (tr ++ failed attempt)) as [d Hd].
      rewrite Hd. unfold failed_attempt_events at 1. rewrite E.
      eexists. rewrite <- !app_assoc. reflexivity.
    + rewrite (loop_throw (S rem) attempt le tr e Ha E). exists []. cbn [snd].
      now rewrite app_nil_r.
  - unfold failure_at in E. destruct (library w attempt) as [items| |] eqn:L;
      try discriminate.
    rewrite (loop_break (S rem) attempt le tr items L). exists []. cbn [snd].
    now rewrite app_nil_r.
Qed.

End Loop.

(** The two delay laws: exponential, from 3000 ms up to 15000 ms after a
    blocking error and from 1000 ms up to 5000 ms after another error. *)
Lemma pow2_succ (a : nat) :
  (1 <= a)%nat -> (2 ^ (Z.of_nat (S a) - 1) = 2 * 2 ^ (Z.of_nat a - 1))%Z.
Proof.
  intros Ha. replace (Z.of_nat (S a) - 1)%Z with (Z.succ (Z.of_nat a - 1))%Z by lia.
  apply Z.pow_succ_r. lia.
Qed.

Lemma blocking_delay_law :
  blocking_delay 1 = 3000%Z
  /\ forall a, (1 <= a)%nat ->
       blocking_delay (S a) = Z.min (2 * blocking_delay a) 15000
       /\ (3000 <= blocking_delay a <= 15000)%Z.
Proof.
  split; [reflexivity|]. intros a Ha. unfold blocking_delay.
  rewrite (pow2_succ a Ha).
  assert (P : (1 <= 2 ^ (Z.of_nat a - 1))%Z) by (apply Z.pow_le_mono_r with (b := 0%Z); lia).
  lia.
Qed.

Lemma generic_delay_law :
  generic_delay 1 = 1000%Z
  /\ forall a, (1 <= a)%nat ->
       generic_delay (S a) = Z.min (2 * generic_delay a) 5000
       /\ (1000 <= generic_delay a <= 5000)%Z.
Proof.
  split; [reflexivity|]. intros a Ha. unfold generic_delay.
  rewrite (pow2_succ a Ha).
  assert (P : (1 <= 2 ^ (Z.of_nat a - 1))%Z) by (apply Z.pow_le_mono_r with (b := 0%Z); lia).
  lia.
Qed.

End RetryFacts.

(* ================================================================== *)
(** * The direct-page strategy *)
(* ================================================================== *)

Module DirectPageFacts.
Import DirectPage CueXml Route YtDlp StringFacts.

(** The strategy only adds its own calls to the trace. *)
Lemma direct_trace (w : World) (v l : jsstring) (tr : trace) :
  fetchTranscriptDirectly w v l tr
  = (fst (fetchTranscriptDirectly w v l []),
     tr ++ snd (fetchTranscriptDirectly w v l [])).
Proof.
  unfold fetchTranscriptDirectly.
  repeat match goal with
         | |- context [match ?x with _ => _ end] => destruct x
         end;
    cbn [fst snd app]; rewrite <- ?app_assoc; reflexivity.
Qed.

(** Its first action is to fetch the watch page. *)
Lemma direct_first_fetch (w : World) (v l : jsstring) :
  exists d, snd (fetchTranscriptDirectly w v l []) = Fetch (watchUrl v) :: d.
Proof.
  unfold fetchTranscriptDirectly.
  repeat match goal with
         | |- context [match ?x with _ => _ end] => destruct x
         end;
    cbn [fst snd app]; eexists; reflexivity.
Qed.

(** When the strategy succeeds, the page listed a track whose language code
    is exactly the requested one, and the segments are the cue-XML parse of
    the document fetched for it. *)
Lemma direct_success (w : World) (v l : jsstring) (tr : trace)
  (segs : list TranscriptItem) (tr' : trace) :
  fetchTranscriptDirectly w v l tr = (inr segs, tr') ->
  exists captured tracks t xml,
    parseTracks w captured = Some tracks
    /\ In t tracks /\ languageCode t = Some l
    /\ segs = parseTranscriptXml xml.
Proof.
  unfold fetchTranscriptDirectly.
  destruct (fetch w (watchUrl v)) as [e|st html]; [discriminate|].
  destruct (negb (response_ok st)); [discriminate|].
  destruct (match search tracksPattern1 html with
            | Some m => Some m
            | None => search tracksPattern2 html
            end) as [m|]; [|discriminate].
  destruct (parseTracks w (group 1 m)) as [tracks|] eqn:Ep; [|discriminate].
  destruct (find (is_language l) tracks) as [t|] eqn:Ef; [|discriminate].
  destruct (baseUrl t) as [[|c b]|]; try discriminate.
  destruct (fetch w _) as [e|st2 xml]; [discriminate|].
  destruct (negb (response_ok st2)); [discriminate|].
  destruct (trim xml); [discriminate|].
  intros [= <- _]. exists (group 1 m), tracks, t, xml.
  apply find_some in Ef. destruct Ef as [Hin Hl].
  unfold is_language in Hl. destruct (languageCode t) as [c'|]; [|discriminate].
  apply eqb_eq in Hl. subst c'. auto.
Qed.

(** C9.  On a page whose only caption track is [en-US], the direct-page
    strategy asked for [en] fails with 'No caption track found' after the
    page fetch and the handler answers 404, whereas it succeeds when asked
    for [en-US]; the yt-dlp handler's selection resolves [en] to the
    [en-US] entry of the same listing. *)
Theorem C9_direct_page_exact_match_only :
  fetchTranscriptDirectly enUSWorld zooId (u "en") []
    = (inl (NoTrackForLanguage (u "en")), [Fetch (watchUrl zooId)])
  /\ Route.GET enUSWorld (Some zooId) (Some (u "en"))
    = (JsonError 404 NoTranscriptInLanguage,
       [CallLibrary zooId (u "en"); Fetch (watchUrl zooId)])
  /\ Route.GET enUSWorld (Some zooId) (Some (u "en-US"))
    = (Json200 zooId [mkItem (u "All right, so here we are") (Fin (3 # 2)) (Fin 0)],
       [CallLibrary zooId (u "en-US"); Fetch (watchUrl zooId); Fetch timedtextUrl])
  /\ selectSubtitles enUSListing (u "en")
    = Some [mkSub (Some (u "vtt")) (Some timedtextUrl)].
Proof. vm_compute. repeat split. Qed.

End DirectPageFacts.

(* ================================================================== *)
(** * The handlers *)
(* ================================================================== *)

Module HandlerFacts.
Import Route DirectPage CueXml RetryFacts DirectPageFacts CueXmlFacts Json3Facts.

(** ** Entry validation *)

(** C3, counterexample.  The identifier [!!!!!!!!!!!] has eleven characters,
    none of them in the alphabet; both handlers pass it to their strategy,
    and the library-backed one answers 200. *)
Lemma C3_counterexample :
  length (u "!!!!!!!!!!!") = 11%nat
  /\ forallb Utils.id_char (u "!!!!!!!!!!!") = false
  /\ Route.GET servedWorld (Some (u "!!!!!!!!!!!")) None
     = (Json200 (u "!!!!!!!!!!!") [mkItem (u "hello") (Fin 2) (Fin (1 # 2))],
        [CallLibrary (u "!!!!!!!!!!!") (u "en")])
  /\ snd (YtDlp.GET servedWorld (Some (u "!!!!!!!!!!!")) None)
     = [CallTool (u "https://www.youtube.com/watch?v=!!!!!!!!!!!")].
Proof. vm_compute. repeat split. Qed.

Lemma route_trace_starts (w : World) (v l : jsstring) :
  exists d, snd (GET_valid w v l) = CallLibrary v l :: d.
Proof.
  unfold GET_valid.
  destruct (loop_extends w v l 4 1 None []) as [d Hd].
  change (S 4) with maxRetries in Hd.
  destruct (retryLoop w v l maxRetries 1 None []) as [ex tr]. cbn [snd] in Hd.
  subst tr. cbn [app attempt_events Nat.ltb Nat.leb].
  destruct ex as [[|i items]|e|le]; try (eexists; reflexivity).
  rewrite direct_trace.
  destruct (fetchTranscriptDirectly w v l []) as [[err|[|s segs]] d'];
    cbn [fst snd]; eexists; reflexivity.
Qed.

(** C3, amended.  Both handlers reject an absent or empty identifier and
    every identifier whose length is not 11 with status 400 before any
    outgoing call; the alphabet is not examined, so every identifier of
    length 11 reaches the strategy: the first action is the library call,
    respectively the call of yt-dlp. *)
Theorem C3_length_validation (w : World) (videoId lang : option jsstring) :
  ((videoId = None \/ exists v, videoId = Some v /\ length v <> 11%nat) ->
   (exists b, Route.GET w videoId lang = (JsonError 400 b, []))
   /\ (exists b, YtDlp.GET w videoId lang = (JsonError 400 b, [])))
  /\ (forall v, videoId = Some v -> length v = 11%nat ->
      (exists d, snd (Route.GET w videoId lang)
                 = CallLibrary v (lang_or_default lang) :: d)
      /\ (exists d, snd (YtDlp.GET w videoId lang) = CallTool (watchUrl v) :: d)).
Proof.
  split.
  - intros [->|(v & -> & Hv)]; [split; eexists; reflexivity|].
    unfold Route.GET, YtDlp.GET. destruct v as [|c v]; [split; eexists; reflexivity|].
    apply Nat.eqb_neq in Hv. rewrite Hv. split; eexists; reflexivity.
  - intros v -> Hv. unfold Route.GET, YtDlp.GET.
    destruct v as [|c v]; [discriminate|].
    apply Nat.eqb_eq in Hv. rewrite Hv. cbn [negb]. split.
    + apply route_trace_starts.
    + repeat match goal with
             | |- context [match ?x with _ => _ end] => destruct x
             end; cbn [snd app]; eexists; reflexivity.
Qed.

Lemma C3_length_validation_witness :
  ((exists b, Route.GET servedWorld (Some (u "abc")) None = (JsonError 400 b, []))
   /\ (exists b, YtDlp.GET servedWorld (Some (u "abc")) None = (JsonError 400 b, [])))
  /\ ((exists d, snd (Route.GET servedWorld (Some zooId) None)
                 = CallLibrary zooId (u "en") :: d)
      /\ (exists d, snd (YtDlp.GET servedWorld (Some zooId) None)
                    = CallTool (watchUrl zooId) :: d)).
Proof.
  split.
  - apply (C3_length_validation servedWorld (Some (u "abc")) None).
    right. exists (u "abc"). split; [reflexivity|]. vm_compute. discriminate.
  - apply (proj2 (C3_length_validation servedWorld (Some zooId) None) zooId); reflexivity.
Defined.

(** ** Runs of the library-backed handler *)

Lemma GET_valid_id (w : World) (v : jsstring) (lang : option jsstring) :
  length v = 11%nat -> Route.GET w (Some v) lang = GET_valid w v (lang_or_default lang).
Proof.
  intros Hv. unfold Route.GET. destruct v as [|c v]; [discriminate|].
  apply Nat.eqb_eq in Hv. now rewrite Hv.
Qed.

(** [n] failed attempts followed by an attempt that returns an array. *)
Lemma loop_success_after (w : World) (v l : jsstring) (n : nat) (items : list rawItem) :
  (n < maxRetries)%nat ->
  (forall k, (1 <= k <= n)%nat -> failure_at w k <> None) ->
  library w (S n) = LibArray items ->
  retryLoop w v l maxRetries 1 None []
  = (Broke items,
     flat_map (failed_attempt_events w v l) (seq 1 n) ++ attempt_events v l (S n)).
Proof.
  intros Hn Hf Hs.
  destruct (loop_failures w v l n 1 maxRetries None []) as [le' E];
    [lia | unfold maxRetries in *; lia | intros k Hk; apply Hf; lia |].
  rewrite E. destruct (maxRetries - n)%nat as [|r] eqn:Er; [lia|].
  cbn [app]. now apply loop_break.
Qed.

(** Five failed attempts. *)
Lemma loop_all_fail (w : World) (v l : jsstring) (e : jsError) :
  (forall k, (1 <= k <= maxRetries)%nat -> failure_at w k <> None) ->
  failure_at w maxRetries = Some e ->
  retryLoop w v l maxRetries 1 None []
  = (Threw e,
     flat_map (failed_attempt_events w v l) (seq 1 4) ++ attempt_events v l maxRetries).
Proof.
  intros Hf He.
  destruct (loop_failures w v l 4 1 maxRetries None []) as [le' E];
    [unfold maxRetries; lia | unfold maxRetries; lia
     | intros k Hk; apply Hf; unfold maxRetries; lia |].
  rewrite E. cbn [app]. now apply loop_throw.
Qed.

Lemma failed_events (w : World) (v l : jsstring) (k : nat) (e : jsError) :
  library w k = LibThrow e ->
  failed_attempt_events w v l k = attempt_events v l k ++ [Sleep (backoff e k)].
Proof. intros H. unfold failed_attempt_events, failure_at. now rewrite H. Qed.

Lemma backoff_values e :
  (isBlockingError e = true ->
   backoff e 1 = 3000 /\ backoff e 2 = 6000 /\ backoff e 3 = 12000 /\ backoff e 4 = 15000)%Z
  /\ (isBlockingError e = false ->
      backoff e 1 = 1000 /\ backoff e 2 = 2000 /\ backoff e 3 = 4000 /\ backoff e 4 = 5000)%Z.
Proof. unfold backoff. split; intros ->; repeat split. Qed.

Lemma backoff_min e k : (1 <= k)%nat -> (1000 <= backoff e k)%Z.
Proof.
  intros Hk. unfold backoff.
  destruct (proj2 blocking_delay_law k Hk) as [_ Hb].
  destruct (proj2 generic_delay_law k Hk) as [_ Hg].
  destruct (isBlockingError e); lia.
Qed.

(** ** Retry and backoff *)

(** C1, counterexample.  Rate limited at the first two attempts and served
    at the third, the handler suspends four times, not twice: 3000 ms and
    6000 ms of backoff, each followed by the delay that precedes every
    retry (2000 ms, 4000 ms). *)
Lemma C1_counterexample :
  isBlockingError tooManyRequests = true
  /\ Route.GET rateLimitedTwice (Some zooId) (Some (u "en"))
     = (Json200 zooId [mkItem (u "hello") (Fin 2) (Fin (1 # 2))],
        [CallLibrary zooId (u "en"); Sleep 3000; Sleep 2000;
         CallLibrary zooId (u "en"); Sleep 6000; Sleep 4000;
         CallLibrary zooId (u "en")])
  /\ length (sleeps (snd (Route.GET rateLimitedTwice (Some zooId) (Some (u "en")))))
     <> 2%nat.
Proof. vm_compute. repeat split. discriminate. Qed.

(** C1, amended.  When the library fails at the first two attempts and
    returns a non-empty array at the third, the handler answers 200 with
    the transformed items after three library calls and four suspensions:
    after each failed attempt the backoff delay of its error class, then
    the delay that precedes every attempt but the first (2000 ms, 4000 ms).
    The backoff is 3000 ms then 6000 ms for blocking or rate-limit errors
    and 1000 ms then 2000 ms for other errors; in general it doubles from
    3000 ms up to 15000 ms, respectively from 1000 ms up to 5000 ms.  Every
    suspension lasts at least 1000 ms. *)
Theorem C1_retry_backoff (w : World) (vid : jsstring) (lang : option jsstring)
  (e1 e2 : jsError) (items : list rawItem) :
  length vid = 11%nat ->
  library w 1 = LibThrow e1 -> library w 2 = LibThrow e2 ->
  library w 3 = LibArray items -> items <> [] ->
  let l := lang_or_default lang in
  let tr := [CallLibrary vid l; Sleep (backoff e1 1); Sleep 2000;
             CallLibrary vid l; Sleep (backoff e2 2); Sleep 4000;
             CallLibrary vid l] in
  Route.GET w (Some vid) lang = (Json200 vid (map transform items), tr)
  /\ sleeps tr = [backoff e1 1; 2000%Z; backoff e2 2; 4000%Z]
  /\ Forall (fun d => (1000 <= d)%Z) (sleeps tr)
  /\ (isBlockingError e1 = true -> isBlockingError e2 = true ->
      sleeps tr = [3000; 2000; 6000; 4000]%Z)
  /\ (isBlockingError e1 = false -> isBlockingError e2 = false ->
      sleeps tr = [1000; 2000; 2000; 4000]%Z)
  /\ (blocking_delay 1 = 3000%Z
      /\ forall a, (1 <= a)%nat ->
           blocking_delay (S a) = Z.min (2 * blocking_delay a) 15000
           /\ (3000 <= blocking_delay a <= 15000)%Z)
  /\ (generic_delay 1 = 1000%Z
      /\ forall a, (1 <= a)%nat ->
           generic_delay (S a) = Z.min (2 * generic_delay a) 5000
           /\ (1000 <= generic_delay a <= 5000)%Z).
Proof.
  intros Hv H1 H2 H3 Hne l tr.
  split; [|split; [reflexivity|split; [|split; [|split; [|split]]]]].
  - rewrite (GET_valid_id w vid lang Hv). fold l. unfold GET_valid.
    rewrite (loop_success_after w vid l 2 items).
    + cbn [seq flat_map]. rewrite (failed_events w vid l 1 e1 H1).
      rewrite (failed_events w vid l 2 e2 H2).
      destruct items as [|i items]; [now elim Hne|]. reflexivity.
    + unfold maxRetries. lia.
    + intros k Hk. unfold failure_at.
      assert (K : k = 1%nat \/ k = 2%nat) by lia.
      destruct K as [-> | ->]; [rewrite H1|rewrite H2]; discriminate.
    + exact H3.
  - cbn [sleeps tr flat_map app].
    repeat constructor; try lia; apply backoff_min; lia.
  - intros B1 B2. cbn [sleeps tr flat_map app].
    destruct (proj1 (backoff_values e1) B1) as (-> & _).
    destruct (proj1 (backoff_values e2) B2) as (_ & -> & _). reflexivity.
  - intros B1 B2. cbn [sleeps tr flat_map app].
    destruct (proj2 (backoff_values e1) B1) as (-> & _).
    destruct (proj2 (backoff_values e2) B2) as (_ & -> & _). reflexivity.
  - exact blocking_delay_law.
  - exact generic_delay_law.
Qed.

Lemma C1_retry_backoff_witness :
  Route.GET rateLimitedTwice (Some zooId) (Some (u "en"))
  = (Json200 zooId (map transform [hello]),
     [CallLibrary zooId (u "en"); Sleep (backoff tooManyRequests 1); Sleep 2000;
      CallLibrary zooId (u "en"); Sleep (backoff tooManyRequests 2); Sleep 4000;
      CallLibrary zooId (u "en")]).
Proof.
  apply (C1_retry_backoff rateLimitedTwice zooId (Some (u "en"))
           tooManyRequests tooManyRequests [hello]);
    try reflexivity. discriminate.
Defined.

(** ** Errors that the classifier does not consider transient *)

(** C8, counterexample.  The error 'Transcript is disabled on this video'
    is not a blocking error, yet the library is called five times, with
    eight suspensions in between, before the handler answers 404. *)
Lemma C8_counterexample :
  isBlockingError captionsDisabled = false
  /\ fst (Route.GET disabledWorld (Some zooId) None)
     = JsonError 404 NoTranscriptAvailable
  /\ library_calls (snd (Route.GET disabledWorld (Some zooId) None)) = 5%nat
  /\ sleeps (snd (Route.GET disabledWorld (Some zooId) None))
     = [1000; 2000; 2000; 4000; 4000; 6000; 5000; 8000]%Z
  /\ fetches (snd (Route.GET disabledWorld (Some zooId) None)) = [].
Proof. vm_compute. repeat split. Qed.

(** C8, amended.  The retry loop has no class of errors that ends it early:
    whatever the library throws, the attempt is repeated while attempts
    remain, after the backoff delay of the error (the generic one, from
    1000 ms up to 5000 ms, for every error that is not a blocking or
    rate-limit error).  When all five attempts fail, the handler answers
    with the error response of the fifth error and does not try the
    direct-page strategy. *)
Theorem C8_every_error_is_retried (w : World) (vid : jsstring)
  (lang : option jsstring) (e : nat -> jsError) :
  length vid = 11%nat ->
  (forall k, (1 <= k <= 5)%nat -> library w k = LibThrow (e k)) ->
  let l := lang_or_default lang in
  let tr := [CallLibrary vid l; Sleep (backoff (e 1%nat) 1); Sleep 2000;
             CallLibrary vid l; Sleep (backoff (e 2%nat) 2); Sleep 4000;
             CallLibrary vid l; Sleep (backoff (e 3%nat) 3); Sleep 6000;
             CallLibrary vid l; Sleep (backoff (e 4%nat) 4); Sleep 8000;
             CallLibrary vid l] in
  Route.GET w (Some vid) lang = (errorResponse (e 5%nat), tr)
  /\ library_calls tr = 5%nat
  /\ fetches tr = []
  /\ (forall k, isBlockingError (e k) = false -> backoff (e k) k = generic_delay k).
Proof.
  intros Hv He l tr. split; [|split; [reflexivity|split; [reflexivity|]]].
  - rewrite (GET_valid_id w vid lang Hv). fold l. unfold GET_valid.
    rewrite (loop_all_fail w vid l (e 5%nat)).
    + cbn [seq flat_map].
      rewrite (failed_events w vid l 1 (e 1%nat)) by (apply He; lia).
      rewrite (failed_events w vid l 2 (e 2%nat)) by (apply He; lia).
      rewrite (failed_events w vid l 3 (e 3%nat)) by (apply He; lia).
      rewrite (failed_events w vid l 4 (e 4%nat)) by (apply He; lia).
      reflexivity.
    + intros k Hk. unfold failure_at. rewrite (He k Hk). discriminate.
    + unfold failure_at, maxRetries. rewrite (He 5%nat) by lia. reflexivity.
  - intros k Hk. unfold backoff. now rewrite Hk.
Qed.

Lemma C8_every_error_is_retried_witness :
  Route.GET disabledWorld (Some zooId) None
  = (errorResponse captionsDisabled,
     [CallLibrary zooId (u "en"); Sleep (backoff captionsDisabled 1); Sleep 2000;
      CallLibrary zooId (u "en"); Sleep (backoff captionsDisabled 2); Sleep 4000;
      CallLibrary zooId (u "en"); Sleep (backoff captionsDisabled 3); Sleep 6000;
      CallLibrary zooId (u "en"); Sleep (backoff captionsDisabled 4); Sleep 8000;
      CallLibrary zooId (u "en")]).
Proof.
  apply (C8_every_error_is_retried disabledWorld zooId None (fun _ => captionsDisabled)).
  - reflexivity.
  - intros k _. reflexivity.
Defined.

(** ** Fallback to the direct-page strategy *)

Lemma parseFloat_shape (s : jsstring) :
  parseFloat s = NaN \/ (exists b, parseFloat s = Inf b)
  \/ exists q, parseFloat s = Fin (Qred q).
Proof.
  unfold parseFloat.
  repeat match goal with
         | |- context [match ?x with _ => _ end] => destruct x
         end; eauto.
Qed.

(** A parsed number is left alone by [|| 0] unless it is [NaN]. *)
Lemma parseFloat_settled (s : jsstring) :
  parseFloat s <> NaN -> or_else (parseFloat s) zero = parseFloat s.
Proof.
  destruct (parseFloat_shape s) as [->|[[b ->]|[q ->]]]; intros H.
  - now elim H.
  - reflexivity.
  - unfold or_else, truthy, is_zero.
    destruct (Qnum (Qred q) =? 0)%Z eqn:E; cbn [negb]; [|reflexivity].
    apply Z.eqb_eq in E. rewrite (Qred_num_zero _ E). reflexivity.
Qed.

Lemma transform_asRaw (it : TranscriptItem) : transform (asRaw it) = settle it.
Proof.
  unfold transform, asRaw, settle, first_truthy, opt_truthy, or_else; simpl.
  destruct (truthy (duration it)), (truthy (offset it)); reflexivity.
Qed.

Lemma settle_parsed (xml : jsstring) (it : TranscriptItem) :
  In it (parseTranscriptXml xml) ->
  duration it <> NaN -> offset it <> NaN -> settle it = it.
Proof.
  intros H. apply collect_In in H. destruct H as (m & _ & H).
  unfold segmentOf in H. destruct (decodeText (group 3 m)); [discriminate|].
  injection H as <-. unfold settle. cbn [text duration offset]. intros Hd Ho.
  now rewrite !parseFloat_settled.
Qed.

(** What the handler's transformation does to one timing of a parsed cue:
    a number is kept, [NaN] is answered as 0. *)
Lemma or_else_parsed (s : jsstring) :
  (parseFloat s <> NaN -> or_else (parseFloat s) zero = parseFloat s)
  /\ (parseFloat s = NaN -> or_else (parseFloat s) zero = zero).
Proof.
  split; [apply parseFloat_settled|]. intros ->. reflexivity.
Qed.

Lemma settle_fields (xml : jsstring) (it : TranscriptItem) :
  In it (parseTranscriptXml xml) ->
  (offset it <> NaN -> offset (settle it) = offset it)
  /\ (offset it = NaN -> offset (settle it) = zero)
  /\ (duration it <> NaN -> duration (settle it) = duration it)
  /\ (duration it = NaN -> duration (settle it) = zero).
Proof.
  intros H. apply collect_In in H. destruct H as (m & _ & H).
  unfold segmentOf in H. destruct (decodeText (group 3 m)); [discriminate|].
  injection H as <-. unfold settle. cbn [text duration offset].
  destruct (or_else_parsed (group 1 m)) as [A B].
  destruct (or_else_parsed (group 2 m)) as [C D]. auto.
Qed.

(** C2, counterexample.  The library returns an empty array and the
    direct-page strategy returns one segment, read from a cue whose [start]
    is [abc]: the strategy's segment has the offset [NaN], the handler
    answers the offset 0.  The final result is not the later strategy's
    sequence of segments. *)
Lemma C2_counterexample :
  library nanWorld 1 = LibArray []
  /\ fetchTranscriptDirectly nanWorld zooId (u "en-US") []
     = (inr [mkItem (u "All right, so here we are") (Fin (3 # 2)) NaN],
        [Fetch (watchUrl zooId); Fetch timedtextUrl])
  /\ Route.GET nanWorld (Some zooId) (Some (u "en-US"))
     = (Json200 zooId [mkItem (u "All right, so here we are") (Fin (3 # 2)) (Fin 0)],
        [CallLibrary zooId (u "en-US"); Fetch (watchUrl zooId); Fetch timedtextUrl])
  /\ [mkItem (u "All right, so here we are") (Fin (3 # 2)) (Fin 0)]
     <> [mkItem (u "All right, so here we are") (Fin (3 # 2)) NaN].
Proof.
  split; [reflexivity|]. split; [vm_compute; reflexivity|].
  split; [vm_compute; reflexivity|]. intros H. discriminate H.
Qed.

(** C2, amended.  When the library-backed strategy ends with an empty array
    (at the first attempt or after failed ones), the handler runs the
    direct-page strategy and its outcome decides: a non-empty sequence of
    segments is the final result (status 200) after the handler's
    transformation, which keeps their number, order and texts and every
    timing that is a number, and answers 0 for a timing that is [NaN];
    otherwise the handler answers 404.  The empty result of the earlier
    strategy is never the final result. *)
Theorem C2_fallback_after_empty_result (w : World) (vid : jsstring)
  (lang : option jsstring) (n : nat) :
  length vid = 11%nat -> (n < maxRetries)%nat ->
  (forall k, (1 <= k <= n)%nat -> failure_at w k <> None) ->
  library w (S n) = LibArray [] ->
  match fetchTranscriptDirectly w vid (lang_or_default lang) [] with
  | (inr ((_ :: _) as segs), d) =>
      (exists tr, Route.GET w (Some vid) lang
                  = (Json200 vid (map settle segs), tr ++ d))
      /\ length (map settle segs) = length segs
      /\ map text (map settle segs) = map text segs
      /\ (forall it, In it segs ->
            duration it <> NaN -> offset it <> NaN -> settle it = it)
      /\ (forall it, In it segs ->
            (offset it <> NaN -> offset (settle it) = offset it)
            /\ (offset it = NaN -> offset (settle it) = zero)
            /\ (duration it <> NaN -> duration (settle it) = duration it)
            /\ (duration it = NaN -> duration (settle it) = zero))
  | (_, d) =>
      exists tr, Route.GET w (Some vid) lang
                 = (JsonError 404 NoTranscriptInLanguage, tr ++ d)
  end.
Proof.
  intros Hv Hn Hf He. set (l := lang_or_default lang).
  rewrite (GET_valid_id w vid lang Hv). fold l. unfold GET_valid.
  rewrite (loop_success_after w vid l n [] Hn Hf He).
  rewrite (direct_trace w vid l (_ ++ _)).
  destruct (fetchTranscriptDirectly w vid l []) as [[err|[|s segs]] d] eqn:E;
    cbn [fst snd]; try (eexists; reflexivity).
  apply direct_success in E.
  destruct E as (_ & _ & _ & xml & _ & _ & _ & Exml).
  split; [|split; [|split; [|split]]].
  - eexists. rewrite <- (map_ext _ _ transform_asRaw), map_map. reflexivity.
  - apply length_map.
  - rewrite map_map. reflexivity.
  - intros it Hin. rewrite Exml in Hin. now apply settle_parsed with (xml := xml).
  - intros it Hin. rewrite Exml in Hin. now apply settle_fields with (xml := xml).
Qed.

Lemma C2_fallback_after_empty_result_witness :
  exists tr, Route.GET enUSWorld (Some zooId) (Some (u "en-US"))
             = (Json200 zooId (map settle [mkItem (u "All right, so here we are")
                                                  (Fin (3 # 2)) (Fin 0)]),
                tr ++ [Fetch (watchUrl zooId); Fetch timedtextUrl]).
Proof.
  pose proof (C2_fallback_after_empty_result enUSWorld zooId (Some (u "en-US")) 0) as H.
  vm_compute in H. vm_compute.
  apply H; try reflexivity; lia.
Defined.

(** In the yt-dlp backed handler, whose only strategy is also its last,
    an empty result is a success: status 200 with no segment. *)
Example ytdlp_empty_result_is_success :
  YtDlp.GET noEventsWorld (Some zooId) None
  = (Json200 zooId [], [CallTool (watchUrl zooId); Fetch json3Url]).
Proof. vm_compute. reflexivity. Qed.

End HandlerFacts.

(* ================================================================== *)
(** * Further properties: video identifier extraction *)
(* ================================================================== *)

Module UtilsMore.
Import Utils StringFacts RegexFacts.

(** A pattern that cannot match where [p] does not start matches nowhere
    in a text without [p]. *)
Lemma search_excluded (r : re) (p : jsstring) :
  (forall t, startsWith t p = false -> rmatch r t = []) ->
  forall s, includes s p = false -> search r s = None.
Proof.
  intros Hr. induction s as [|c s IH]; rewrite includes_unfold;
    intros H; apply orb_false_iff in H; destruct H as [H1 H2]; simpl.
  - now rewrite (Hr [] H1).
  - rewrite (Hr (c :: s) H1). fold (search r s). now rewrite (IH H2).
Qed.

Lemma literal_needs_head (p l : jsstring) (t : jsstring) :
  startsWith t p = false -> strip_prefix (p ++ l) t = None.
Proof.
  unfold startsWith. rewrite strip_prefix_app.
  destruct (strip_prefix p t); [discriminate|reflexivity].
Qed.

Lemma patterns_need_youtu (t : jsstring) :
  startsWith t (u "youtu") = false ->
  rmatch watchPattern t = [] /\ rmatch shortPattern t = []
  /\ rmatch embedPattern t = [].
Proof.
  intros H.
  assert (A : strip_prefix (u "youtube.com/watch?v=") t = None)
    by exact (literal_needs_head (u "youtu") (u "be.com/watch?v=") t H).
  assert (B : strip_prefix (u "youtu.be/") t = None)
    by exact (literal_needs_head (u "youtu") (u ".be/") t H).
  assert (C : strip_prefix (u "youtube.com/embed/") t = None)
    by exact (literal_needs_head (u "youtu") (u "be.com/embed/") t H).
  unfold watchPattern, shortPattern, embedPattern. cbn [rmatch].
  rewrite A, B, C. repeat split.
Qed.

(** X1.  A text in which [youtu] does not occur, a bare identifier for
    instance, is not recognised. *)
Theorem extractVideoId_needs_youtu (url : jsstring) :
  includes url (u "youtu") = false ->
  extractVideoId url = None /\ isValidYouTubeUrl url = false.
Proof.
  intros H.
  assert (E : extractVideoId url = None).
  { unfold extractVideoId. destruct url as [|c url]; [reflexivity|].
    apply trim_excludes in H.
    rewrite (search_excluded watchPattern (u "youtu")
               (fun t Ht => proj1 (patterns_need_youtu t Ht)) _ H).
    rewrite (search_excluded shortPattern (u "youtu")
               (fun t Ht => proj1 (proj2 (patterns_need_youtu t Ht))) _ H).
    rewrite (search_excluded embedPattern (u "youtu")
               (fun t Ht => proj2 (proj2 (patterns_need_youtu t Ht))) _ H).
    reflexivity. }
  split; [exact E|]. unfold isValidYouTubeUrl. now rewrite E.
Qed.

Lemma extractVideoId_needs_youtu_witness :
  extractVideoId (u "jNQXAC9IVRw") = None
  /\ isValidYouTubeUrl (u "jNQXAC9IVRw") = false.
Proof. apply extractVideoId_needs_youtu. vm_compute. reflexivity. Defined.

(** ** White space around the address *)

Lemma trimStart_spaces (a s : jsstring) :
  all_space a = true -> trimStart (a ++ s) = trimStart s.
Proof.
  unfold trimStart, all_space. induction a as [|c a IH]; simpl; [reflexivity|].
  intros H. apply andb_true_iff in H. destruct H as [Hc Ha]. rewrite Hc. auto.
Qed.

Lemma all_space_rev (b : jsstring) : all_space b = true -> all_space (rev b) = true.
Proof.
  unfold all_space. rewrite !forallb_forall. intros H x Hx.
  apply H. now apply In_rev.
Qed.

Lemma trimEnd_spaces (s b : jsstring) :
  all_space b = true -> trimEnd (s ++ b) = trimEnd s.
Proof.
  intros H. unfold trimEnd. rewrite rev_app_distr.
  change (dropWhile is_space (rev b ++ rev s)) with (trimStart (rev b ++ rev s)).
  rewrite trimStart_spaces by now apply all_space_rev. reflexivity.
Qed.

Lemma trimStart_all_space (b : jsstring) : all_space b = true -> trimStart b = [].
Proof.
  intros H. rewrite <- (app_nil_r b). now rewrite trimStart_spaces.
Qed.

Lemma trimStart_app (s b : jsstring) :
  trimStart s <> [] -> trimStart (s ++ b) = trimStart s ++ b.
Proof.
  unfold trimStart. induction s as [|c s IH]; simpl; [intros H; now elim H|].
  destruct (is_space c); [exact IH|reflexivity].
Qed.

Lemma trim_spaces (a s b : jsstring) :
  all_space a = true -> all_space b = true -> trim (a ++ s ++ b) = trim s.
Proof.
  intros Ha Hb. unfold trim. rewrite trimStart_spaces by exact Ha.
  destruct (trimStart s) as [|c t] eqn:E.
  - assert (Hs : all_space s = true).
    { unfold all_space, trimStart in *. induction s as [|x s IH]; [reflexivity|].
      simpl in *. destruct (is_space x); [auto|discriminate]. }
    rewrite <- (app_nil_r (s ++ b)), <- app_assoc, trimStart_spaces by exact Hs.
    rewrite app_nil_r, trimStart_all_space by exact Hb. reflexivity.
  - rewrite trimStart_app by (rewrite E; discriminate).
    rewrite E. now apply trimEnd_spaces.
Qed.

(** X2.  White space before and after the address is ignored. *)
Theorem extractVideoId_ignores_spaces (a url b : jsstring) :
  all_space a = true -> all_space b = true ->
  extractVideoId (a ++ url ++ b) = extractVideoId url.
Proof.
  intros Ha Hb.
  assert (F : forall s, extractVideoId s
    = match first_group (search watchPattern (trim s)) with
      | Some id => Some id
      | None =>
          match first_group (search shortPattern (trim s)) with
          | Some id => Some id
          | None =>
              match first_group (search embedPattern (trim s)) with
              | Some id => Some id
              | None => None
              end
          end
      end).
  { intros [|c s]; reflexivity. }
  rewrite (F (a ++ url ++ b)), (F url), (trim_spaces a url b Ha Hb). reflexivity.
Qed.

Lemma extractVideoId_ignores_spaces_witness :
  extractVideoId (u "  " ++ u "https://youtu.be/jNQXAC9IVRw" ++ [10])
  = extractVideoId (u "https://youtu.be/jNQXAC9IVRw").
Proof. apply extractVideoId_ignores_spaces; reflexivity. Defined.

(** ** Addresses built from an identifier *)

Lemma id_char_not_space (c : char) : id_char c = true -> is_space c = false.
Proof.
  intros H. destruct (is_space c) eqn:S; [|reflexivity]. exfalso.
  unfold id_char in H. unfold is_space in S.
  repeat first [ rewrite orb_true_iff in H | rewrite andb_true_iff in H
               | rewrite N.leb_le in H | rewrite N.eqb_eq in H ].
  repeat first [ rewrite orb_true_iff in S | rewrite andb_true_iff in S
               | rewrite N.leb_le in S | rewrite N.eqb_eq in S ].
  lia.
Qed.

Lemma run_length_exact (p : char -> bool) (a : jsstring) : forall rest,
  forallb p a = true ->
  run_length p (Some (length a)) (a ++ rest) = length a.
Proof.
  induction a as [|c a IH]; intros rest H; [destruct rest; reflexivity|].
  simpl in H. apply andb_true_iff in H. destruct H as [Hc Ha].
  cbn [length app run_length option_map Nat.pred]. rewrite Hc. f_equal. now apply IH.
Qed.

Lemma rmatch_id11 (id rest : jsstring) :
  well_formed_id id -> rmatch id11 (id ++ rest) = [([id], id, rest)].
Proof.
  intros [Hl Hc]. unfold id11. cbn [rmatch]. rewrite <- Hl at 2.
  rewrite (run_length_exact id_char id rest Hc), Hl.
  change (rep_lengths 11 11 true) with [11%nat]. cbn [map].
  rewrite <- Hl, firstn_app, skipn_app, Nat.sub_diag, firstn_all, skipn_all.
  cbn [firstn skipn]. now rewrite app_nil_r.
Qed.

Lemma rmatch_watchPattern (s : jsstring) :
  rmatch watchPattern s
  = flat_map (fun '(c1, m1, r1) =>
                map (fun '(c2, m2, r2) => (c1 ++ c2, m1 ++ m2, r2)) (rmatch id11 r1))
      (rmatch (RLit (u "youtube.com/watch?v=")) s
       ++ rmatch (RLit (u "youtu.be/")) s
       ++ rmatch (RLit (u "youtube.com/embed/")) s).
Proof. reflexivity. Qed.

(** At the place where one of the three literals starts and a well-formed
    identifier follows, the pattern matches and captures the identifier. *)
Lemma watchPattern_at (l id rest : jsstring) :
  well_formed_id id ->
  rmatch (RLit (u "youtube.com/watch?v=")) (l ++ id ++ rest)
  ++ rmatch (RLit (u "youtu.be/")) (l ++ id ++ rest)
  ++ rmatch (RLit (u "youtube.com/embed/")) (l ++ id ++ rest)
  = [([], l, id ++ rest)] ->
  rmatch watchPattern (l ++ id ++ rest) = [([id], l ++ id, rest)].
Proof.
  intros Hw E. rewrite rmatch_watchPattern, E. cbn [flat_map].
  rewrite (rmatch_id11 id rest Hw). reflexivity.
Qed.

Lemma found_id (pre l id rest : jsstring) :
  well_formed_id id ->
  first_group (Some (mkFound pre [id] l rest)) = Some id.
Proof. intros [Hl _]. destruct id; [discriminate|reflexivity]. Qed.

Lemma search_prefix (r : re) (pre s : jsstring) (c m rest : _) :
  (forall a b, pre = a ++ b -> b <> [] -> rmatch r (b ++ s) = []) ->
  rmatch r s = [(c, m, rest)] ->
  search r (pre ++ s) = Some (mkFound pre c m rest).
Proof.
  intros Hpre Hs. induction pre as [|x pre IH].
  - now apply search_hit with (l := []).
  - cbn [app]. rewrite search_skip.
    + rewrite IH; [reflexivity|]. intros a b E Hb. apply (Hpre (x :: a) b); [|exact Hb].
      now rewrite E.
    + apply (Hpre [] (x :: pre)); [reflexivity|discriminate].
Qed.

Ltac no_match_in_prefix :=
  let a := fresh "a" in let b := fresh "b" in
  let E := fresh "E" in let Hb := fresh "Hb" in
  intros a b E Hb;
  repeat (destruct a as [|? a];
          [cbn [app] in E; subst b; reflexivity | injection E as _ E]);
  destruct a; [cbn [app] in E; subst b; now elim Hb | discriminate E].

Lemma watch_found (id rest : jsstring) :
  well_formed_id id ->
  first_group (search watchPattern (watchAddress id rest)) = Some id.
Proof.
  intros Hw. unfold watchAddress.
  set (s := u "youtube.com/watch?v=" ++ id ++ rest).
  let p := eval vm_compute in (u "https://www.") in
  change (u "https://www.youtube.com/watch?v=" ++ id ++ rest) with (p ++ s).
  erewrite search_prefix; [now apply found_id| |].
  - subst s. no_match_in_prefix.
  - subst s. apply (watchPattern_at _ id rest Hw).
    rewrite rmatch_lit_hit. reflexivity.
Qed.

Lemma short_found (id rest : jsstring) :
  well_formed_id id ->
  first_group (search watchPattern (shortAddress id rest)) = Some id.
Proof.
  intros Hw. unfold shortAddress.
  set (s := u "youtu.be/" ++ id ++ rest).
  let p := eval vm_compute in (u "https://") in
  change (u "https://youtu.be/" ++ id ++ rest) with (p ++ s).
  erewrite search_prefix; [now apply found_id| |].
  - subst s. no_match_in_prefix.
  - subst s. apply (watchPattern_at _ id rest Hw).
    rewrite rmatch_lit_hit. reflexivity.
Qed.

Lemma embed_found (id rest : jsstring) :
  well_formed_id id ->
  first_group (search watchPattern (embedAddress id rest)) = Some id.
Proof.
  intros Hw. unfold embedAddress.
  set (s := u "youtube.com/embed/" ++ id ++ rest).
  let p := eval vm_compute in (u "https://www.") in
  change (u "https://www.youtube.com/embed/" ++ id ++ rest) with (p ++ s).
  erewrite search_prefix; [now apply found_id| |].
  - subst s. no_match_in_prefix.
  - subst s. apply (watchPattern_at _ id rest Hw).
    rewrite rmatch_lit_hit. reflexivity.
Qed.

Lemma dropWhile_app_keep (f : char -> bool) (l r : jsstring) (c : char) :
  f c = false -> dropWhile f (l ++ c :: r) = dropWhile f l ++ c :: r.
Proof.
  intros Hc. induction l as [|x l IH]; simpl; [now rewrite Hc|].
  destruct (f x); [exact IH|reflexivity].
Qed.

Lemma trimEnd_after (a : jsstring) (c : char) (b : jsstring) :
  is_space c = false -> trimEnd (a ++ c :: b) = a ++ c :: trimEnd b.
Proof.
  intros Hc. unfold trimEnd. rewrite rev_app_distr. cbn [rev].
  rewrite <- app_assoc. cbn [app].
  rewrite dropWhile_app_keep by exact Hc.
  rewrite rev_app_distr. cbn [rev]. rewrite rev_involutive, <- app_assoc.
  reflexivity.
Qed.

(** Trimming an address that starts with [h] and carries a well-formed
    identifier only shortens what follows the identifier. *)
Lemma trim_address (pre id rest : jsstring) :
  well_formed_id id -> trimStart (pre ++ id ++ rest) = pre ++ id ++ rest ->
  trim (pre ++ id ++ rest) = pre ++ id ++ trimEnd rest.
Proof.
  intros [Hl Hc] Hs. unfold trim. rewrite Hs.
  destruct (exists_last (l := id)) as (id' & c & E);
    [intros ->; discriminate|].
  subst id. rewrite forallb_app in Hc. apply andb_true_iff in Hc.
  destruct Hc as [_ Hc]. simpl in Hc. rewrite andb_true_r in Hc.
  apply id_char_not_space in Hc.
  replace (pre ++ (id' ++ [c]) ++ rest) with ((pre ++ id') ++ c :: rest)
    by (now rewrite <- !app_assoc).
  rewrite (trimEnd_after (pre ++ id') c rest Hc). now rewrite <- !app_assoc.
Qed.

(** X3.  Round trip: a watch, short or embed address built from a
    well-formed identifier, followed by anything, gives the identifier
    back. *)
Theorem extractVideoId_of_address (id rest : jsstring) :
  length id = 11%nat -> forallb id_char id = true ->
  extractVideoId (watchAddress id rest) = Some id
  /\ extractVideoId (shortAddress id rest) = Some id
  /\ extractVideoId (embedAddress id rest) = Some id.
Proof.
  intros Hl Hc. assert (Hw : well_formed_id id) by (split; assumption).
  repeat split.
  - unfold extractVideoId, watchAddress.
    destruct (u "https://www.youtube.com/watch?v=" ++ id ++ rest) eqn:E;
      [discriminate|]. rewrite <- E.
    rewrite (trim_address (u "https://www.youtube.com/watch?v=") id rest Hw eq_refl).
    fold (watchAddress id (trimEnd rest)). now rewrite watch_found.
  - unfold extractVideoId, shortAddress.
    destruct (u "https://youtu.be/" ++ id ++ rest) eqn:E; [discriminate|].
    rewrite <- E.
    rewrite (trim_address (u "https://youtu.be/") id rest Hw eq_refl).
    fold (shortAddress id (trimEnd rest)). now rewrite short_found.
  - unfold extractVideoId, embedAddress.
    destruct (u "https://www.youtube.com/embed/" ++ id ++ rest) eqn:E;
      [discriminate|]. rewrite <- E.
    rewrite (trim_address (u "https://www.youtube.com/embed/") id rest Hw eq_refl).
    fold (embedAddress id (trimEnd rest)). now rewrite embed_found.
Qed.

Lemma extractVideoId_of_address_witness :
  extractVideoId (watchAddress (u "dQw4w9WgXcQ") (u "&list=PL1"))
    = Some (u "dQw4w9WgXcQ")
  /\ extractVideoId (shortAddress (u "dQw4w9WgXcQ") (u "&list=PL1"))
    = Some (u "dQw4w9WgXcQ")
  /\ extractVideoId (embedAddress (u "dQw4w9WgXcQ") (u "&list=PL1"))
    = Some (u "dQw4w9WgXcQ").
Proof. apply extractVideoId_of_address; reflexivity. Defined.

End UtilsMore.

(* ================================================================== *)
(** * Further properties: the cue-XML parser and the direct-page strategy *)
(* ================================================================== *)

Module CueXmlMore.
Import CueXml DirectPage StringFacts RegexFacts CueXmlFacts UtilsMore.

(** X4.  A document in which [<text] does not occur, the empty document
    for instance, has no segment. *)
Theorem parseTranscriptXml_without_cue (xml : jsstring) :
  includes xml (u "<text") = false -> parseTranscriptXml xml = [].
Proof.
  intros H. unfold parseTranscriptXml, textMatches.
  rewrite (matchAll_none pattern1 xml) by (now apply search_literal_head).
  rewrite (matchAll_none pattern2 xml) by (now apply search_literal_head).
  rewrite (matchAll_none pattern3 xml) by (now apply search_literal_head).
  reflexivity.
Qed.

Lemma parseTranscriptXml_without_cue_witness :
  parseTranscriptXml (u "<?xml version='1.0'?><transcript></transcript>") = [].
Proof. apply parseTranscriptXml_without_cue. vm_compute. reflexivity. Defined.



(** ** [baseUrl] unescaping *)

Lemma unescape_amp_pass (pieces : list jsstring) :
  Forall (fun p => ~ In bs p) pieces ->
  replaceAll escapedAmp (u "&") (join escapedAmp pieces) = join (u "&") pieces.
Proof.
  induction pieces as [|x [|y l] IH]; intros H.
  - reflexivity.
  - cbn [join]. unfold replaceAll. apply replaceAll_go_absent.
    now inversion H.
  - change (join escapedAmp (x :: y :: l))
      with (x ++ escapedAmp ++ join escapedAmp (y :: l)).
    change (join (u "&") (x :: y :: l)) with (x ++ u "&" ++ join (u "&") (y :: l)).
    inversion H as [|? ? Hx Hl]; subst.
    unfold escapedAmp at 1. rewrite replaceAll_past by exact Hx.
    fold escapedAmp. rewrite replaceAll_hit by discriminate.
    now rewrite (IH Hl).
Qed.

Lemma join_clean (pieces : list jsstring) :
  Forall (fun p => ~ In bs p) pieces -> ~ In bs (join (u "&") pieces).
Proof.
  induction pieces as [|x [|y l] IH]; intros H; inversion H as [|? ? Hx Hl]; subst.
  - intros [].
  - exact Hx.
  - change (join (u "&") (x :: y :: l)) with (x ++ u "&" ++ join (u "&") (y :: l)).
    rewrite !in_app_iff. intros [Hin|[Hin|Hin]].
    + now apply Hx.
    + vm_compute in Hin. intuition discriminate.
    + now apply (IH Hl).
Qed.

(** X6.  An embedded address in which every [&] is written as the escape
    backslash-u0026, and which has no other backslash, is decoded to the
    address with plain [&] separators. *)
Theorem unescapeUrl_ampersands (pieces : list jsstring) :
  Forall (fun p => ~ In bs p) pieces ->
  unescapeUrl (join escapedAmp pieces) = join (u "&") pieces.
Proof.
  intros H. unfold unescapeUrl. fold escapedAmp.
  rewrite (unescape_amp_pass pieces H).
  pose proof (join_clean pieces H) as Hc. unfold replaceAll.
  rewrite (replaceAll_go_absent bs (u "u003D") (u "=") _ _ Hc).
  rewrite (replaceAll_go_absent bs [dq] [dq] _ _ Hc).
  apply (replaceAll_go_absent bs [bs] [bs] _ _ Hc).
Qed.

Lemma unescapeUrl_ampersands_witness :
  unescapeUrl (join escapedAmp [u "https://www.youtube.com/api/timedtext?v=jNQXAC9IVRw";
                                u "lang=en"; u "fmt=3"])
  = join (u "&") [u "https://www.youtube.com/api/timedtext?v=jNQXAC9IVRw";
                  u "lang=en"; u "fmt=3"].
Proof.
  apply unescapeUrl_ampersands.
  repeat constructor; vm_compute; intuition discriminate.
Defined.

(** ** Documents of several cue elements *)

Lemma common_prefix (x : char) (s : jsstring) : forall l b r,
  b ++ x :: s = l ++ r -> ~ In x l -> exists b', b = l ++ b'.
Proof.
  induction l as [|y l IH]; intros b r E Hx; [now exists b|].
  destruct b as [|c b]; cbn [app] in E.
  - injection E as -> _. elim Hx. now left.
  - injection E as -> E. destruct (IH b r E) as [b' ->].
    + intros H. apply Hx. now right.
    + now exists b'.
Qed.

(** A literal whose first character does not come back in it is not found
    across the end of a text that does not start with it. *)
Lemma strip_prefix_straddle (x : char) (l b s : jsstring) :
  ~ In x l -> b <> [] -> startsWith b (x :: l) = false ->
  strip_prefix (x :: l) (b ++ x :: s) = None.
Proof.
  intros Hx Hb Hs.
  destruct (strip_prefix (x :: l) (b ++ x :: s)) as [r|] eqn:E; [exfalso|reflexivity].
  apply strip_prefix_spec in E. destruct b as [|c b]; [now elim Hb|].
  cbn [app] in E. injection E as -> E.
  destruct (common_prefix x s l b r E Hx) as [b' ->].
  unfold startsWith in Hs.
  assert (H : strip_prefix (x :: l) (x :: l ++ b') = Some b')
    by now apply (strip_prefix_spec (x :: l)).
  now rewrite H in Hs.
Qed.

Lemma pattern1_consuming :
  forall s c m rest, In (c, m, rest) (rmatch pattern1 s) -> m <> [].
Proof. apply (literal_head_consuming 60 (u "text")). Qed.

Lemma search_cue (gap : jsstring) (c : cueElement) (rest : jsstring) :
  includes gap (u "<text") = false -> wellFormedCue c ->
  exists m, search pattern1 (gap ++ renderCue c ++ rest)
            = Some (mkFound gap [cueStart c; cueDur c; cueBody c] m rest).
Proof.
  intros Hg (Hs & Hsq & Hd & Hdq & Hb).
  destruct (pattern1_cue c rest Hs Hsq Hd Hdq Hb) as (m & l & E).
  exists m. apply (search_after pattern1 gap _ _ _ _ l); [|exact E].
  intros a b -> Hne. apply (literal_head_miss (u "<text")).
  rewrite renderCue_app.
  apply (strip_prefix_straddle 60 (u "text") b); [|exact Hne|].
  - vm_compute. intuition discriminate.
  - apply excludes_suffix in Hg. rewrite includes_unfold in Hg.
    apply orb_false_iff in Hg. tauto.
Qed.

Lemma segmentOf_cue (gap : jsstring) (c : cueElement) (m rest : jsstring) :
  segmentOf (mkFound gap [cueStart c; cueDur c; cueBody c] m rest)
  = match cueSegments c with
    | [] => None
    | it :: _ => Some it
    end.
Proof.
  unfold segmentOf, cueSegments, group. cbn [groups Nat.sub nth].
  now destruct (decodeText (cueBody c)).
Qed.

Lemma collect_cue (gap : jsstring) (c : cueElement) (m rest : jsstring) ms :
  collect (mkFound gap [cueStart c; cueDur c; cueBody c] m rest :: ms)
  = cueSegments c ++ collect ms.
Proof.
  cbn [collect]. rewrite segmentOf_cue. unfold cueSegments.
  now destruct (decodeText (cueBody c)).
Qed.

Lemma renderDocument_cons gap c cues tail :
  renderDocument ((gap, c) :: cues) tail
  = gap ++ renderCue c ++ renderDocument cues tail.
Proof.
  unfold renderDocument. cbn [map concat fst snd]. now rewrite <- !app_assoc.
Qed.

Lemma collect_document (cues : list (jsstring * cueElement)) (tail : jsstring) :
  Forall (fun gc => gapped gc /\ wellFormedCue (snd gc)) cues ->
  includes tail (u "<text") = false ->
  collect (matchAll pattern1 (renderDocument cues tail))
  = flat_map (fun gc => cueSegments (snd gc)) cues.
Proof.
  intros Hc Ht. induction Hc as [|[gap c] cues [Hg Hw] _ IH].
  - unfold renderDocument. cbn [map concat app flat_map].
    now rewrite (matchAll_none pattern1 tail) by (now apply search_literal_head).
  - rewrite renderDocument_cons. cbn [flat_map snd].
    destruct (search_cue gap c (renderDocument cues tail) Hg Hw) as [m E].
    rewrite (matchAll_step pattern1 pattern1_consuming _ _ E). cbn [after].
    now rewrite collect_cue, IH.
Qed.

Lemma textMatches_none (tail : jsstring) :
  includes tail (u "<text") = false -> textMatches tail = [].
Proof.
  intros Ht. unfold textMatches.
  rewrite (matchAll_none pattern1 tail) by (now apply search_literal_head).
  rewrite (matchAll_none pattern2 tail) by (now apply search_literal_head).
  now rewrite (matchAll_none pattern3 tail) by (now apply search_literal_head).
Qed.

(** As soon as the document has a cue element in the standard format, the
    first pattern is the one in use. *)
Lemma textMatches_standard gap c (cues : list (jsstring * cueElement)) tail :
  gapped (gap, c) -> wellFormedCue c ->
  textMatches (renderDocument ((gap, c) :: cues) tail)
  = matchAll pattern1 (renderDocument ((gap, c) :: cues) tail).
Proof.
  intros Hg Hw. unfold textMatches. rewrite renderDocument_cons.
  destruct (search_cue gap c (renderDocument cues tail) Hg Hw) as [m E].
  now rewrite (matchAll_step pattern1 pattern1_consuming _ _ E).
Qed.

(** X7.  The parser reads a document cue element by cue element: for a
    document made of cue elements in the standard format, each preceded by
    a gap in which no cue element starts, and of a tail of the same kind,
    the result is, in order, the segment of each cue element (its decoded
    body with its two timings), the cue elements whose decoded body is
    empty being skipped. *)
Theorem parseTranscriptXml_document (cues : list (jsstring * cueElement))
  (tail : jsstring) :
  Forall (fun gc => gapped gc /\ wellFormedCue (snd gc)) cues ->
  includes tail (u "<text") = false ->
  parseTranscriptXml (renderDocument cues tail)
  = flat_map (fun gc => cueSegments (snd gc)) cues.
Proof.
  intros Hc Ht. unfold parseTranscriptXml. destruct cues as [|[gap c] cues].
  - unfold renderDocument. cbn [map concat app flat_map].
    now rewrite (textMatches_none tail Ht).
  - inversion Hc as [|? ? [Hg Hw] _]; subst.
    rewrite (textMatches_standard gap c cues tail Hg Hw).
    apply (collect_document _ tail Hc Ht).
Qed.

Lemma parseTranscriptXml_document_witness :
  parseTranscriptXml (renderDocument sampleDocument (u "</transcript>"))
  = [mkItem (u "Tom & Jerry") (Fin 2) (Fin (1 # 2));
     mkItem (u "Hello") (Fin 1) (Fin (17 # 4))].
Proof.
  apply (parseTranscriptXml_document sampleDocument (u "</transcript>")).
  - repeat constructor; vm_compute; intuition discriminate.
  - vm_compute. reflexivity.
Defined.

Lemma render_plain (b : jsstring) : render (map Chr b) = b.
Proof.
  induction b as [|c b IH]; [reflexivity|].
  unfold render in *. cbn [map flat_map written app]. now rewrite IH.
Qed.

Lemma decoded_plain (b : jsstring) : map decoded (map Chr b) = b.
Proof. rewrite map_map. cbn [decoded]. apply map_id. Qed.

Lemma well_written_plain (b : jsstring) :
  ~ In 38 b -> ~ In 60 b -> forallb well_written (map Chr b) = true.
Proof.
  intros Ha Hl. apply forallb_forall. intros p Hp. apply in_map_iff in Hp.
  destruct Hp as (c & <- & Hc). cbn [well_written].
  destruct (N.eqb_spec c 38) as [->|_]; [now elim Ha|].
  destruct (N.eqb_spec c 60) as [->|_]; [now elim Hl|reflexivity].
Qed.

Lemma decoded_once_plain (b : jsstring) : decoded_once (map Chr b) = true.
Proof. induction b as [|c b IH]; [reflexivity|exact IH]. Qed.

(** A text without [&] and [<] is only trimmed. *)
Lemma decodeText_plain (b : jsstring) :
  ~ In 38 b -> ~ In 60 b -> decodeText b = trim b.
Proof.
  intros Ha Hl.
  pose proof (decodeText_render (map Chr b) (well_written_plain b Ha Hl)
                (decoded_once_plain b)) as E.
  now rewrite render_plain, decoded_plain in E.
Qed.

Lemma cueSegments_plain (c : cueElement) :
  plainCue c -> cueSegments c = [cueSegment c].
Proof.
  intros ((_ & _ & _ & _ & Hl) & Hne & Ha & Ht). unfold cueSegments, cueSegment.
  rewrite (decodeText_plain _ Ha Hl), Ht.
  destruct (cueBody c); [now elim Hne|reflexivity].
Qed.

(** X8.  Round trip: a document written from plain cue elements, with
    gaps and a tail in which no cue element starts, is read back as the
    segments that the cue elements stand for, in order. *)
Theorem parseTranscriptXml_round_trip (cues : list (jsstring * cueElement))
  (tail : jsstring) :
  Forall (fun gc => gapped gc /\ plainCue (snd gc)) cues ->
  includes tail (u "<text") = false ->
  parseTranscriptXml (renderDocument cues tail) = map (fun gc => cueSegment (snd gc)) cues.
Proof.
  intros Hc Ht.
  assert (Hw : Forall (fun gc => gapped gc /\ wellFormedCue (snd gc)) cues).
  { eapply Forall_impl; [|exact Hc]. intros gc [Hg [Hw _]]. now split. }
  assert (D : parseTranscriptXml (renderDocument cues tail)
              = collect (matchAll pattern1 (renderDocument cues tail))).
  { unfold parseTranscriptXml. destruct cues as [|[gap c] cues].
    - unfold renderDocument. cbn [map concat app].
      rewrite (textMatches_none tail Ht).
      now rewrite (matchAll_none pattern1 tail) by (now apply search_literal_head).
    - inversion Hw as [|? ? [Hg Hc'] _]; subst.
      now rewrite (textMatches_standard gap c cues tail Hg Hc'). }
  rewrite D, (collect_document cues tail Hw Ht). clear D Hw.
  induction Hc as [|gc cues [_ Hp] _ IH]; [reflexivity|].
  cbn [flat_map map]. now rewrite (cueSegments_plain _ Hp), IH.
Qed.

Lemma parseTranscriptXml_round_trip_witness :
  parseTranscriptXml (renderDocument plainDocument (u "</transcript>"))
  = [mkItem (u "Tom and Jerry") (Fin 2) (Fin (1 # 2));
     mkItem (u "Hello") (Fin 1) (Fin (17 # 4))].
Proof.
  apply (parseTranscriptXml_round_trip plainDocument (u "</transcript>")).
  - repeat constructor; vm_compute; try reflexivity; intuition discriminate.
  - vm_compute. reflexivity.
Defined.

End CueXmlMore.


(* ================================================================== *)
(** * Further properties: the library-backed handler *)
(* ================================================================== *)

Module RouteMore.
Import Route DirectPage CueXml StringFacts RetryFacts DirectPageFacts HandlerFacts.

(** ** The shape of every run of the retry loop *)

Lemma no_failure (w : World) (k : nat) :
  failure_at w k = None -> exists items, library w k = LibArray items.
Proof.
  unfold failure_at. destruct (library w k) as [items| |]; try discriminate.
  now exists items.
Qed.

Ltac failures_upto :=
  let j := fresh "j" in let Hj := fresh "Hj" in
  intros j Hj;
  do 6 (destruct j as [|j]; [first [lia | congruence]|]); lia.

Lemma retryLoop_runs (w : World) (videoId lang : jsstring) :
  exists n, (n <= 4)%nat
    /\ (forall k, (1 <= k <= n)%nat -> failure_at w k <> None)
    /\ snd (retryLoop w videoId lang maxRetries 1 None []) = loop_trace w videoId lang n
    /\ ((exists items, library w (S n) = LibArray items
                       /\ fst (retryLoop w videoId lang maxRetries 1 None []) = Broke items)
        \/ (n = 4%nat
            /\ exists e, failure_at w 5 = Some e
                         /\ fst (retryLoop w videoId lang maxRetries 1 None []) = Threw e)).
Proof.
  unfold loop_trace.
  destruct (failure_at w 1) as [e1|] eqn:F1.
  2:{ destruct (no_failure w 1 F1) as [items L]. exists 0%nat.
      rewrite (loop_success_after w videoId lang 0 items
                 ltac:(unfold maxRetries; lia) ltac:(failures_upto) L).
      repeat split; [lia|failures_upto|]. left. now exists items. }
  destruct (failure_at w 2) as [e2|] eqn:F2.
  2:{ destruct (no_failure w 2 F2) as [items L]. exists 1%nat.
      rewrite (loop_success_after w videoId lang 1 items
                 ltac:(unfold maxRetries; lia) ltac:(failures_upto) L).
      repeat split; [lia|failures_upto|]. left. now exists items. }
  destruct (failure_at w 3) as [e3|] eqn:F3.
  2:{ destruct (no_failure w 3 F3) as [items L]. exists 2%nat.
      rewrite (loop_success_after w videoId lang 2 items
                 ltac:(unfold maxRetries; lia) ltac:(failures_upto) L).
      repeat split; [lia|failures_upto|]. left. now exists items. }
  destruct (failure_at w 4) as [e4|] eqn:F4.
  2:{ destruct (no_failure w 4 F4) as [items L]. exists 3%nat.
      rewrite (loop_success_after w videoId lang 3 items
                 ltac:(unfold maxRetries; lia) ltac:(failures_upto) L).
      repeat split; [lia|failures_upto|]. left. now exists items. }
  destruct (failure_at w 5) as [e5|] eqn:F5.
  2:{ destruct (no_failure w 5 F5) as [items L]. exists 4%nat.
      rewrite (loop_success_after w videoId lang 4 items
                 ltac:(unfold maxRetries; lia) ltac:(failures_upto) L).
      repeat split; [lia|failures_upto|]. left. now exists items. }
  exists 4%nat.
  rewrite (loop_all_fail w videoId lang e5 ltac:(unfold maxRetries; failures_upto) F5).
  repeat split; [lia|failures_upto|]. right. split; [reflexivity|]. now exists e5.
Qed.

(** X9.  Every run of the retry loop is a number [n <= 4] of failed
    attempts, each followed by its backoff delay, and one last attempt:
    either the first attempt that returns an array, or the fifth attempt,
    whose error is thrown.  The loop is never left without a result. *)
Theorem retryLoop_shape (w : World) (videoId lang : jsstring) :
  exists n, (n <= 4)%nat
    /\ (forall k, (1 <= k <= n)%nat -> failure_at w k <> None)
    /\ snd (retryLoop w videoId lang maxRetries 1 None []) = loop_trace w videoId lang n
    /\ ((exists items, library w (S n) = LibArray items
                       /\ fst (retryLoop w videoId lang maxRetries 1 None []) = Broke items)
        \/ (n = 4%nat
            /\ exists e, failure_at w 5 = Some e
                         /\ fst (retryLoop w videoId lang maxRetries 1 None []) = Threw e)).
Proof. exact (retryLoop_runs w videoId lang). Qed.

(** ** Bounds on what a request costs *)

Lemma sleeps_app (a b : trace) : sleeps (a ++ b) = sleeps a ++ sleeps b.
Proof. apply flat_map_app. Qed.

Lemma fetches_app (a b : trace) : fetches (a ++ b) = fetches a ++ fetches b.
Proof. apply flat_map_app. Qed.

Lemma library_calls_app (a b : trace) :
  library_calls (a ++ b) = (library_calls a + library_calls b)%nat.
Proof. unfold library_calls. now rewrite filter_app, length_app. Qed.

Lemma total_sleep_app (a b : trace) :
  total_sleep (a ++ b) = (total_sleep a + total_sleep b)%Z.
Proof.
  unfold total_sleep. rewrite sleeps_app.
  induction (sleeps a) as [|x l IH]; simpl; [reflexivity|]. rewrite IH. lia.
Qed.

Ltac count_events :=
  unfold total_sleep, sleeps, fetches, library_calls;
  cbn [Nat.ltb Nat.leb app flat_map filter length fold_right];
  change (progressive_delay 2) with 2000%Z;
  change (progressive_delay 3) with 4000%Z;
  change (progressive_delay 4) with 6000%Z;
  change (progressive_delay 5) with 8000%Z;
  change (Z.of_nat 1) with 1%Z; change (Z.of_nat 2) with 2%Z;
  change (Z.of_nat 3) with 3%Z; change (Z.of_nat 4) with 4%Z;
  change (Z.of_nat 5) with 5%Z.

Lemma backoff_bounds (e : jsError) :
  (1000 <= backoff e 1 <= 3000 /\ 2000 <= backoff e 2 <= 6000
   /\ 4000 <= backoff e 3 <= 12000 /\ 5000 <= backoff e 4 <= 15000)%Z.
Proof.
  unfold backoff. destruct (isBlockingError e);
    repeat split; apply Z.leb_le; reflexivity.
Qed.

Lemma failed_attempt_cost (w : World) (v l : jsstring) (k : nat) :
  (1 <= k <= 4)%nat -> failure_at w k <> None ->
  library_calls (failed_attempt_events w v l k) = 1%nat
  /\ fetches (failed_attempt_events w v l k) = []
  /\ length (sleeps (failed_attempt_events w v l k))
     = match k with 1%nat => 1%nat | _ => 2%nat end
  /\ (0 <= total_sleep (failed_attempt_events w v l k)
      <= match k with
         | 1%nat => 3000 | 2%nat => 8000 | 3%nat => 16000 | _ => 21000
         end)%Z.
Proof.
  intros Hk Hf. unfold failed_attempt_events, attempt_events.
  destruct (failure_at w k) as [e|]; [|now elim Hf].
  pose proof (backoff_bounds e) as B.
  assert (K : k = 1%nat \/ k = 2%nat \/ k = 3%nat \/ k = 4%nat) by lia.
  destruct K as [->|[->|[->| ->]]]; count_events; repeat split; try reflexivity; lia.
Qed.

Lemma last_attempt_cost (v l : jsstring) (k : nat) :
  (1 <= k <= 5)%nat ->
  library_calls (attempt_events v l k) = 1%nat
  /\ fetches (attempt_events v l k) = []
  /\ length (sleeps (attempt_events v l k))
     = match k with 1%nat => 0%nat | _ => 1%nat end
  /\ (0 <= total_sleep (attempt_events v l k) <= 2000 * (Z.of_nat k - 1))%Z.
Proof.
  intros Hk. unfold attempt_events.
  assert (K : k = 1%nat \/ k = 2%nat \/ k = 3%nat \/ k = 4%nat \/ k = 5%nat) by lia.
  destruct K as [->|[->|[->|[->| ->]]]]; count_events;
    repeat split; try reflexivity; lia.
Qed.

Lemma loop_trace_cost (w : World) (v l : jsstring) (n : nat) :
  (n <= 4)%nat -> (forall k, (1 <= k <= n)%nat -> failure_at w k <> None) ->
  library_calls (loop_trace w v l n) = S n
  /\ fetches (loop_trace w v l n) = []
  /\ (length (sleeps (loop_trace w v l n)) <= 2 * n)%nat
  /\ (0 <= total_sleep (loop_trace w v l n) <= 56000)%Z.
Proof.
  intros Hn Hf. unfold loop_trace.
  rewrite library_calls_app, fetches_app, sleeps_app, total_sleep_app, length_app.
  destruct (last_attempt_cost v l (S n)) as (L1 & L2 & L3 & L4); [lia|].
  assert (F : forall k, (1 <= k <= n)%nat ->
            library_calls (failed_attempt_events w v l k) = 1%nat
            /\ fetches (failed_attempt_events w v l k) = []
            /\ length (sleeps (failed_attempt_events w v l k))
     = match k with 1%nat => 1%nat | _ => 2%nat end
            /\ (0 <= total_sleep (failed_attempt_events w v l k)
                <= match k with
                   | 1%nat => 3000 | 2%nat => 8000 | 3%nat => 16000 | _ => 21000
                   end)%Z).
  { intros k Hk. apply failed_attempt_cost; [lia|now apply Hf]. }
  assert (N : n = 0%nat \/ n = 1%nat \/ n = 2%nat \/ n = 3%nat \/ n = 4%nat) by lia.
  destruct N as [->|[->|[->|[->| ->]]]]; cbn [seq flat_map];
    rewrite ?library_calls_app, ?fetches_app, ?sleeps_app, ?total_sleep_app, ?length_app;
    try (destruct (F 1%nat) as (A1 & A2 & A3 & A4); [lia|]);
    try (destruct (F 2%nat) as (B1 & B2 & B3 & B4); [lia|]);
    try (destruct (F 3%nat) as (C1 & C2 & C3 & C4); [lia|]);
    try (destruct (F 4%nat) as (D1 & D2 & D3 & D4); [lia|]);
    rewrite ?A1, ?A2, ?A3, ?B1, ?B2, ?B3, ?C1, ?C2, ?C3, ?D1, ?D2, ?D3, ?L1, ?L2, ?L3;
    cbn [library_calls fetches sleeps total_sleep flat_map filter length
         fold_right app Nat.add] in *;
    repeat split; try reflexivity; lia.
Qed.

Lemma direct_cost (w : World) (v l : jsstring) :
  library_calls (snd (fetchTranscriptDirectly w v l [])) = 0%nat
  /\ sleeps (snd (fetchTranscriptDirectly w v l [])) = []
  /\ (length (fetches (snd (fetchTranscriptDirectly w v l []))) <= 2)%nat.
Proof.
  unfold fetchTranscriptDirectly.
  repeat match goal with
         | |- context [match ?x with _ => _ end] => destruct x
         end; cbn; repeat split; lia.
Qed.

(** X10.  Whatever the world does, one request calls the library at most
    five times, suspends at most eight times and for at most 56 seconds in
    all, and issues at most two fetches; it fetches only after an attempt
    at which the library returned an empty array. *)
Theorem GET_effort_bounds (w : World) (videoId lang : option jsstring) :
  let tr := snd (Route.GET w videoId lang) in
  (library_calls tr <= 5)%nat
  /\ (length (sleeps tr) <= 8)%nat
  /\ (0 <= total_sleep tr <= 56000)%Z
  /\ (length (fetches tr) <= 2)%nat
  /\ (fetches tr <> [] ->
      exists k, (1 <= k <= 5)%nat /\ library w k = LibArray []).
Proof.
  cbv zeta. unfold Route.GET.
  destruct videoId as [[|c v0]|];
    try (cbn; repeat split; try lia; intros H; now elim H).
  destruct (negb (length (c :: v0) =? 11)%nat);
    [cbn; repeat split; try lia; intros H; now elim H|].
  set (v := c :: v0). set (l := lang_or_default lang). unfold GET_valid.
  destruct (retryLoop_runs w v l) as (n & Hn & Hf & Htr & Hex).
  destruct (loop_trace_cost w v l n Hn Hf) as (T1 & T2 & T3 & T4).
  destruct (retryLoop w v l maxRetries 1 None []) as [ex tr]. cbn [fst snd] in *.
  subst tr.
  destruct Hex as [(items & L & ->)|(_ & e & _ & ->)].
  - destruct items as [|i items].
    + rewrite (direct_trace w v l (loop_trace w v l n)).
      destruct (direct_cost w v l) as (D1 & D2 & D3).
      assert (G : forall r, snd (let (s, tr') := (fst (fetchTranscriptDirectly w v l []),
                        loop_trace w v l n ++ snd (fetchTranscriptDirectly w v l [])) in
                    match s with
                    | inr ((_ :: _) as fb) => (Json200 v (map transform (map asRaw fb)), tr')
                    | _ => (r, tr')
                    end)
                 = loop_trace w v l n ++ snd (fetchTranscriptDirectly w v l [])).
      { intros r. cbn [fst snd].
        destruct (fst (fetchTranscriptDirectly w v l [])) as [?|[|? ?]]; reflexivity. }
      rewrite G.
      rewrite library_calls_app, sleeps_app, total_sleep_app, fetches_app, !length_app.
      assert (D4 : total_sleep (snd (fetchTranscriptDirectly w v l [])) = 0%Z)
        by (unfold total_sleep; now rewrite D2).
      rewrite D1, D2, D4, T2. cbn [length app].
      repeat split; try lia.
      intros _. exists (S n). split; [lia|exact L].
    + cbn [snd]. rewrite T2. cbn [length]. repeat split; try lia. intros H; now elim H.
  - cbn [snd]. rewrite T2. cbn [length]. repeat split; try lia. intros H; now elim H.
Qed.

Lemma GET_effort_bounds_witness :
  exists k, (1 <= k <= 5)%nat /\ library enUSWorld k = LibArray [].
Proof.
  apply (GET_effort_bounds enUSWorld (Some zooId) (Some (u "en"))).
  vm_compute. discriminate.
Defined.

(** ** What a 200 answer contains *)

Lemma first_truthy_number (l : list (option num)) : first_truthy l <> NaN.
Proof.
  unfold first_truthy.
  induction l as [|a l IH]; cbn [flat_map]; [discriminate|].
  unfold opt_truthy at 1. destruct a as [v|]; [|exact IH].
  destruct (truthy v) eqn:T; [|exact IH].
  cbn [app]. intros ->. discriminate.
Qed.

Lemma transform_numbers (item : rawItem) :
  duration (transform item) <> NaN /\ offset (transform item) <> NaN.
Proof. unfold transform. cbn [duration offset]. split; apply first_truthy_number. Qed.

Lemma errorResponse_is_error (e : jsError) :
  exists st b, errorResponse e = JsonError st b.
Proof.
  unfold errorResponse.
  repeat match goal with
         | |- context [if ?x then _ else _] => destruct x
         end; eauto.
Qed.

(** X11.  A 200 answer of the library-backed handler echoes the requested
    identifier, which has 11 code units, and carries at least one segment;
    no segment has a [NaN] duration or offset. *)
Theorem GET_success_content (w : World) (videoId lang : option jsstring)
  (v : jsstring) (t : list TranscriptItem) :
  fst (Route.GET w videoId lang) = Json200 v t ->
  videoId = Some v /\ length v = 11%nat /\ t <> []
  /\ Forall (fun it => duration it <> NaN /\ offset it <> NaN) t.
Proof.
  unfold Route.GET.
  destruct videoId as [[|c v0]|]; try discriminate.
  destruct (length (c :: v0) =? 11)%nat eqn:El; [|discriminate]. cbn [negb].
  apply Nat.eqb_eq in El. unfold GET_valid.
  assert (M : forall items, Forall (fun it => duration it <> NaN /\ offset it <> NaN)
                                   (map transform items)).
  { intros items. apply Forall_forall. intros it Hin.
    apply in_map_iff in Hin. destruct Hin as (x & <- & _). apply transform_numbers. }
  destruct (retryLoop w (c :: v0) (lang_or_default lang) maxRetries 1 None [])
    as [[[|i items]|e|le] tr].
  - destruct (fetchTranscriptDirectly w (c :: v0) (lang_or_default lang) tr)
      as [[err|[|s segs]] tr']; cbn [fst]; try discriminate.
    intros [= <- <-]. repeat split; try assumption; [discriminate|].
    apply (M (map asRaw (s :: segs))).
  - cbn [fst]. intros [= <- <-]. repeat split; try assumption; [discriminate|].
    apply (M (i :: items)).
  - cbn [fst]. destruct (errorResponse_is_error e) as (st & b & ->). discriminate.
  - cbn [fst].
    destruct (errorResponse_is_error
                (match le with Some e => e | None => retriesFailedError end))
      as (st & b & ->). discriminate.
Qed.

Lemma GET_success_content_witness :
  Some zooId = Some zooId /\ length zooId = 11%nat
  /\ [mkItem (u "hello") (Fin 2) (Fin (1 # 2))] <> []
  /\ Forall (fun it => duration it <> NaN /\ offset it <> NaN)
            [mkItem (u "hello") (Fin 2) (Fin (1 # 2))].
Proof.
  apply (GET_success_content servedWorld (Some zooId) None). reflexivity.
Defined.

(** ** Errors that carry a 429 or 403 *)

Lemma lower_keeps_429 (s : jsstring) :
  includes s (u "429") = true -> includes (toLowerCase s) (u "429") = true.
Proof.
  intros H. apply includes_occurs in H. destruct H as (a & b & ->).
  apply includes_occurs. exists (toLowerCase a), (toLowerCase b).
  unfold toLowerCase. now rewrite !map_app.
Qed.

(** X12.  An error whose status is 429 or 403, or whose message contains
    [429], is retried with the long backoff and, when it persists, is
    never answered with the generic status 500. *)
Theorem blocking_errors_consistent (e : jsError) :
  status_is e 429 || status_is e 403 || includes (message e) (u "429") = true ->
  isBlockingError e = true
  /\ (forall k, backoff e k = blocking_delay k)
  /\ http_status (errorResponse e) <> 500%Z.
Proof.
  intros H.
  assert (B : isBlockingError e = true).
  { unfold isBlockingError.
    destruct (status_is e 429); [now rewrite !orb_true_r|].
    destruct (status_is e 403); [now rewrite !orb_true_r|].
    cbn [orb] in H. now rewrite (lower_keeps_429 _ H). }
  split; [exact B|]. split; [intros k; unfold backoff; now rewrite B|].
  unfold errorResponse.
  match goal with |- context [if ?c then JsonError 404 _ else _] => destruct c end;
    [cbn; lia|].
  match goal with |- context [if ?c then JsonError 400 _ else _] => destruct c end;
    [cbn; lia|].
  match goal with |- context [if ?c then JsonError 429 _ else _] =>
    assert (C : c = true) end.
  { unfold any_includes. cbn [existsb].
    destruct (status_is e 429); [now rewrite !orb_true_r|].
    destruct (status_is e 403); [now rewrite !orb_true_r|].
    cbn [orb] in H. rewrite H. now rewrite !orb_true_r. }
  rewrite C. cbn. lia.
Qed.

Lemma blocking_errors_consistent_witness :
  isBlockingError tooManyRequests = true
  /\ (forall k, backoff tooManyRequests k = blocking_delay k)
  /\ http_status (errorResponse tooManyRequests) <> 500%Z.
Proof. apply blocking_errors_consistent. reflexivity. Defined.

(** ** The requests of the direct-page strategy *)



End RouteMore.

(* ================================================================== *)
(** * Further properties: the yt-dlp backed handler *)
(* ================================================================== *)

Module YtDlpMore.
Import YtDlp StringFacts DirectPageFacts.

(** ** Segment-JSON timings *)




(** ** The text of VTT-like cues *)

Lemma update_last (done : list TranscriptItem) (cur : TranscriptItem) f :
  update_at (length done) f (done ++ [cur]) = done ++ [f cur].
Proof. induction done as [|x done IH]; simpl; [reflexivity|now rewrite IH]. Qed.

Lemma vttStep_cue (st : vttState) (line : jsstring) :
  isCueLine line = true ->
  vttStep st line
  = mkVtt (transcript st ++ [newCue line]) (Some (length (transcript st))).
Proof. intros H. unfold vttStep. now rewrite H. Qed.

Lemma vttStep_text (done : list TranscriptItem) (cur : TranscriptItem)
  (line : jsstring) :
  isCueLine line = false ->
  vttStep (mkVtt (done ++ [cur]) (Some (length done))) line
  = mkVtt (done ++ [addLine cur line]) (Some (length done)).
Proof.
  intros H. unfold vttStep, addLine, isTextLine. rewrite H. cbn [currentSegment transcript].
  destruct (trim line); [reflexivity|].
  destruct (negb _ && negb _); [|reflexivity]. now rewrite update_last.
Qed.

Lemma vttStep_before_cue (line : jsstring) :
  isCueLine line = false -> vttStep (mkVtt [] None) line = mkVtt [] None.
Proof. intros H. unfold vttStep. now rewrite H. Qed.

Lemma fold_body (body : list jsstring) : forall done cur,
  Forall (fun l => isCueLine l = false) body ->
  fold_left vttStep body (mkVtt (done ++ [cur]) (Some (length done)))
  = mkVtt (done ++ [fold_left addLine body cur]) (Some (length done)).
Proof.
  induction body as [|l body IH]; intros done cur H; [reflexivity|].
  inversion H as [|? ? Hl Hb]; subst. cbn [fold_left].
  rewrite (vttStep_text done cur l Hl). now apply IH.
Qed.

Lemma fold_preamble (pre : list jsstring) :
  Forall (fun l => isCueLine l = false) pre ->
  fold_left vttStep pre (mkVtt [] None) = mkVtt [] None.
Proof.
  induction pre as [|l pre IH]; intros H; [reflexivity|].
  inversion H as [|? ? Hl Hp]; subst. cbn [fold_left].
  rewrite (vttStep_before_cue l Hl). now apply IH.
Qed.

Lemma fold_blocks (blocks : list (jsstring * list jsstring)) : forall st,
  Forall wellFormedBlock blocks ->
  transcript (fold_left vttStep (flat_map blockLines blocks) st)
  = transcript st
    ++ map (fun b => fold_left addLine (snd b) (newCue (fst b))) blocks.
Proof.
  induction blocks as [|[c body] blocks IH]; intros st H.
  - cbn. now rewrite app_nil_r.
  - inversion H as [|? ? [Hc Hb] Hrest]; subst. cbn [fst snd] in *.
    cbn [flat_map blockLines fst snd app fold_left]. rewrite fold_left_app.
    rewrite (vttStep_cue st c Hc), (fold_body body _ _ Hb), (IH _ Hrest).
    cbn [transcript map fst snd]. now rewrite <- app_assoc.
Qed.

Lemma addLines_glue (body : list jsstring) : forall it,
  fold_left addLine body it
  = mkItem (glue (text it) (map trim (filter isTextLine body)))
           (duration it) (offset it).
Proof.
  induction body as [|l body IH]; intros it; [now destruct it|].
  cbn [fold_left filter]. unfold addLine at 2. destruct (isTextLine l).
  - rewrite IH. reflexivity.
  - apply IH.
Qed.

Lemma join_cons_cons (sep x y : jsstring) (l : list jsstring) :
  join sep (x :: y :: l) = x ++ sep ++ join sep (y :: l).
Proof. reflexivity. Qed.

Lemma glue_nonempty (xs : list jsstring) : forall t,
  t <> [] -> glue t xs = join (u " ") (t :: xs).
Proof.
  induction xs as [|x xs IH]; intros t Ht; [reflexivity|].
  cbn [glue]. destruct t as [|c t]; [now elim Ht|].
  rewrite IH by discriminate. rewrite join_cons_cons.
  destruct xs as [|y ys].
  - reflexivity.
  - rewrite !join_cons_cons. now rewrite <- !app_assoc.
Qed.

Lemma glue_join (xs : list jsstring) :
  Forall (fun x => x <> []) xs -> glue [] xs = join (u " ") xs.
Proof.
  destruct xs as [|x xs]; intros H; [reflexivity|].
  inversion H; subst. cbn [glue app]. now apply glue_nonempty.
Qed.

Lemma text_lines_nonempty (body : list jsstring) :
  Forall (fun x => x <> []) (map trim (filter isTextLine body)).
Proof.
  apply Forall_forall. intros x Hx. apply in_map_iff in Hx.
  destruct Hx as (l & <- & Hl). apply filter_In in Hl. destruct Hl as [_ Hl].
  unfold isTextLine in Hl. destruct (trim l); [discriminate|discriminate].
Qed.

Lemma block_item (b : jsstring * list jsstring) :
  fold_left addLine (snd b) (newCue (fst b)) = blockItem b.
Proof.
  rewrite addLines_glue. unfold blockItem, newCue, cueTiming.
  destruct (cueTimes (fst b)) as [s e]. cbn [text duration offset fst snd].
  now rewrite (glue_join _ (text_lines_nonempty (snd b))).
Qed.

(** X15.  A VTT-like document is read block by block: the lines before the
    first cue line are ignored, and each cue line yields one segment whose
    text is made of the lines that follow it up to the next cue line -
    without the blank lines and the lines starting with NOTE or WEBVTT -
    each trimmed, joined by single spaces. *)
Theorem parseVtt_blocks (text : jsstring) (pre : list jsstring)
  (blocks : list (jsstring * list jsstring)) :
  lines text = pre ++ flat_map blockLines blocks ->
  Forall (fun l => isCueLine l = false) pre ->
  Forall wellFormedBlock blocks ->
  parseVtt text = map blockItem blocks.
Proof.
  intros E Hpre Hb. unfold parseVtt. change (split text _) with (lines text).
  rewrite E, fold_left_app, (fold_preamble pre Hpre), (fold_blocks blocks _ Hb).
  cbn [transcript app]. apply map_ext. exact block_item.
Qed.

Lemma parseVtt_blocks_witness :
  parseVtt (u "WEBVTT" ++ nl ++ nl ++ u "00:01.000 --> 00:03.500" ++ nl
            ++ u " Hello " ++ nl ++ u "NOTE skipped" ++ nl ++ u "world" ++ nl ++ nl
            ++ u "00:04.000 --> 00:05.000" ++ nl ++ u "again")
  = map blockItem
      [(u "00:01.000 --> 00:03.500", [u " Hello "; u "NOTE skipped"; u "world"; []]);
       (u "00:04.000 --> 00:05.000", [u "again"])].
Proof.
  apply parseVtt_blocks with (pre := [u "WEBVTT"; []]).
  - vm_compute. reflexivity.
  - repeat constructor.
  - repeat constructor.
Defined.

(** ** Choice of the language and of the format *)







(** X17.  The chosen format is one of the offered ones and there is none
    only when the list is empty; when a [json3] format is offered the
    chosen one is a [json3], and when no [json3] but a [vtt] format is
    offered the chosen one is a [vtt], whatever their positions. *)
Theorem selectTrack_preference (subs : list subTrack) :
  (selectTrack subs = None <-> subs = [])
  /\ (forall t, selectTrack subs = Some t -> In t subs)
  /\ (existsb (ext_is "json3") subs = true ->
      exists t, selectTrack subs = Some t /\ ext_is "json3" t = true)
  /\ (existsb (ext_is "json3") subs = false ->
      existsb (ext_is "vtt") subs = true ->
      exists t, selectTrack subs = Some t /\ ext_is "vtt" t = true).
Proof.
  unfold selectTrack. repeat split.
  - destruct (find (ext_is "json3") subs); [discriminate|].
    destruct (find (ext_is "vtt") subs); [discriminate|].
    destruct subs; [reflexivity|discriminate].
  - intros ->. reflexivity.
  - intros t. destruct (find (ext_is "json3") subs) as [x|] eqn:F1.
    + intros [= <-]. apply (find_some _ _ F1).
    + destruct (find (ext_is "vtt") subs) as [y|] eqn:F2.
      * intros [= <-]. apply (find_some _ _ F2).
      * destruct subs as [|z subs]; [discriminate|]. intros [= <-]. now left.
  - intros H. destruct (find (ext_is "json3") subs) as [x|] eqn:F1.
    + exists x. split; [reflexivity|]. apply (find_some _ _ F1).
    + apply existsb_exists in H. destruct H as (x & Hin & Hx).
      rewrite (find_none _ _ F1 x Hin) in Hx. discriminate.
  - intros H1 H2. destruct (find (ext_is "json3") subs) as [x|] eqn:F1.
    + apply find_some in F1. destruct F1 as [Hin Hx].
      assert (E : existsb (ext_is "json3") subs = true)
        by (apply existsb_exists; now exists x).
      congruence.
    + destruct (find (ext_is "vtt") subs) as [y|] eqn:F2.
      * exists y. split; [reflexivity|]. apply (find_some _ _ F2).
      * apply existsb_exists in H2. destruct H2 as (y & Hin & Hy).
        rewrite (find_none _ _ F2 y Hin) in Hy. discriminate.
Qed.

Lemma selectTrack_preference_witness :
  exists t, selectTrack [mkSub (Some (u "vtt")) (Some timedtextUrl);
                         mkSub (Some (u "json3")) (Some json3Url)] = Some t
            /\ ext_is "json3" t = true.
Proof.
  apply (selectTrack_preference [mkSub (Some (u "vtt")) (Some timedtextUrl);
                                 mkSub (Some (u "json3")) (Some json3Url)]).
  reflexivity.
Defined.







(** ** Plain text output *)

Lemma join_app (sep : jsstring) (a b : list jsstring) :
  a <> [] -> b <> [] -> join sep (a ++ b) = join sep a ++ sep ++ join sep b.
Proof.
  intros Ha Hb. induction a as [|x [|y a] IH]; [now elim Ha| |].
  - destruct b; [now elim Hb|reflexivity].
  - change ((x :: y :: a) ++ b) with (x :: y :: (a ++ b)).
    rewrite !join_cons_cons.
    change (y :: a ++ b) with ((y :: a) ++ b). rewrite IH by discriminate.
    now rewrite <- !app_assoc.
Qed.

(** X19.  The plain text of a transcript made of two non-empty parts is
    the text of the first part, one space, and the text of the second; the
    plain text of the empty transcript is empty. *)
Theorem formatAsText_app (a b : list TranscriptItem) :
  Format.formatAsText [] = []
  /\ (a <> [] -> b <> [] ->
      Format.formatAsText (a ++ b)
      = Format.formatAsText a ++ u " " ++ Format.formatAsText b).
Proof.
  split; [reflexivity|]. intros Ha Hb. unfold Format.formatAsText.
  rewrite map_app. apply join_app.
  - destruct a; [now elim Ha|discriminate].
  - destruct b; [now elim Hb|discriminate].
Qed.

Lemma formatAsText_app_witness :
  Format.formatAsText ([mkItem (u "Hello") (Fin 1) (Fin 0)]
                       ++ [mkItem (u "world") (Fin 1) (Fin 1)])
  = Format.formatAsText [mkItem (u "Hello") (Fin 1) (Fin 0)] ++ u " "
    ++ Format.formatAsText [mkItem (u "world") (Fin 1) (Fin 1)].
Proof. apply formatAsText_app; discriminate. Defined.

End YtDlpMore.
